(** * dshot: the resolution engine of the dependency-injection container

    A shallow embedding of [container.go], [entry.go], [registration.go],
    [token.go] and the package-level [Find] of the dshot repository, and the
    properties of its by-handle and by-type resolution. A second part adds
    [ResolveAll], the generic [Resolve] and [ResolveAll], the parameter
    resolution of the auto-wiring and the containers carried by a context.

    Go heap objects (tokens, entries, containers, reflect.New slots) live in
    an explicit store and are named by their addresses; every address comes
    from one allocation counter, so a later allocation has a larger address. *)

From stdpp Require Import gmap strings list fin_maps sorting.

Set Default Proof Using "Type".

(** ** The part of package reflect the container uses *)

Module reflect.

(** reflect.Kind, in the order of the Go declaration. *)
Inductive Kind :=
| Invalid | Bool | Int | Int8 | Int16 | Int32 | Int64
| Uint | Uint8 | Uint16 | Uint32 | Uint64 | Uintptr
| Float32 | Float64 | Complex64 | Complex128
| Array | Chan | Func | Interface | Map | Ptr | Slice | String | Struct
| UnsafePointer.

#[global] Instance Kind_eq_dec : EqDecision Kind.
Proof. solve_decision. Defined.

Definition Kind_to_nat (k : Kind) : nat :=
  match k with
  | Invalid => 0 | Bool => 1 | Int => 2 | Int8 => 3 | Int16 => 4 | Int32 => 5
  | Int64 => 6 | Uint => 7 | Uint8 => 8 | Uint16 => 9 | Uint32 => 10
  | Uint64 => 11 | Uintptr => 12 | Float32 => 13 | Float64 => 14
  | Complex64 => 15 | Complex128 => 16 | Array => 17 | Chan => 18 | Func => 19
  | Interface => 20 | Map => 21 | Ptr => 22 | Slice => 23 | String => 24
  | Struct => 25 | UnsafePointer => 26
  end.

Definition Kind_of_nat (n : nat) : Kind :=
  nth n [Invalid; Bool; Int; Int8; Int16; Int32; Int64; Uint; Uint8; Uint16;
         Uint32; Uint64; Uintptr; Float32; Float64; Complex64; Complex128;
         Array; Chan; Func; Interface; Map; Ptr; Slice; String; Struct;
         UnsafePointer] Invalid.

#[global] Instance Kind_countable : Countable Kind.
Proof.
  apply (inj_countable' Kind_to_nat Kind_of_nat). intros k. by destruct k.
Defined.

(** A type descriptor (reflect.Type, compared by identity in Go). A type is
    either a pointer type [*elem] or a type with a declaration or a builtin
    name, described by its kind, package path, name and printed form.
    [Named] never carries kind [Ptr]: defined pointer types are not
    represented. *)
Inductive rtype :=
| Named (k : Kind) (pkgPath name str : string)
| PtrTo (elem : rtype).

#[global] Instance rtype_eq_dec : EqDecision rtype.
Proof. solve_decision. Defined.

Fixpoint rtype_depth (t : rtype) : nat :=
  match t with Named _ _ _ _ => 0 | PtrTo e => S (rtype_depth e) end.

Fixpoint rtype_base (t : rtype) : Kind * string * string * string :=
  match t with Named k p n s => (k, p, n, s) | PtrTo e => rtype_base e end.

Fixpoint rtype_build (d : nat) (b : Kind * string * string * string) : rtype :=
  match d with
  | 0 => let '(k, p, n, s) := b in Named k p n s
  | S d' => PtrTo (rtype_build d' b)
  end.

#[global] Instance rtype_countable : Countable rtype.
Proof.
  apply (inj_countable' (λ t, (rtype_depth t, rtype_base t))
                        (λ x, rtype_build x.1 x.2)).
  intros t. induction t as [k p n s | e IH]; simpl in *; [done | by f_equal].
Defined.

(** Type.Kind, Type.Elem (which panics in Go on a type without element:
    [None] here), Type.PkgPath, Type.Name and Type.String. *)
Definition KindOf (t : rtype) : Kind :=
  match t with Named k _ _ _ => k | PtrTo _ => Ptr end.

Definition Elem (t : rtype) : option rtype :=
  match t with Named _ _ _ _ => None | PtrTo e => Some e end.

Definition PkgPath (t : rtype) : string :=
  match t with Named _ p _ _ => p | PtrTo _ => "" end.

Definition Name (t : rtype) : string :=
  match t with Named _ _ n _ => n | PtrTo _ => "" end.

Fixpoint TypeString (t : rtype) : string :=
  match t with Named _ _ _ s => s | PtrTo e => "*" +:+ TypeString e end.

(** A field of a struct type: reflect.StructField, with [Exported] for an
    empty PkgPath. The field of a struct reached through a pointer can be
    set exactly when it is exported. *)
Record StructField := {
  FieldName : string;
  FieldType : rtype;
  Exported : bool;
}.

End reflect.

Import reflect.

(** The declarations of the program being wired, and the one choice Go
    leaves open: which types implement which interfaces (their method sets),
    the fields of each struct type, and the order in which a [range] over a
    map visits its entries. Every order is a permutation of the entries;
    nothing else is assumed about it. *)
Class Env := {
  implements : rtype → rtype → bool;
  fieldsOf : rtype → list StructField;
  rangeOrder : gmap nat nat → list (nat * nat);
  rangeOrder_perm : ∀ m, rangeOrder m ≡ₚ map_to_list m;
}.

(** ** Values *)

(** A value of static type [any]. [VNil] is the nil interface (no dynamic
    type). A struct value lists the fields that were assigned; the others
    hold their zero value. A function value carries what reflect reads from
    its type (NumIn, the result types) and its behaviour: the outcome of its
    n-th call, [None] when that call panics. *)
#[local] Unset Elimination Schemes.
Inductive val :=
| VNil
| VPtr (elem : rtype) (p : option nat)
| VStruct (t : rtype) (fs : list (string * val))
| VData (t : rtype) (d : Z)
| VFunc (t : rtype) (numIn : nat) (outs : list rtype)
        (body : nat → option (list val)).
#[local] Set Elimination Schemes.

(** reflect.TypeOf: [None] is Go's nil Type. *)
Definition TypeOf (v : val) : option rtype :=
  match v with
  | VNil => None
  | VPtr e _ => Some (PtrTo e)
  | VStruct t _ | VData t _ | VFunc t _ _ _ => Some t
  end.

(** [reflect.TypeOf(zero)] for [var zero T]: the zero value of an interface
    type is the nil interface, which has no type. *)
Definition typeOfZero (T : rtype) : option rtype :=
  if decide (KindOf T = Interface) then None else Some T.

(** reflect.Value of a non-nil value: the value and, when it is
    addressable, where it lives. *)
Record Value := {
  rv_val : val;
  rv_addr : option nat;
}.

(** reflect.ValueOf never yields an addressable Value. *)
Definition ValueOf (v : val) : Value := {| rv_val := v; rv_addr := None |}.

Definition CanAddr (rv : Value) : bool := bool_decide (is_Some (rv_addr rv)).

(** ** Entries, containers and the store *)

Inductive Lifecycle := Singleton | Prototype.

#[global] Instance Lifecycle_eq_dec : EqDecision Lifecycle.
Proof. solve_decision. Defined.

(** entry.go. A factory is the stream of its outcomes: [f n] is what its
    call number [n] returns, [None] when that call panics. [once] is the
    done flag of sync.Once; the mutex has no sequential effect. *)
Record entry := {
  value : val;
  factory : option (nat → option val);
  depType : option rtype;
  lifecycle : Lifecycle;
  once : bool;
}.

(** container.go: Container. The maps hold addresses of entries; keys of
    [registry] are addresses of token objects. *)
Record Container := {
  registry : gmap nat nat;
  typeRegistry : gmap rtype (list nat);
  parent : option nat;
}.

(** A map key object: a [*Token[T]] made by NewToken, or the [*tokenKey]
    that Provide and ProvideFactory synthesize. *)
Inductive keyObj :=
| KToken (T : rtype) (key : string)
| KProvided (key : string).

(** What logger.Warn receives. *)
Inductive warning :=
| WarnSimilar (targetType : rtype)
| WarnMismatch (resolvedType targetType : rtype).

Record store := {
  next : nat;
  keys : gmap nat keyObj;
  entries : gmap nat entry;
  containers : gmap nat Container;
  objects : gmap nat val;
  invocations : list nat;
  warnings : list warning;
}.

Definition emptyStore : store :=
  {| next := 0; keys := ∅; entries := ∅; containers := ∅; objects := ∅;
     invocations := []; warnings := [] |}.

Definition set_next (n : nat) (s : store) : store :=
  {| next := n; keys := keys s; entries := entries s;
     containers := containers s; objects := objects s;
     invocations := invocations s; warnings := warnings s |}.

Definition set_keys (m : gmap nat keyObj) (s : store) : store :=
  {| next := next s; keys := m; entries := entries s;
     containers := containers s; objects := objects s;
     invocations := invocations s; warnings := warnings s |}.

Definition set_entries (m : gmap nat entry) (s : store) : store :=
  {| next := next s; keys := keys s; entries := m;
     containers := containers s; objects := objects s;
     invocations := invocations s; warnings := warnings s |}.

Definition set_containers (m : gmap nat Container) (s : store) : store :=
  {| next := next s; keys := keys s; entries := entries s;
     containers := m; objects := objects s;
     invocations := invocations s; warnings := warnings s |}.

Definition set_objects (m : gmap nat val) (s : store) : store :=
  {| next := next s; keys := keys s; entries := entries s;
     containers := containers s; objects := m;
     invocations := invocations s; warnings := warnings s |}.

Definition set_invocations (l : list nat) (s : store) : store :=
  {| next := next s; keys := keys s; entries := entries s;
     containers := containers s; objects := objects s;
     invocations := l; warnings := warnings s |}.

Definition set_warnings (l : list warning) (s : store) : store :=
  {| next := next s; keys := keys s; entries := entries s;
     containers := containers s; objects := objects s;
     invocations := invocations s; warnings := l |}.

(** ** Panics and the monad of store-passing computations *)

(** The panics of the package, one constructor per message, and the two
    that come from outside it. *)
Inductive panic :=
| PanicNewScopedNil
| PanicProvideNil
| PanicFactoryNotFunc
| PanicFactoryNumOut
| PanicNilToken
| PanicNotFound (token : nat)
| PanicMultipleCandidates (targetType : rtype) (found : nat)
| PanicMultipleInRegistry (targetType : rtype)
| PanicInjectTarget
| PanicInjectField (field : string) (fieldType : rtype) (structName : string)
| PanicTokenNilInterface
| PanicRuntime
| PanicFactory.

(** The failure taxonomy of the design (section 7), and where each panic
    falls in it. *)
Inductive failure :=
| InvalidRegistration | NotFound | AmbiguousRegistration
| InvalidTarget | UnresolvedField | RuntimeFault.

Definition classify (p : panic) : failure :=
  match p with
  | PanicNewScopedNil | PanicProvideNil | PanicFactoryNotFunc
  | PanicFactoryNumOut | PanicTokenNilInterface => InvalidRegistration
  | PanicNilToken | PanicNotFound _ => NotFound
  | PanicMultipleCandidates _ _ | PanicMultipleInRegistry _ =>
      AmbiguousRegistration
  | PanicInjectTarget => InvalidTarget
  | PanicInjectField _ _ _ => UnresolvedField
  | PanicRuntime | PanicFactory => RuntimeFault
  end.

(** A call returns a result and the store it leaves, or panics and leaves a
    store, or does not return within the recursion budget. *)
Inductive outcome (A : Type) :=
| Ret (a : A) (s : store)
| Panic (p : panic) (s : store)
| OutOfFuel.
Arguments Ret {A} a s.
Arguments Panic {A} p s.
Arguments OutOfFuel {A}.

Definition M (A : Type) : Type := store → outcome A.

Definition ret {A} (a : A) : M A := λ s, Ret a s.

Definition throw {A} (p : panic) : M A := λ s, Panic p s.

Definition bind {A B} (m : M A) (k : A → M B) : M B := λ s,
  match m s with
  | Ret a s' => k a s'
  | Panic p s' => Panic p s'
  | OutOfFuel => OutOfFuel
  end.

Notation "'let!' x ':=' m 'in' k" := (bind m (λ x, k))
  (at level 10, x name, m at level 100, k at level 200,
   format "'[v' 'let!'  x  ':='  m  'in'  '/' k ']'").
Notation "'run!' m 'in' k" := (bind m (λ _, k))
  (at level 10, m at level 100, k at level 200,
   format "'[v' 'run!'  m  'in'  '/' k ']'").

(** The store an outcome leaves; [s0] when the call did not return. *)
Definition storeOf {A} (s0 : store) (o : outcome A) : store :=
  match o with Ret _ s | Panic _ s => s | OutOfFuel => s0 end.

Definition mapStore {A} (f : store → store) (o : outcome A) : outcome A :=
  match o with
  | Ret a s => Ret a (f s)
  | Panic p s => Panic p (f s)
  | OutOfFuel => OutOfFuel
  end.

(** Allocation: the next address, and the counter moves on. *)
Definition allocKey (k : keyObj) : M nat := λ s,
  Ret (next s) (set_next (S (next s)) (set_keys (<[next s := k]> (keys s)) s)).

Definition allocEntry (e : entry) : M nat := λ s,
  Ret (next s)
      (set_next (S (next s)) (set_entries (<[next s := e]> (entries s)) s)).

Definition allocContainer (c : Container) : M nat := λ s,
  Ret (next s)
      (set_next (S (next s))
         (set_containers (<[next s := c]> (containers s)) s)).

Definition allocObject (v : val) : M nat := λ s,
  Ret (next s)
      (set_next (S (next s)) (set_objects (<[next s := v]> (objects s)) s)).

Definition warn (w : warning) : M unit := λ s,
  Ret tt (set_warnings (w :: warnings s) s).

(** Dereferencing a container address. Go has no dangling pointers; an
    address that names no container is treated as a nil dereference. *)
Definition getContainer (c : nat) : M Container := λ s,
  match containers s !! c with
  | Some C => Ret C s
  | None => Panic PanicRuntime s
  end.

Definition putContainer (c : nat) (C : Container) : M unit := λ s,
  Ret tt (set_containers (<[c := C]> (containers s)) s).

(** ** The operations *)

Section operations.
Context {env : Env}.

(** *** entry.go *)

(** One call of the factory of the entry at [l]: it is logged, and its
    outcome is the next one of the stream. *)
Definition callFactory (l : nat) (f : nat → option val) : M val := λ s,
  let s' := set_invocations (l :: invocations s) s in
  match f (count_occ Nat.eq_dec (invocations s) l) with
  | Some v => Ret v s'
  | None => Panic PanicFactory s'
  end.

Definition setEntry (l : nat) (e : entry) (s : store) : store :=
  set_entries (<[l := e]> (entries s)) s.

(** entry.resolve. sync.Once marks the entry done also when the factory
    panics; [e.value] then stays as it was. *)
Definition resolve (l : nat) : M val := λ s,
  match entries s !! l with
  | None => Panic PanicRuntime s
  | Some e =>
    match factory e with
    | None => Ret (value e) s
    | Some f =>
      match lifecycle e with
      | Prototype => callFactory l f s
      | Singleton =>
        if once e then Ret (value e) s
        else
          match callFactory l f s with
          | Ret v s' =>
              Ret v (setEntry l {| value := v; factory := factory e;
                                   depType := depType e;
                                   lifecycle := lifecycle e;
                                   once := true |} s')
          | Panic p s' =>
              Panic p (setEntry l {| value := value e; factory := factory e;
                                     depType := depType e;
                                     lifecycle := lifecycle e;
                                     once := true |} s')
          | OutOfFuel => OutOfFuel
          end
      end
    end
  end.

(** *** token.go *)

(** NewToken[T](name...). *)
Definition NewToken (T : rtype) (name : list string) : M nat :=
  let derived : M string :=
    match typeOfZero T with
    | None => throw PanicTokenNilInterface
    | Some typ =>
      let typ := if decide (KindOf typ = Ptr) then default typ (Elem typ)
                 else typ in
      let key := PkgPath typ +:+ "." +:+ Name typ in
      if decide (key = ".") then ret (TypeString typ) else ret key
    end in
  let! key := match name with
              | n0 :: _ => if decide (n0 ≠ "") then ret n0 else derived
              | [] => derived
              end in
  allocKey (KToken T key).

(** *** registration.go *)

(** Registration[T]; the type parameter is the one of the token. *)
Record Registration := {
  token : nat;
  regValue : val;
  regFactory : option (nat → option val);
  regLifecycle : Lifecycle;
}.

Definition Bind (token : nat) (value : val) : Registration :=
  {| token := token; regValue := value; regFactory := None;
     regLifecycle := Singleton |}.

(** The type parameter [T] of a [*Token[T]]. *)
Definition tokenType (tok : nat) : M rtype := λ s,
  match keys s !! tok with
  | Some (KToken T _) => Ret T s
  | _ => Panic PanicRuntime s
  end.

(** Registration.registerTo. *)
Definition registerTo (r : Registration) (c : nat) : M unit :=
  let! T := tokenType (token r) in
  let! C := getContainer c in
  let typ := typeOfZero T in
  let! e := allocEntry
    {| value := match regFactory r with Some _ => VNil | None => regValue r end;
       factory := regFactory r;
       depType := typ;
       lifecycle := regLifecycle r;
       once := false |} in
  let typeRegistry' :=
    match typ with
    | Some typ =>
        <[typ := default [] (typeRegistry C !! typ) ++ [e]]> (typeRegistry C)
    | None => typeRegistry C
    end in
  putContainer c {| registry := <[token r := e]> (registry C);
                    typeRegistry := typeRegistry';
                    parent := parent C |}.

(** *** container.go: construction and registration *)

Definition New : M nat :=
  allocContainer {| registry := ∅; typeRegistry := ∅; parent := None |}.

Definition NewScoped (parent : option nat) : M nat :=
  match parent with
  | None => throw PanicNewScopedNil
  | Some p =>
    run! getContainer p in
    allocContainer {| registry := ∅; typeRegistry := ∅; parent := Some p |}
  end.

(** Container.Provide. *)
Definition Provide (c : nat) (value : val) : M unit :=
  match TypeOf value with
  | None => throw PanicProvideNil
  | Some typ =>
    let! token := allocKey (KProvided ("__provided__" +:+ TypeString typ)) in
    let! e := allocEntry {| value := value; factory := None;
                            depType := Some typ; lifecycle := Singleton;
                            once := false |} in
    let! C := getContainer c in
    putContainer c
      {| registry := <[token := e]> (registry C);
         typeRegistry :=
           <[typ := default [] (typeRegistry C !! typ) ++ [e]]> (typeRegistry C);
         parent := parent C |}
  end.

(** Container.provideFactoryWithLifecycle. The stored factory calls the
    function with no arguments, which panics inside reflect when the
    function has parameters, and takes the first result. *)
Definition provideFactoryWithLifecycle (c : nat) (factory : val)
    (lifecycle : Lifecycle) : M unit :=
  match factory with
  | VNil => throw PanicRuntime
  | VFunc fnType numIn outs body =>
    if decide (KindOf fnType ≠ Func) then throw PanicFactoryNotFunc
    else
      match outs with
      | [returnType] =>
        let! token :=
          allocKey (KProvided ("__provided__" +:+ TypeString returnType)) in
        let! e := allocEntry
          {| value := VNil;
             factory := Some (λ n, if decide (numIn = 0)
                                   then body n ≫= head else None);
             depType := Some returnType; lifecycle := lifecycle;
             once := false |} in
        let! C := getContainer c in
        putContainer c
          {| registry := <[token := e]> (registry C);
             typeRegistry :=
               <[returnType :=
                   default [] (typeRegistry C !! returnType) ++ [e]]>
                 (typeRegistry C);
             parent := parent C |}
      | _ => throw PanicFactoryNumOut
      end
  | VPtr _ _ | VStruct _ _ | VData _ _ =>
    match TypeOf factory with
    | Some fnType =>
        if decide (KindOf fnType ≠ Func) then throw PanicFactoryNotFunc
        else throw PanicFactoryNumOut
    | None => throw PanicRuntime
    end
  end.

Definition ProvideFactory (c : nat) (factory : val) : M unit :=
  provideFactoryWithLifecycle c factory Singleton.

Definition ProvidePrototype (c : nat) (factory : val) : M unit :=
  provideFactoryWithLifecycle c factory Prototype.

(** Container.Register: the loop over the registrations. *)
Fixpoint Register (c : nat) (registrations : list Registration) : M unit :=
  match registrations with
  | [] => ret tt
  | reg :: rest => run! registerTo reg c in Register c rest
  end.

(** Container.Clear. *)
Definition Clear (c : nat) : M unit :=
  let! C := getContainer c in
  putContainer c {| registry := ∅; typeRegistry := ∅; parent := parent C |}.

(** Container.Parent. *)
Definition Parent (c : nat) : M (option nat) :=
  let! C := getContainer c in ret (parent C).

(** *** container.go: resolution by handle *)

(** Container.getEntry. The recursion follows the parent links; [fuel]
    bounds its depth, and a parent is allocated before its child, so
    [S c] is enough for the container at [c]. *)
Fixpoint getEntry (fuel : nat) (c : nat) (token : nat) : M (option nat) :=
  match fuel with
  | 0 => λ _, OutOfFuel
  | S fuel' =>
    let! C := getContainer c in
    match registry C !! token with
    | Some e => ret (Some e)
    | None =>
      match parent C with
      | Some p => getEntry fuel' p token
      | None => ret None
      end
    end
  end.

(** Container.Get. *)
Definition Get (c : nat) (token : option nat) : M val :=
  match token with
  | None => throw PanicNilToken
  | Some tok =>
    let! r := getEntry (S c) c tok in
    match r with
    | None => throw (PanicNotFound tok)
    | Some e => resolve e
    end
  end.

(** Type.AssignableTo in this universe of types: identical types, or an
    interface that the value's type implements. *)
Definition AssignableTo (valType targetType : rtype) : bool :=
  bool_decide (valType = targetType)
  || (bool_decide (KindOf targetType = Interface)
      && implements valType targetType).

(** The type assertion [v.(T)]. *)
Definition typeAssert (T : rtype) (v : val) : M val :=
  match TypeOf v with
  | Some vt => if AssignableTo vt T then ret v else throw PanicRuntime
  | None => throw PanicRuntime
  end.

(** The package-level Find[T], with its container given. *)
Definition Find (tok : nat) (c : nat) : M (option val) :=
  let! r := getEntry (S c) c tok in
  match r with
  | None => ret None
  | Some e =>
    let! v := resolve e in
    let! T := tokenType tok in
    let! v := typeAssert T v in
    ret (Some v)
  end.

(** *** container.go: the type matcher *)

Definition isExactMatch (targetType valType : rtype) : bool :=
  if decide (KindOf targetType = Interface)
  then implements valType targetType
  else AssignableTo valType targetType.

Definition isSimilarType (targetType valType : rtype) : bool :=
  if decide (targetType = valType) then false
  else if decide (KindOf targetType = Ptr ∧ KindOf valType ≠ Ptr)
  then bool_decide (Elem targetType = Some valType)
  else if decide (KindOf targetType ≠ Ptr ∧ KindOf valType = Ptr)
  then bool_decide (Elem valType = Some targetType)
  else false.

(** The body of resolveAndConvert after [reflect.ValueOf(resolved)]. *)
Definition convert (targetType : rtype) (resolvedVal : Value)
    : M (option val) :=
  match TypeOf (rv_val resolvedVal) with
  | None => throw PanicRuntime
  | Some resolvedType =>
    if decide (resolvedType = targetType) then ret (Some (rv_val resolvedVal))
    else if decide (KindOf targetType = Ptr ∧ KindOf resolvedType ≠ Ptr) then
      if decide (Elem targetType ≠ Some resolvedType) then
        run! warn (WarnMismatch resolvedType targetType) in ret None
      else if CanAddr resolvedVal then
        ret (Some (VPtr resolvedType (rv_addr resolvedVal)))
      else
        let! ptr := allocObject (rv_val resolvedVal) in
        ret (Some (VPtr resolvedType (Some ptr)))
    else if decide (KindOf targetType ≠ Ptr ∧ KindOf resolvedType = Ptr) then
      if decide (Elem resolvedType ≠ Some targetType) then
        run! warn (WarnMismatch resolvedType targetType) in ret None
      else
        match rv_val resolvedVal with
        | VPtr _ (Some p) => λ s,
            match objects s !! p with
            | Some v => Ret (Some v) s
            | None => Panic PanicRuntime s
            end
        | VPtr _ None => ret None
        | _ => throw PanicRuntime
        end
    else ret (Some (rv_val resolvedVal))
  end.

(** Container.resolveAndConvert. *)
Definition resolveAndConvert (targetType : rtype) (e : nat)
    (needsConversion : bool) : M (option val) :=
  let! resolved := resolve e in
  if negb needsConversion then ret (Some resolved)
  else convert targetType (ValueOf resolved).

(** *** container.go: resolution by type *)

(** The loop of findSingleEntry over the registry, in the order [items].
    An entry whose depType is nil makes the method call on it a nil
    dereference. *)
Fixpoint scan (ents : gmap nat entry) (targetType : rtype)
    (items : list (nat * nat)) (exactMatch similarMatch : option nat)
    : panic + (option nat * option nat) :=
  match items with
  | [] => inr (exactMatch, similarMatch)
  | (_, e) :: rest =>
    match ents !! e ≫= depType with
    | None => inl PanicRuntime
    | Some valType =>
      if isExactMatch targetType valType then
        match exactMatch with
        | Some _ => inl (PanicMultipleInRegistry targetType)
        | None => scan ents targetType rest (Some e) similarMatch
        end
      else if bool_decide (similarMatch = None)
              && isSimilarType targetType valType
      then scan ents targetType rest exactMatch (Some e)
      else scan ents targetType rest exactMatch similarMatch
    end
  end.

(** Container.findSingleEntry; [fuel] as for getEntry. *)
Fixpoint findSingleEntry (fuel : nat) (c : nat) (targetType : rtype)
    : M (option val) :=
  match fuel with
  | 0 => λ _, OutOfFuel
  | S fuel' =>
    let! C := getContainer c in
    let! found := λ s,
      match scan (entries s) targetType (rangeOrder (registry C)) None None
      with
      | inl p => Panic p s
      | inr r => Ret r s
      end in
    match found.1 with
    | Some exactMatch => let! v := resolve exactMatch in ret (Some v)
    | None =>
      let! up :=
        match parent C with
        | Some p => findSingleEntry fuel' p targetType
        | None => ret None
        end in
      match up with
      | Some v => ret (Some v)
      | None =>
        match found.2 with
        | Some similarMatch =>
          run! warn (WarnSimilar targetType) in
          resolveAndConvert targetType similarMatch true
        | None => ret None
        end
      end
    end
  end.

(** Container.Resolve. *)
Definition Resolve (c : nat) (targetType : rtype) : M (option val) :=
  let! C := getContainer c in
  match typeRegistry C !! targetType with
  | Some (e0 :: rest) =>
    if decide (1 < length (e0 :: rest))
    then throw (PanicMultipleCandidates targetType (length (e0 :: rest)))
    else let! v := resolve e0 in ret (Some v)
  | _ => findSingleEntry (S c) c targetType
  end.

(** *** container.go: Inject *)

Definition assignField (name : string) (v : val) (fs : list (string * val))
    : list (string * val) :=
  (name, v) :: List.filter (λ nv, negb (String.eqb nv.1 name)) fs.

(** [fieldValue.Set(x)] on the field [name] of the struct at [l]: reflect
    panics on the zero Value and on a value that is not assignable. *)
Definition setField (l : nat) (name : string) (fieldType : rtype) (v : val)
    : M unit := λ s,
  match TypeOf v with
  | None => Panic PanicRuntime s
  | Some vt =>
    if AssignableTo vt fieldType then
      match objects s !! l with
      | Some (VStruct t fs) =>
          Ret tt (set_objects
                    (<[l := VStruct t (assignField name v fs)]> (objects s)) s)
      | _ => Panic PanicRuntime s
      end
    else Panic PanicRuntime s
  end.

Definition loadObject (l : nat) : M val := λ s,
  match objects s !! l with
  | Some v => Ret v s
  | None => Panic PanicRuntime s
  end.

(** One round of the loop of Inject, for the struct at [p]. *)
Definition injectField (inject : val → M unit) (c : nat) (structType : rtype)
    (p : option nat) (field : StructField) : M unit :=
  match p with
  | None => throw PanicRuntime
  | Some l =>
    if negb (Exported field) then ret tt
    else
      let! r := Resolve c (FieldType field) in
      match r with
      | Some v => setField l (FieldName field) (FieldType field) v
      | None =>
        if decide (KindOf (FieldType field) = Struct) then
          let! q := allocObject (VStruct (FieldType field) []) in
          run! inject (VPtr (FieldType field) (Some q)) in
          let! nv := loadObject q in
          setField l (FieldName field) (FieldType field) nv
        else
          throw (PanicInjectField (FieldName field) (FieldType field)
                                  (Name structType))
      end
  end.

Fixpoint forEach {A} (f : A → M unit) (l : list A) : M unit :=
  match l with
  | [] => ret tt
  | x :: rest => run! f x in forEach f rest
  end.

(** Container.Inject. The recursion into struct-typed fields has no bound
    in the source; [fuel] bounds its depth here. *)
Fixpoint Inject (fuel : nat) (c : nat) (target : val) : M unit :=
  match fuel with
  | 0 => λ _, OutOfFuel
  | S fuel' =>
    match target with
    | VNil => throw PanicRuntime
    | VPtr targetType p =>
      if decide (KindOf targetType ≠ Struct) then throw PanicInjectTarget
      else forEach (injectField (Inject fuel' c) c targetType p)
                   (fieldsOf targetType)
    | VStruct _ _ | VData _ _ | VFunc _ _ _ _ => throw PanicInjectTarget
    end
  end.

(** *** Programs: sequences of calls *)

Inductive op :=
| OpNew
| OpNewScoped (parent : option nat)
| OpNewToken (T : rtype) (name : list string)
| OpProvide (c : nat) (v : val)
| OpProvideFactory (c : nat) (f : val)
| OpProvidePrototype (c : nat) (f : val)
| OpRegister (c : nat) (rs : list Registration)
| OpGet (c : nat) (tok : option nat)
| OpFind (tok : nat) (c : nat)
| OpResolve (c : nat) (T : rtype)
| OpInject (fuel : nat) (c : nat) (target : val)
| OpClear (c : nat).

(** The store a call leaves, whether it returned or panicked. *)
Definition exec (o : op) (s : store) : store :=
  match o with
  | OpNew => storeOf s (New s)
  | OpNewScoped p => storeOf s (NewScoped p s)
  | OpNewToken T name => storeOf s (NewToken T name s)
  | OpProvide c v => storeOf s (Provide c v s)
  | OpProvideFactory c f => storeOf s (ProvideFactory c f s)
  | OpProvidePrototype c f => storeOf s (ProvidePrototype c f s)
  | OpRegister c rs => storeOf s (Register c rs s)
  | OpGet c tok => storeOf s (Get c tok s)
  | OpFind tok c => storeOf s (Find tok c s)
  | OpResolve c T => storeOf s (Resolve c T s)
  | OpInject fuel c target => storeOf s (Inject fuel c target s)
  | OpClear c => storeOf s (Clear c s)
  end.

Definition execs (ops : list op) (s : store) : store :=
  foldl (λ s o, exec o s) s ops.

(** [n] calls of resolve on the entry at [l], one after the other, a
    panicking call included: what each call returned ([None] for a panic)
    and the store after the last. *)
Fixpoint resolveTimes (n : nat) (l : nat) (s : store)
    : list (option val) * store :=
  match n with
  | 0 => ([], s)
  | S n' =>
    match resolve l s with
    | Ret v s' => let '(rs, s'') := resolveTimes n' l s' in (Some v :: rs, s'')
    | Panic _ s' => let '(rs, s'') := resolveTimes n' l s' in (None :: rs, s'')
    | OutOfFuel => ([], s)
    end
  end.

End operations.

(** ** Predicates on stores *)

Section predicates.
Context {env : Env}.

(** The declared type of the entry at [e], when it has one. *)
Definition entryType (s : store) (e : nat) : option rtype :=
  entries s !! e ≫= depType.

(** The type index of a container at a type: Go's [c.typeRegistry[T]],
    the empty slice for a missing key. *)
Definition indexOf (C : Container) (T : rtype) : list nat :=
  default [] (typeRegistry C !! T).

(** Whether the entry at [e] matches [T] exactly, and whether it matches
    only up to pointer shape: the two tests of the loop of findSingleEntry
    on an entry with a declared type. *)
Definition isExactEntry (ents : gmap nat entry) (T : rtype) (e : nat) : bool :=
  match ents !! e ≫= depType with
  | Some vt => isExactMatch T vt
  | None => false
  end.

Definition isSimilarEntry (ents : gmap nat entry) (T : rtype) (e : nat) : bool :=
  match ents !! e ≫= depType with
  | Some vt => negb (isExactMatch T vt) && isSimilarType T vt
  | None => false
  end.

(** The entries of a container's handle map that match a type exactly,
    and those that match it only up to pointer shape, in iteration order. *)
Definition exactMatches (s : store) (C : Container) (T : rtype) : list nat :=
  List.filter (isExactEntry (entries s) T) (rangeOrder (registry C)).*2.

Definition similarMatches (s : store) (C : Container) (T : rtype) : list nat :=
  List.filter (isSimilarEntry (entries s) T) (rangeOrder (registry C)).*2.

(** Every entry of the handle map carries a declared type. *)
Definition typedRegistry (s : store) (C : Container) : Prop :=
  ∀ h e, registry C !! h = Some e → is_Some (entryType s e).

Definition typedRegistryb (s : store) (C : Container) : bool :=
  bool_decide (map_Forall (λ _ e, is_Some (entryType s e)) (registry C)).

(** The index invariant as the design states it: every entry of the handle
    map has a declared type and is listed under it. *)
Definition indexedAsStated (s : store) : Prop :=
  ∀ c C h e, containers s !! c = Some C → registry C !! h = Some e →
    ∃ T, entryType s e = Some T ∧ e ∈ indexOf C T.

(** The index invariant of the code: every entry of the handle map that
    has a declared type is listed under it. *)
Definition indexed (s : store) : Prop :=
  ∀ c C h e T, containers s !! c = Some C → registry C !! h = Some e →
    entryType s e = Some T → e ∈ indexOf C T.

(** Registration order: entries are allocated when they are registered, so
    a list in registration order is a list of increasing addresses. *)
Definition inRegistrationOrder (s : store) : Prop :=
  ∀ c C T, containers s !! c = Some C → StronglySorted lt (indexOf C T).

(** Which entries have a declared type: one registered without a token
    always, one registered under a [*Token[T]] exactly when [T] is not an
    interface type, and then it is [T]. *)
Definition declaredByKey (s : store) : Prop :=
  ∀ c C h e, containers s !! c = Some C → registry C !! h = Some e →
    match keys s !! h with
    | Some (KToken T _) => entryType s e = typeOfZero T
    | Some (KProvided _) => is_Some (entryType s e)
    | None => False
    end.

(** The invariants of every store a program can reach. *)
Record wf (s : store) : Prop := {
  wf_containers : ∀ c C, containers s !! c = Some C →
    c < next s ∧ ∀ p, parent C = Some p → p < c ∧ is_Some (containers s !! p);
  wf_registry : ∀ c C h e, containers s !! c = Some C →
    registry C !! h = Some e → h < next s ∧ e < next s;
  wf_index : ∀ c C T e, containers s !! c = Some C →
    e ∈ indexOf C T → e < next s;
  wf_entries : ∀ e, is_Some (entries s !! e) → e < next s;
  wf_keys : ∀ k, is_Some (keys s !! k) → k < next s;
  wf_indexed : indexed s;
  wf_sorted : inRegistrationOrder s;
  wf_declared : declaredByKey s;
}.

(** [s'] extends [s]: no address is given out twice, and the entries of
    [s] are still there with the declared type they had. *)
Definition extends (s s' : store) : Prop :=
  next s ≤ next s' ∧
  ∀ l E, entries s !! l = Some E →
    ∃ E', entries s' !! l = Some E' ∧ depType E' = depType E.

(** What a resolution may change: it allocates, and it may fill in the
    value of entries; containers, keys and declared types stay. *)
Definition frame (s s' : store) : Prop :=
  next s ≤ next s' ∧ containers s' = containers s ∧ keys s' = keys s ∧
  ∀ l, depType <$> entries s' !! l = depType <$> entries s !! l.

Definition framed {A} (s : store) (o : outcome A) : Prop :=
  match o with
  | Ret _ s' | Panic _ s' => frame s s'
  | OutOfFuel => True
  end.

(** The container after an entry was put under a handle and, when it has a
    declared type, appended to the index of that type. *)
Definition withEntry (C : Container) (h e : nat) (typ : option rtype)
    : Container :=
  {| registry := <[h := e]> (registry C);
     typeRegistry :=
       match typ with
       | Some typ => <[typ := indexOf C typ ++ [e]]> (typeRegistry C)
       | None => typeRegistry C
       end;
     parent := parent C |}.

(** The recursive call of findSingleEntry. *)
Definition searchUp (fuel : nat) (p : option nat) (T : rtype) : M (option val) :=
  match p with
  | Some p => findSingleEntry fuel p T
  | None => ret None
  end.

(** The search the parent chain is asked for; a root has nobody to ask. *)
Definition parentSearch (s : store) (C : Container) (T : rtype)
    : outcome (option val) :=
  match parent C with
  | Some p => findSingleEntry (S p) p T s
  | None => Ret None s
  end.

(** The store after a warning was logged. *)
Definition warned (w : warning) (s : store) : store :=
  set_warnings (w :: warnings s) s.

(** The key NewToken gives a token: the name, or one derived from [T]. *)
Definition tokenKeyFor (T : rtype) (name : list string) : option string :=
  let derived :=
    typ ← typeOfZero T;
    let typ := if decide (KindOf typ = Ptr) then default typ (Elem typ)
               else typ in
    let key := PkgPath typ +:+ "." +:+ Name typ in
    Some (if decide (key = ".") then TypeString typ else key) in
  match name with
  | n0 :: _ => if decide (n0 ≠ "") then Some n0 else derived
  | [] => derived
  end.

End predicates.

(** ** The types and scenarios of the repository's tests *)

Definition testPkg : string := "github.com/overdevelop/dshot_test".

Definition tString : rtype := Named String "" "string" "string".

Definition tService : rtype :=
  Named Struct testPkg "Service" "dshot_test.Service".

Definition tDatabase : rtype :=
  Named Struct testPkg "Database" "dshot_test.Database".

Definition tRepository : rtype :=
  Named Struct testPkg "Repository" "dshot_test.Repository".

Definition tStringer : rtype := Named Interface "fmt" "Stringer" "fmt.Stringer".

Definition tServiceFactory : rtype :=
  Named Func "" "" "func() dshot_test.Service".

(** [Service] implements [fmt.Stringer]; struct fields as the tests declare
    them; maps are visited in the order of their keys. *)
Definition testEnv : Env :=
  {| implements := λ v t, bool_decide (v = tService ∧ t = tStringer);
     fieldsOf := λ t,
       if decide (t = tRepository)
       then [ {| FieldName := "DB"; FieldType := PtrTo tDatabase;
                 Exported := true |} ]
       else if decide (t = tDatabase)
       then [ {| FieldName := "ConnectionString"; FieldType := tString;
                 Exported := true |} ]
       else if decide (t = tService)
       then [ {| FieldName := "Name"; FieldType := tString;
                 Exported := true |} ]
       else [];
     rangeOrder := map_to_list;
     rangeOrder_perm := λ m, Permutation_refl (map_to_list m) |}.

(** [Database{ConnectionString: conn}] and [Service{Name: name}], strings
    by number. *)
Definition database (conn : Z) : val :=
  VStruct tDatabase [("ConnectionString", VData tString conn)].

Definition service (name : Z) : val :=
  VStruct tService [("Name", VData tString name)].

(** A factory whose n-th call returns [Service{Name: n}]. *)
Definition serviceFactory : val :=
  VFunc tServiceFactory 0 [tService] (λ n, Some [service (Z.of_nat n)]).

Definition noContainer : Container :=
  {| registry := ∅; typeRegistry := ∅; parent := None |}.

Definition noEntry : entry :=
  {| value := VNil; factory := None; depType := None; lifecycle := Singleton;
     once := false |}.

Definition containerAt (s : store) (c : nat) : Container :=
  default noContainer (containers s !! c).

Definition entryAt (s : store) (e : nat) : entry :=
  default noEntry (entries s !! e).

(** What a call returned, and what it panicked with. *)
Definition resultOf {A} (o : outcome A) : option A :=
  match o with Ret a _ => Some a | _ => None end.

Definition panicOf {A} (o : outcome A) : option panic :=
  match o with Panic p _ => Some p | _ => None end.

(** A root with a Database value, and a scope of it with another. *)
Definition priorityStore : store :=
  execs (env := testEnv)
    [OpNew; OpProvide 0 (database 1); OpNewScoped (Some 0);
     OpProvide 3 (database 2)] emptyStore.

(** TestMultipleRegistrations: two tokens of one type. *)
Definition ambiguousStore : store :=
  execs (env := testEnv)
    [OpNew; OpNewToken tService ["service1"]; OpNewToken tService ["service2"];
     OpRegister 0 [Bind 1 (service 1); Bind 2 (service 2)]] emptyStore.

(** TestEntry_Resolve_Singleton and TestEntry_Resolve_Prototype. *)
Definition singletonStore : store :=
  execs (env := testEnv) [OpNew; OpProvideFactory 0 serviceFactory] emptyStore.

Definition prototypeStore : store :=
  execs (env := testEnv) [OpNew; OpProvidePrototype 0 serviceFactory]
    emptyStore.

(** A root holding a bare Database, and a [&Repository{}] at address 3. *)
Definition injectStore : store :=
  let s := execs (env := testEnv) [OpNew; OpProvide 0 (database 1)]
             emptyStore in
  storeOf s (allocObject (VStruct tRepository []) s).

(** A root holding a nil [*Service]. *)
Definition nilStore : store :=
  execs (env := testEnv) [OpNew; OpProvide 0 (VPtr tService None)] emptyStore.

(** TestClear_DoesNotAffectParent. *)
Definition clearStore : store :=
  execs (env := testEnv)
    [OpNew; OpProvide 0 (service 1); OpNewScoped (Some 0);
     OpProvide 3 (database 2)] emptyStore.

(** A root in which a Service is registered under a [*Token[fmt.Stringer]]. *)
Definition interfaceStore : store :=
  execs (env := testEnv)
    [OpNew; OpNewToken tStringer ["stringer"]; OpRegister 0 [Bind 1 (service 1)]]
    emptyStore.

(** ** More of the package: ResolveAll, the generic wrappers, auto-wired
    parameters, containers in a context *)

Section more_operations.
Context {env : Env}.

(** *** container.go: ResolveAll *)

(** The first loop of ResolveAll, over the entries of the type index.
    [seen] is the map of entries already collected. *)
Fixpoint collectIndexed (typeEntries : list nat) (seen : gset nat)
    (results : list val) : M (gset nat * list val) :=
  match typeEntries with
  | [] => ret (seen, results)
  | e :: rest =>
    if decide (e ∈ seen) then collectIndexed rest seen results
    else
      let! v := resolve e in
      collectIndexed rest ({[e]} ∪ seen) (results ++ [v])
  end.

(** The declared type of the entry at [e], as the loops read it: a nil
    depType makes the method call on it a nil dereference. *)
Definition declaredType (e : nat) : M rtype := λ s,
  match entries s !! e ≫= depType with
  | Some t => Ret t s
  | None => Panic PanicRuntime s
  end.

(** The loop of collectEntriesDirectly over the registry, in the order
    [items]. *)
Fixpoint collectScan (targetType : rtype) (items : list (nat * nat))
    (seen : gset nat) (results : list val) (similarEntries : list nat)
    (hasExactMatch : bool) : M (gset nat * list val * list nat * bool) :=
  match items with
  | [] => ret (seen, results, similarEntries, hasExactMatch)
  | (_, e) :: rest =>
    if decide (e ∈ seen)
    then collectScan targetType rest seen results similarEntries hasExactMatch
    else
      let! valType := declaredType e in
      if isExactMatch targetType valType then
        let! v := resolve e in
        collectScan targetType rest ({[e]} ∪ seen) (results ++ [v])
          similarEntries true
      else if isSimilarType targetType valType then
        collectScan targetType rest ({[e]} ∪ seen) results
          (similarEntries ++ [e]) hasExactMatch
      else
        collectScan targetType rest seen results similarEntries hasExactMatch
  end.

(** The last loop of collectEntriesDirectly: the similar entries, coerced;
    one that coerces to nothing is left out. *)
Fixpoint convertSimilar (targetType : rtype) (similarEntries : list nat)
    (results : list val) : M (list val) :=
  match similarEntries with
  | [] => ret results
  | e :: rest =>
    let! r := resolveAndConvert targetType e true in
    convertSimilar targetType rest
      (match r with Some resolved => results ++ [resolved] | None => results end)
  end.

(** Container.collectEntriesDirectly; [fuel] as for getEntry. The warning
    carries the target type; the number of similar entries that the
    message also prints is not recorded. *)
Fixpoint collectEntriesDirectly (fuel : nat) (c : nat) (targetType : rtype)
    (seen : gset nat) (results : list val) : M (gset nat * list val) :=
  match fuel with
  | 0 => λ _, OutOfFuel
  | S fuel' =>
    let! C := getContainer c in
    let! scanned :=
      collectScan targetType (rangeOrder (registry C)) seen results [] false in
    let similarEntries := scanned.1.2 in
    let hasExactMatch := scanned.2 in
    let! up :=
      match parent C with
      | Some p =>
          collectEntriesDirectly fuel' p targetType scanned.1.1.1 scanned.1.1.2
      | None => ret (scanned.1.1.1, scanned.1.1.2)
      end in
    if negb hasExactMatch && bool_decide (0 < length similarEntries) then
      run! warn (WarnSimilar targetType) in
      let! results' := convertSimilar targetType similarEntries up.2 in
      ret (up.1, results')
    else ret up
  end.

(** Container.ResolveAll. *)
Definition ResolveAll (c : nat) (targetType : rtype) : M (list val) :=
  let! C := getContainer c in
  let! indexed :=
    match typeRegistry C !! targetType with
    | Some typeEntries => collectIndexed typeEntries ∅ []
    | None => ret (∅, [])
    end in
  let! all := collectEntriesDirectly (S c) c targetType indexed.1 indexed.2 in
  ret all.2.

(** *** token.go: Token.String *)

Definition TokenString (tok : nat) : M string := λ s,
  match keys s !! tok with
  | Some (KToken _ key) => Ret key s
  | _ => Panic PanicRuntime s
  end.

(** *** The package-level generic functions, [defaultContainer] given *)

(** [c := defaultContainer; if len(containers) > 0 && containers[0] != nil
    { c = containers[0] }]. *)
Definition pickContainer (defaultContainer : nat)
    (containers : list (option nat)) : nat :=
  match containers with
  | Some c :: _ => c
  | _ => defaultContainer
  end.

(** Resolve[T]. *)
Definition ResolveT (defaultContainer : nat) (T : rtype)
    (containers : list (option nat)) : M (option val) :=
  let c := pickContainer defaultContainer containers in
  match typeOfZero T with
  | None => ret None
  | Some targetType =>
    let! r := Resolve c targetType in
    match r with
    | None => ret None
    | Some v => let! v := typeAssert T v in ret (Some v)
    end
  end.

(** The loop of ResolveAll[T] that asserts every result to [T]. *)
Fixpoint assertAll (T : rtype) (results : list val) : M (list val) :=
  match results with
  | [] => ret []
  | v :: rest =>
    let! v := typeAssert T v in
    let! rest := assertAll T rest in
    ret (v :: rest)
  end.

(** ResolveAll[T]: the target type is [reflect.TypeFor[T]()], which is [T]
    also for an interface type. *)
Definition ResolveAllT (defaultContainer : nat) (T : rtype)
    (containers : list (option nat)) : M (list val) :=
  let c := pickContainer defaultContainer containers in
  let! results := ResolveAll c T in
  assertAll T results.

(** *** Auto-wiring: resolveParameter *)

Definition primitiveKinds : list Kind :=
  [Bool; Int; Int8; Int16; Int32; Int64;
   Uint; Uint8; Uint16; Uint32; Uint64;
   Float32; Float64; String; Slice; Map; Chan].

Definition isPrimitive (kind : Kind) : bool :=
  bool_decide (kind ∈ primitiveKinds).

(** The two errors of resolveParameter. *)
Inductive paramError :=
| ErrPrimitive (paramType : rtype)
| ErrNoRegistration (paramType : rtype).

(** resolveParameter; [fuel] is the one of Inject. The struct built for a
    lone struct parameter is returned as [argValue.Elem()]: the struct in
    its slot, addressable. *)
Definition resolveParameter (fuel : nat) (c : nat) (paramType : rtype)
    (numIn : nat) : M (paramError + Value) :=
  let isPtr := bool_decide (KindOf paramType = Ptr) in
  let searchType :=
    if isPtr then default paramType (Elem paramType) else paramType in
  if isPrimitive (KindOf searchType) then ret (inl (ErrPrimitive paramType))
  else
    let! r := Resolve c paramType in
    match r with
    | Some v => ret (inr (ValueOf v))
    | None =>
      if decide (numIn = 1 ∧ KindOf searchType = Struct) then
        let! q := allocObject (VStruct searchType []) in
        run! Inject fuel c (VPtr searchType (Some q)) in
        let! v := loadObject q in
        ret (inr {| rv_val := v; rv_addr := Some q |})
      else ret (inl (ErrNoRegistration paramType))
    end.

End more_operations.

(** *** context.go *)

(** A context is the chain of its WithValue layers ([valueCtx] in package
    context), innermost first. The key [containerCtxKey{}] belongs to this
    package; a value stored under it is a [*Container], possibly nil. *)
Inductive ctxKey := ContainerCtxKey | OtherCtxKey (k : nat).

Inductive ctxValue := CtxContainer (c : option nat) | CtxOther (v : val).

#[global] Instance ctxKey_eq_dec : EqDecision ctxKey.
Proof. solve_decision. Defined.

Definition valueCtx : Type := list (ctxKey * ctxValue).

(** Context.Value: the value of the innermost layer with that key. *)
Fixpoint ctxLookup (ctx : valueCtx) (key : ctxKey) : option ctxValue :=
  match ctx with
  | [] => None
  | (k, v) :: parent =>
      if decide (k = key) then Some v else ctxLookup parent key
  end.

Definition WithValue (ctx : valueCtx) (key : ctxKey) (v : ctxValue)
    : valueCtx :=
  (key, v) :: ctx.

Definition WithContainer (ctx : valueCtx) (c : option nat) : valueCtx :=
  WithValue ctx ContainerCtxKey (CtxContainer c).

(** FromContext: the type assertion to [*Container] succeeds on a nil
    [*Container] too, which is then what is returned. *)
Definition FromContext (defaultContainer : nat) (ctx : valueCtx)
    : option nat :=
  match ctxLookup ctx ContainerCtxKey with
  | Some (CtxContainer c) => c
  | _ => Some defaultContainer
  end.

(** ResolveCtx[T]. The container is looked up after the nil check on the
    type; a nil container makes the method call dereference nil. *)
Definition ResolveCtx {env : Env} (defaultContainer : nat) (T : rtype)
    (ctx : valueCtx) : M (option val) :=
  match typeOfZero T with
  | None => ret None
  | Some targetType =>
    match FromContext defaultContainer ctx with
    | None => throw PanicRuntime
    | Some c =>
      let! r := Resolve c targetType in
      match r with
      | None => ret None
      | Some v => let! v := typeAssert T v in ret (Some v)
      end
    end
  end.

(** *** Predicates of the further properties *)

(** What a call adds to the log of factory calls: [P] holds of the result
    and the calls made when it returns, [Q] of the calls made when it
    panics. *)
Definition calls {A} (s : store) (o : outcome A)
    (P : A → list nat → Prop) (Q : list nat → Prop) : Prop :=
  match o with
  | Ret a s' => ∃ L, invocations s' = L ++ invocations s ∧ P a L
  | Panic _ s' => ∃ L, invocations s' = L ++ invocations s ∧ Q L
  | OutOfFuel => True
  end.

(** Calls of entries that were not seen before, each at most once. *)
Definition freshCalls (seen : gset nat) (L : list nat) : Prop :=
  NoDup L ∧ ∀ l, l ∈ L → l ∉ seen.

Definition atMostOne (l : nat) (L : list nat) : Prop := L = [] ∨ L = [l].

(** The entry at [e] is a value entry: it has no factory. *)
Definition valueEntry (s : store) (e : nat) : Prop :=
  ∃ E, entries s !! e = Some E ∧ factory E = None.

(** [c'] is [c] or one of its ancestors. *)
Inductive inScope (s : store) : nat → nat → Prop :=
| inScope_self c : inScope s c c
| inScope_parent c C p c' :
    containers s !! c = Some C → parent C = Some p → inScope s p c' →
    inScope s c c'.

(** The value entries of [s] are in [s'] as they were. *)
Definition keeps (s s' : store) : Prop :=
  ∀ e E, entries s !! e = Some E → factory E = None → entries s' !! e = Some E.

(** A value entry whose declared type matches [T] exactly. *)
Definition exactValue {env : Env} (s : store) (T : rtype) (e : nat) (v : val)
    : Prop :=
  ∃ E vt, entries s !! e = Some E ∧ factory E = None ∧ value E = v ∧
          depType E = Some vt ∧ isExactMatch T vt = true.

(** Every such entry among the seen ones has its value in the results. *)
Definition collected {env : Env} (s : store) (T : rtype) (seen : gset nat)
    (res : list val) : Prop :=
  ∀ e v, e ∈ seen → exactValue s T e v → v ∈ res.

(** The entries the scan sets aside as similar: new ones, none resolved. *)
Definition setAside (seen seen' : gset nat) (L sim0 sim' : list nat) : Prop :=
  ∃ new, sim' = sim0 ++ new ∧ NoDup new ∧
    ∀ l, l ∈ new → (l ∉ seen) ∧ l ∈ seen' ∧ (l ∉ L).

(** *** Scenarios for the auto-wiring and the nested injection *)

(** Go's [struct{}], and a struct with one exported field of that type. *)
Definition tSignal : rtype := Named Struct "" "" "struct {}".

Definition tWorker : rtype := Named Struct testPkg "Worker" "dshot_test.Worker".

Definition workerEnv : Env :=
  {| implements := implements (Env := testEnv);
     fieldsOf := λ t,
       if decide (t = tWorker)
       then [ {| FieldName := "Done"; FieldType := tSignal;
                 Exported := true |} ]
       else fieldsOf (Env := testEnv) t;
     rangeOrder := map_to_list;
     rangeOrder_perm := λ m, Permutation_refl (map_to_list m) |}.


(** A fresh root. *)
Definition rootStore : store := execs (env := testEnv) [OpNew] emptyStore.

(** A root with one token of type Service. *)
Definition tokenStore : store :=
  execs (env := testEnv) [OpNew; OpNewToken tService ["svc"]] emptyStore.

(** TestInject before the Provide: a fresh root and a [&Repository{}] at
    address 1. *)
Definition targetStore : store :=
  storeOf rootStore (allocObject (VStruct tRepository []) rootStore).

(** A fresh root and a [&Worker{}] at address 1. *)
Definition workerStore : store :=
  storeOf rootStore (allocObject (VStruct tWorker []) rootStore).

(** A context with one value under a key of another package. *)
Definition otherLayers : valueCtx :=
  [(OtherCtxKey 0, CtxOther (VData tString 0))].

(** ** Properties *)

Section theorems.
Context {env : Env}.

(** *** What resolutions leave unchanged *)

Lemma wf_parent_lt s c C p :
  wf s → containers s !! c = Some C → parent C = Some p → p < c.
Proof. intros Hwf HC Hp. by destruct (wf_containers _ Hwf _ _ HC) as [_ [? ?]%(λ f, f p Hp)]. Qed.

Lemma wf_parent_alloc s c C p :
  wf s → containers s !! c = Some C → parent C = Some p →
  is_Some (containers s !! p).
Proof. intros Hwf HC Hp. by destruct (wf_containers _ Hwf _ _ HC) as [_ [? ?]%(λ f, f p Hp)]. Qed.

Lemma frame_refl s : frame s s.
Proof. by repeat split. Qed.

Lemma frame_trans s1 s2 s3 : frame s1 s2 → frame s2 s3 → frame s1 s3.
Proof.
  intros (Hn & Hc & Hk & He) (Hn' & Hc' & Hk' & He').
  repeat split; [lia | congruence | congruence |].
  intros l. by rewrite He', He.
Qed.

Lemma frame_entryType s s' l : frame s s' → entryType s' l = entryType s l.
Proof.
  intros (_ & _ & _ & He). specialize (He l). unfold entryType.
  destruct (entries s' !! l), (entries s !! l); simpl in *; congruence.
Qed.

Lemma framed_bind {A B} (m : M A) (k : A → M B) s :
  framed s (m s) →
  (∀ a s', m s = Ret a s' → framed s' (k a s')) →
  framed s (bind m k s).
Proof.
  unfold bind. intros Hm Hk. destruct (m s) as [a s' | p s' |]; simpl in *;
    [| done | done].
  specialize (Hk a s' eq_refl).
  destruct (k a s') as [b s'' | p s'' |]; simpl in *;
    eauto using frame_trans.
Qed.

Lemma framed_ret {A} (a : A) s : framed s (ret a s).
Proof. apply frame_refl. Qed.

Lemma framed_throw {A} p s : framed s (throw (A:=A) p s).
Proof. apply frame_refl. Qed.

Lemma framed_warn w s : framed s (warn w s).
Proof. by repeat split. Qed.

Lemma framed_getContainer c s : framed s (getContainer c s).
Proof. unfold getContainer. destruct (_ !! _); apply frame_refl. Qed.

Lemma framed_allocObject v s : framed s (allocObject v s).
Proof. repeat split; simpl; lia. Qed.

Lemma framed_callFactory l f s : framed s (callFactory l f s).
Proof. unfold callFactory. destruct (f _); by repeat split. Qed.

Lemma frame_setEntry l e E s :
  entries s !! l = Some E → depType e = depType E → frame s (setEntry l e s).
Proof.
  intros Hl Hd. repeat split; simpl; [lia|]. intros l'.
  destruct (decide (l = l')) as [<-|?].
  - by rewrite lookup_insert_eq, Hl; simpl; rewrite Hd.
  - by rewrite lookup_insert_ne.
Qed.

Lemma framed_resolve l s : framed s (resolve l s).
Proof.
  unfold resolve. destruct (entries s !! l) as [e|] eqn:Hl; [|apply frame_refl].
  destruct (factory e) as [f|]; [|apply frame_refl].
  destruct (lifecycle e); [|apply framed_callFactory].
  destruct (once e); [apply frame_refl|].
  pose proof (framed_callFactory l f s) as Hf.
  destruct (callFactory l f s) as [v s' | p s' |] eqn:Hc; simpl in *; [| |done].
  - eapply frame_trans; [done|]. apply (frame_setEntry _ _ e); [|done].
    unfold callFactory in Hc. destruct (f _); simplify_eq. done.
  - eapply frame_trans; [done|]. apply (frame_setEntry _ _ e); [|done].
    unfold callFactory in Hc. destruct (f _); simplify_eq. done.
Qed.

Lemma framed_convert T rv s : framed s (convert T rv s).
Proof.
  unfold convert. destruct (TypeOf _) as [rt|]; [|apply framed_throw].
  repeat case_decide; try apply framed_ret.
  - apply framed_bind; [apply framed_warn | intros; apply framed_ret].
  - destruct (CanAddr rv); [apply framed_ret|].
    apply framed_bind; [apply framed_allocObject | intros; apply framed_ret].
  - apply framed_bind; [apply framed_warn | intros; apply framed_ret].
  - destruct (rv_val rv) as [|? [p|]| | |]; try apply framed_throw;
      [|apply framed_ret].
    destruct (objects s !! p); apply frame_refl.
Qed.

Lemma framed_resolveAndConvert T e b s : framed s (resolveAndConvert T e b s).
Proof.
  unfold resolveAndConvert. apply framed_bind; [apply framed_resolve|].
  intros v s' _. destruct (negb b); [apply framed_ret | apply framed_convert].
Qed.

Lemma framed_getEntry fuel c tok s : framed s (getEntry fuel c tok s).
Proof.
  revert c. induction fuel as [|fuel IH]; intros c; simpl; [done|].
  unfold bind, getContainer. destruct (containers s !! c) as [C|];
    [|apply frame_refl].
  destruct (registry C !! tok); [apply frame_refl|].
  destruct (parent C); [apply IH | apply frame_refl].
Qed.

Lemma getEntry_store fuel c tok s r s' :
  getEntry fuel c tok s = Ret r s' → s' = s.
Proof.
  revert c. induction fuel as [|fuel IH]; intros c; simpl; [done|].
  unfold bind, getContainer. destruct (containers s !! c) as [C|]; [|done].
  destruct (registry C !! tok); [unfold ret; congruence|].
  destruct (parent C); [apply IH | unfold ret; congruence].
Qed.

Lemma framed_findSingleEntry fuel c T s : framed s (findSingleEntry fuel c T s).
Proof.
  revert c s. induction fuel as [|fuel IH]; intros c s; simpl; [done|].
  apply framed_bind; [apply framed_getContainer|]. intros C s1 _.
  apply framed_bind.
  { destruct (scan _ _ _ _ _); apply frame_refl. }
  intros [ex sim] s2 _. simpl. destruct ex as [e|].
  { apply framed_bind; [apply framed_resolve | intros; apply framed_ret]. }
  apply framed_bind.
  { destruct (parent C); [apply IH | apply framed_ret]. }
  intros [v|] s3 _; [apply framed_ret|].
  destruct sim as [e|]; [|apply framed_ret].
  apply framed_bind; [apply framed_warn|]. intros _ s4 _.
  apply framed_resolveAndConvert.
Qed.

Lemma framed_Resolve c T s : framed s (Resolve c T s).
Proof.
  unfold Resolve. apply framed_bind; [apply framed_getContainer|].
  intros C s1 _. destruct (typeRegistry C !! T) as [[|e0 rest]|];
    try apply framed_findSingleEntry.
  case_decide; [apply framed_throw|].
  apply framed_bind; [apply framed_resolve | intros; apply framed_ret].
Qed.

Lemma framed_Get c tok s : framed s (Get c tok s).
Proof.
  unfold Get. destruct tok as [tok|]; [|apply framed_throw].
  apply framed_bind; [apply framed_getEntry|].
  intros [e|] s1 _; [apply framed_resolve | apply framed_throw].
Qed.

Lemma framed_tokenType tok s : framed s (tokenType tok s).
Proof. unfold tokenType. destruct (keys s !! tok) as [[]|]; apply frame_refl. Qed.

Lemma framed_typeAssert T v s : framed s (typeAssert T v s).
Proof.
  unfold typeAssert. destruct (TypeOf v); [|apply framed_throw].
  destruct (AssignableTo _ _); [apply framed_ret | apply framed_throw].
Qed.

Lemma framed_Find tok c s : framed s (Find tok c s).
Proof.
  unfold Find. apply framed_bind; [apply framed_getEntry|].
  intros [e|] s1 _; [|apply framed_ret].
  apply framed_bind; [apply framed_resolve|]. intros v s2 _.
  apply framed_bind; [apply framed_tokenType|]. intros T' s3 _.
  apply framed_bind; [apply framed_typeAssert | intros; apply framed_ret].
Qed.

Lemma framed_setField l name ft v s : framed s (setField l name ft v s).
Proof.
  unfold setField. destruct (TypeOf v); [|apply frame_refl].
  destruct (AssignableTo _ _); [|apply frame_refl].
  destruct (objects s !! l) as [[]|]; try apply frame_refl.
  by repeat split.
Qed.

Lemma framed_loadObject l s : framed s (loadObject l s).
Proof. unfold loadObject. destruct (objects s !! l); apply frame_refl. Qed.

Lemma framed_forEach {A} (f : A → M unit) l s :
  (∀ x s', framed s' (f x s')) → framed s (forEach f l s).
Proof.
  intros Hf. revert s. induction l as [|x l IH]; intros s; simpl;
    [apply frame_refl|].
  apply framed_bind; [apply Hf | intros; apply IH].
Qed.

Lemma framed_injectField inject c st p fld s :
  (∀ v s', framed s' (inject v s')) →
  framed s (injectField inject c st p fld s).
Proof.
  intros Hi. unfold injectField. destruct p as [l|]; [|apply framed_throw].
  destruct (negb (Exported fld)); [apply framed_ret|].
  apply framed_bind; [apply framed_Resolve|].
  intros [v|] s1 _; [apply framed_setField|].
  case_decide; [|apply framed_throw].
  apply framed_bind; [apply framed_allocObject|]. intros q s2 _.
  apply framed_bind; [apply Hi|]. intros _ s3 _.
  apply framed_bind; [apply framed_loadObject|]. intros nv s4 _.
  apply framed_setField.
Qed.

Lemma framed_Inject fuel c target s : framed s (Inject fuel c target s).
Proof.
  revert target s. induction fuel as [|fuel IH]; intros target s; simpl;
    [done|].
  destruct target; try apply framed_throw.
  case_decide; [apply framed_throw|].
  apply framed_forEach. intros fld s'. by apply framed_injectField.
Qed.

(** Well-formedness survives whatever a resolution changes. *)
Lemma wf_frame s s' : wf s → frame s s' → wf s'.
Proof.
  intros [W1 W2 W3 W4 W5 W6 W7 W8] Hf.
  pose proof Hf as (Hn & Hc & Hk & He).
  assert (Ht : ∀ l, entryType s' l = entryType s l)
    by (intros; by apply frame_entryType).
  split.
  - intros c C. rewrite Hc. intros HC. destruct (W1 c C HC). split; [lia|done].
  - intros c C h e. rewrite Hc. intros HC Hh. destruct (W2 c C h e HC Hh). lia.
  - intros c C T e. rewrite Hc. intros HC He'. specialize (W3 c C T e HC He'). lia.
  - intros e Hs. assert (is_Some (entries s !! e)) as Hs'.
    { specialize (He e). destruct (entries s !! e), (entries s' !! e);
        simpl in *; try done; by destruct Hs. }
    specialize (W4 e Hs'). lia.
  - intros k. rewrite Hk. intros Hs. specialize (W5 k Hs). lia.
  - intros c C h e T. rewrite Hc, Ht. apply W6.
  - intros c C T. rewrite Hc. apply W7.
  - intros c C h e. rewrite Hc, Hk, Ht. apply W8.
Qed.

Lemma frame_extends s s' : frame s s' → extends s s'.
Proof.
  intros (Hn & _ & _ & He). split; [done|]. intros l E Hl.
  specialize (He l). rewrite Hl in He. destruct (entries s' !! l) as [E'|];
    simpl in *; [|done]. exists E'. split; [done|]. congruence.
Qed.

Lemma indexOf_withEntry C h e typ T :
  indexOf (withEntry C h e typ) T =
  if decide (typ = Some T) then indexOf C T ++ [e] else indexOf C T.
Proof.
  unfold indexOf at 1, withEntry; simpl. destruct typ as [typ|].
  - destruct (decide (typ = T)) as [->|Hne].
    + rewrite lookup_insert_eq. by rewrite decide_True.
    + rewrite lookup_insert_ne by done. rewrite decide_False by congruence.
      done.
  - by rewrite decide_False.
Qed.

Lemma StronglySorted_snoc (l : list nat) (x : nat) :
  StronglySorted lt l → (∀ y, y ∈ l → y < x) → StronglySorted lt (l ++ [x]).
Proof.
  induction 1 as [|a l Hs IH Ha]; intros Hx; simpl.
  - repeat constructor.
  - constructor.
    + apply IH. intros y Hy. apply Hx. by right.
    + apply Forall_app. split; [done|]. constructor; [|constructor].
      apply Hx. by left.
Qed.

Lemma wf_registered s s' c C h e E :
  wf s → containers s !! c = Some C →
  next s ≤ e → e < next s' → h < next s' →
  (∀ k, is_Some (keys s' !! k) → k < next s') →
  (∀ k, k < next s → keys s' !! k = keys s !! k) →
  match keys s' !! h with
  | Some (KToken T _) => depType E = typeOfZero T
  | Some (KProvided _) => is_Some (depType E)
  | None => False
  end →
  entries s' = <[e := E]> (entries s) →
  containers s' = <[c := withEntry C h e (depType E)]> (containers s) →
  wf s'.
Proof.
  intros [W1 W2 W3 W4 W5 W6 W7 W8] HC Hle Hlt Hh Hks Hkold Hkey He Hc.
  assert (Hold : ∀ l, l < next s → entryType s' l = entryType s l).
  { intros l Hl. unfold entryType. rewrite He, lookup_insert_ne by lia. done. }
  assert (Hnew : entryType s' e = depType E).
  { unfold entryType. by rewrite He, lookup_insert_eq. }
  assert (Hcont : ∀ c' C', containers s' !! c' = Some C' →
            (c' = c ∧ C' = withEntry C h e (depType E)) ∨
            (c' ≠ c ∧ containers s !! c' = Some C')).
  { intros c' C'. rewrite Hc. destruct (decide (c = c')) as [<-|Hne].
    - rewrite lookup_insert_eq. intros [= <-]. by left.
    - rewrite lookup_insert_ne by done. intros. right. by split. }
  assert (Hreg : ∀ c' C' h' e', containers s' !! c' = Some C' →
            registry C' !! h' = Some e' →
            (c' = c ∧ h' = h ∧ e' = e) ∨
            (∃ C0, containers s !! c' = Some C0 ∧ registry C0 !! h' = Some e'
                   ∧ parent C0 = parent C'
                   ∧ ∀ T, e' ∈ indexOf C0 T → e' ∈ indexOf C' T)).
  { intros c' C' h' e' HC' Hh'. destruct (Hcont _ _ HC') as [[-> ->]|[Hne HC0]].
    - simpl in Hh'. destruct (decide (h = h')) as [<-|Hneh].
      + rewrite lookup_insert_eq in Hh'. left. by simplify_eq.
      + rewrite lookup_insert_ne in Hh' by done. right. exists C.
        repeat split; try done. intros T HT. rewrite indexOf_withEntry.
        case_decide; [apply elem_of_app; by left | done].
    - right. exists C'. by repeat split. }
  assert (Hidx : ∀ c' C' T x, containers s' !! c' = Some C' →
            x ∈ indexOf C' T →
            (x = e ∧ c' = c ∧ depType E = Some T) ∨
            (∃ C0, containers s !! c' = Some C0 ∧ x ∈ indexOf C0 T)).
  { intros c' C' T x HC' Hx. destruct (Hcont _ _ HC') as [[-> ->]|[Hne HC0]].
    - rewrite indexOf_withEntry in Hx. case_decide as HT.
      + apply elem_of_app in Hx as [Hx|Hx]; [right; eauto|].
        apply list_elem_of_singleton in Hx. left. by repeat split.
      + right; eauto.
    - right; eauto. }
  assert (Hsome : ∀ q, is_Some (containers s !! q) →
                       is_Some (containers s' !! q)).
  { intros q Hq. rewrite Hc. destruct (decide (c = q)) as [<-|Hne].
    - by rewrite lookup_insert_eq.
    - by rewrite lookup_insert_ne. }
  split.
  - intros c' C' HC'. destruct (Hcont _ _ HC') as [[-> ->]|[Hne HC0]].
    + destruct (W1 _ _ HC) as [? Hpar]. split; [lia|].
      intros q Hq. destruct (Hpar q Hq). split; [done | by apply Hsome].
    + destruct (W1 _ _ HC0) as [? Hpar]. split; [lia|].
      intros q Hq. destruct (Hpar q Hq). split; [done | by apply Hsome].
  - intros c' C' h' e' HC' Hh'.
    destruct (Hreg _ _ _ _ HC' Hh') as [(-> & -> & ->)|(C0 & HC0 & Hh0 & _)];
      [lia|]. destruct (W2 _ _ _ _ HC0 Hh0). lia.
  - intros c' C' T x HC' Hx.
    destruct (Hidx _ _ _ _ HC' Hx) as [(-> & _)|(C0 & HC0 & Hx0)]; [lia|].
    specialize (W3 _ _ _ _ HC0 Hx0). lia.
  - intros l. rewrite He. destruct (decide (e = l)) as [<-|Hne]; [lia|].
    rewrite lookup_insert_ne by done. intros Hs. specialize (W4 _ Hs). lia.
  - done.
  - intros c' C' h' e' T HC' Hh' HT.
    destruct (Hreg _ _ _ _ HC' Hh') as [(-> & -> & ->)|(C0 & HC0 & Hh0 & _ & Hin)].
    + destruct (Hcont _ _ HC') as [[_ ->]|[? _]]; [|done].
      rewrite indexOf_withEntry, decide_True by congruence.
      apply elem_of_app. right. by apply list_elem_of_singleton.
    + apply Hin. destruct (W2 _ _ _ _ HC0 Hh0). rewrite Hold in HT by lia.
      by eapply W6.
  - intros c' C' T HC'. destruct (Hcont _ _ HC') as [[-> ->]|[Hne HC0]];
      [|by eapply W7].
    rewrite indexOf_withEntry. case_decide; [|by eapply W7].
    apply StronglySorted_snoc; [by eapply W7|].
    intros y Hy. specialize (W3 _ _ _ _ HC Hy). lia.
  - intros c' C' h' e' HC' Hh'.
    destruct (Hreg _ _ _ _ HC' Hh') as [(-> & -> & ->)|(C0 & HC0 & Hh0 & _)].
    + rewrite Hnew. done.
    + destruct (W2 _ _ _ _ HC0 Hh0). rewrite Hkold, Hold by lia.
      by eapply W8.
Qed.

Lemma wf_grow s s' :
  wf s → next s ≤ next s' → containers s' = containers s →
  (∀ k, is_Some (keys s' !! k) → k < next s') →
  (∀ k, k < next s → keys s' !! k = keys s !! k) →
  (∀ e, is_Some (entries s' !! e) → e < next s') →
  (∀ e, e < next s → entries s' !! e = entries s !! e) →
  wf s'.
Proof.
  intros [W1 W2 W3 W4 W5 W6 W7 W8] Hn Hc Hk Hkold He Heold.
  assert (Hold : ∀ l, l < next s → entryType s' l = entryType s l).
  { intros l Hl. unfold entryType. by rewrite Heold. }
  split; try done.
  - intros c C. rewrite Hc. intros HC. destruct (W1 c C HC). split; [lia|done].
  - intros c C h e. rewrite Hc. intros HC Hh. destruct (W2 c C h e HC Hh). lia.
  - intros c C T e. rewrite Hc. intros HC He'.
    specialize (W3 c C T e HC He'). lia.
  - intros c C h e T. rewrite Hc. intros HC Hh.
    destruct (W2 c C h e HC Hh). rewrite Hold by lia. by eapply W6.
  - intros c C T. rewrite Hc. apply W7.
  - intros c C h e. rewrite Hc. intros HC Hh.
    destruct (W2 c C h e HC Hh). rewrite Hkold, Hold by lia. by eapply W8.
Qed.

Lemma extends_insert s s' e E :
  wf s → next s ≤ e → next s ≤ next s' →
  entries s' = <[e := E]> (entries s) → extends s s'.
Proof.
  intros Hwf He Hn Hs. split; [done|]. intros l E' Hl. exists E'.
  split; [|done]. rewrite Hs, lookup_insert_ne; [done|].
  intros ->. pose proof (wf_entries _ Hwf l (mk_is_Some _ _ Hl)). lia.
Qed.

Lemma extends_same s s' :
  next s ≤ next s' → entries s' = entries s → extends s s'.
Proof. intros Hn Hs. split; [done|]. intros l E Hl. exists E. by rewrite Hs. Qed.

Lemma extends_refl s : extends s s.
Proof. by apply extends_same. Qed.

Lemma extends_trans s1 s2 s3 : extends s1 s2 → extends s2 s3 → extends s1 s3.
Proof.
  intros [Hn H12] [Hn' H23]. split; [lia|]. intros l E Hl.
  destruct (H12 l E Hl) as (E' & Hl' & Hd).
  destruct (H23 l E' Hl') as (E'' & Hl'' & Hd').
  exists E''. split; [done | congruence].
Qed.

Lemma wf_insert_key_lt (m : gmap nat keyObj) n k (x : keyObj) b :
  (∀ k, is_Some (m !! k) → k < n) → n < b → n ≤ b →
  is_Some (<[n := x]> m !! k) → k < b.
Proof.
  intros Hm Hb _. destruct (decide (n = k)) as [<-|Hne]; [done|].
  rewrite lookup_insert_ne by done. intros Hs. specialize (Hm _ Hs). lia.
Qed.

Lemma wf_insert_entry_lt (m : gmap nat entry) n k (x : entry) b :
  (∀ k, is_Some (m !! k) → k < n) → n < b →
  is_Some (<[n := x]> m !! k) → k < b.
Proof.
  intros Hm Hb. destruct (decide (n = k)) as [<-|Hne]; [done|].
  rewrite lookup_insert_ne by done. intros Hs. specialize (Hm _ Hs). lia.
Qed.

Lemma NewToken_ok T name s :
  wf s → wf (storeOf s (NewToken T name s)) ∧
         extends s (storeOf s (NewToken T name s)).
Proof.
  intros Hwf. unfold NewToken, bind.
  match goal with |- context [match ?m s with _ => _ end] =>
    assert (Hk : (∃ key, m s = Ret key s) ∨ (∃ p, m s = Panic p s)) end.
  { destruct name as [|n0 ?]; [|case_decide; [left; by eexists|]];
      (destruct (typeOfZero T); [|right; by eexists]);
      case_decide; left; by eexists. }
  destruct Hk as [[key ->]|[p ->]]; simpl; [|split; [done|apply extends_refl]].
  split; [|by apply extends_same; simpl; [lia|]].
  eapply wf_grow; [done | simpl; lia | done | | | |]; simpl.
  - intros k. apply wf_insert_key_lt; [apply Hwf | lia | lia].
  - intros k Hk. rewrite lookup_insert_ne by lia. done.
  - intros e He. pose proof (wf_entries _ Hwf e He). lia.
  - done.
Qed.

Lemma wf_emptyContainer s s' c p :
  wf s → next s ≤ next s' → c < next s' →
  (∀ q, p = Some q → q < c ∧ is_Some (containers s !! q)) →
  keys s' = keys s → entries s' = entries s →
  containers s' =
    <[c := {| registry := ∅; typeRegistry := ∅; parent := p |}]> (containers s) →
  wf s'.
Proof.
  intros [W1 W2 W3 W4 W5 W6 W7 W8] Hn Hlt Hp Hk He Hcs.
  assert (Ht : ∀ l, entryType s' l = entryType s l)
    by (intros; unfold entryType; by rewrite He).
  assert (Hc : ∀ c' C, containers s' !! c' = Some C →
             (c' = c ∧ registry C = ∅ ∧ typeRegistry C = ∅ ∧ parent C = p)
             ∨ (containers s !! c' = Some C)).
  { intros c' C. rewrite Hcs. destruct (decide (c = c')) as [<-|Hne].
    - rewrite lookup_insert_eq. intros [= <-]. by left.
    - rewrite lookup_insert_ne by done. by right. }
  assert (Hsome : ∀ q, is_Some (containers s !! q) →
                       is_Some (containers s' !! q)).
  { intros q Hq. rewrite Hcs. destruct (decide (c = q)) as [<-|Hne].
    - by rewrite lookup_insert_eq.
    - by rewrite lookup_insert_ne. }
  split.
  - intros c' C HC. destruct (Hc _ _ HC) as [(-> & _ & _ & ->)|HC0].
    + split; [lia|]. intros q Hq. destruct (Hp q Hq).
      split; [done | by apply Hsome].
    + destruct (W1 _ _ HC0) as [? Hpar]. split; [lia|].
      intros q Hq. destruct (Hpar q Hq). split; [done | by apply Hsome].
  - intros c' C h e HC Hh. destruct (Hc _ _ HC) as [(-> & Hr & _)|HC0].
    + by rewrite Hr in Hh.
    + destruct (W2 _ _ _ _ HC0 Hh). lia.
  - intros c' C T e HC Hin. destruct (Hc _ _ HC) as [(-> & _ & Hr & _)|HC0].
    + unfold indexOf in Hin. rewrite Hr in Hin. by apply elem_of_nil in Hin.
    + specialize (W3 _ _ _ _ HC0 Hin). lia.
  - intros e. rewrite He. intros Hs. specialize (W4 _ Hs). lia.
  - intros k. rewrite Hk. intros Hs. specialize (W5 _ Hs). lia.
  - intros c' C h e T HC Hh. destruct (Hc _ _ HC) as [(-> & Hr & _)|HC0].
    + by rewrite Hr in Hh.
    + rewrite Ht. by eapply W6.
  - intros c' C T HC. destruct (Hc _ _ HC) as [(-> & _ & Hr & _)|HC0].
    + unfold indexOf. rewrite Hr. simpl. constructor.
    + by eapply W7.
  - intros c' C h e HC Hh. destruct (Hc _ _ HC) as [(-> & Hr & _)|HC0].
    + by rewrite Hr in Hh.
    + rewrite Hk, Ht. by eapply W8.
Qed.

Lemma New_ok s :
  wf s → wf (storeOf s (New s)) ∧ extends s (storeOf s (New s)).
Proof.
  intros Hwf. split; [|by apply extends_same; simpl; [lia|]].
  eapply (wf_emptyContainer s _ (next s) None); simpl; try done; lia.
Qed.

Lemma NewScoped_ok p s :
  wf s → wf (storeOf s (NewScoped p s)) ∧ extends s (storeOf s (NewScoped p s)).
Proof.
  intros Hwf. destruct p as [p|]; [|split; [done | apply extends_refl]].
  unfold NewScoped, bind, getContainer.
  destruct (containers s !! p) as [P|] eqn:HP;
    [|split; [done | apply extends_refl]].
  split; [|by apply extends_same; simpl; [lia|]].
  eapply (wf_emptyContainer s _ (next s) (Some p)); simpl; try done; try lia.
  intros q [= <-]. destruct (wf_containers _ Hwf _ _ HP). by split.
Qed.

Lemma Clear_ok c s :
  wf s → wf (storeOf s (Clear c s)) ∧ extends s (storeOf s (Clear c s)).
Proof.
  intros Hwf. unfold Clear, bind, getContainer.
  destruct (containers s !! c) as [C|] eqn:HC;
    [|split; [done | apply extends_refl]].
  split; [|by apply extends_same; simpl; [lia|]].
  destruct (wf_containers _ Hwf _ _ HC) as [Hlt Hp].
  eapply (wf_emptyContainer s _ c (parent C)); simpl; try done.
Qed.

Lemma Provide_ok c v s :
  wf s → wf (storeOf s (Provide c v s)) ∧ extends s (storeOf s (Provide c v s)).
Proof.
  intros Hwf. unfold Provide. destruct (TypeOf v) as [typ|];
    [|split; [done | apply extends_refl]].
  unfold bind, allocKey, allocEntry, getContainer; simpl.
  destruct (containers s !! c) as [C|] eqn:HC; simpl.
  - split; [|eapply (extends_insert _ _ (S (next s))); simpl; try done; lia].
    eapply (wf_registered s _ c C (next s) (S (next s))); simpl; try done;
      try lia.
    + intros k. apply wf_insert_key_lt; [apply Hwf | lia | lia].
    + intros k Hk. by rewrite lookup_insert_ne by lia.
    + by rewrite lookup_insert_eq.
  - split; [|eapply (extends_insert _ _ (S (next s))); simpl; try done; lia].
    eapply wf_grow; [done | simpl; lia | done | | | |]; simpl.
    + intros k. apply wf_insert_key_lt; [apply Hwf | lia | lia].
    + intros k Hk. by rewrite lookup_insert_ne by lia.
    + intros e. apply wf_insert_entry_lt; [|lia].
      intros k Hk. pose proof (wf_entries _ Hwf _ Hk). lia.
    + intros e He. by rewrite lookup_insert_ne by lia.
Qed.

Lemma provideFactoryWithLifecycle_ok c f lc s :
  wf s →
  wf (storeOf s (provideFactoryWithLifecycle c f lc s)) ∧
  extends s (storeOf s (provideFactoryWithLifecycle c f lc s)).
Proof.
  intros Hwf. unfold provideFactoryWithLifecycle.
  destruct f as [| | | |fnType numIn outs body];
    try (split; [done | apply extends_refl]);
    try (simpl; case_decide; split; done || apply extends_refl).
  case_decide; [split; [done | apply extends_refl]|].
  destruct outs as [|returnType [|]]; try (split; [done | apply extends_refl]).
  unfold bind, allocKey, allocEntry, getContainer; simpl.
  destruct (containers s !! c) as [C|] eqn:HC; simpl.
  - split; [|eapply (extends_insert _ _ (S (next s))); simpl; try done; lia].
    eapply (wf_registered s _ c C (next s) (S (next s))); simpl; try done;
      try lia.
    + intros k. apply wf_insert_key_lt; [apply Hwf | lia | lia].
    + intros k Hk. by rewrite lookup_insert_ne by lia.
    + by rewrite lookup_insert_eq.
  - split; [|eapply (extends_insert _ _ (S (next s))); simpl; try done; lia].
    eapply wf_grow; [done | simpl; lia | done | | | |]; simpl.
    + intros k. apply wf_insert_key_lt; [apply Hwf | lia | lia].
    + intros k Hk. by rewrite lookup_insert_ne by lia.
    + intros e. apply wf_insert_entry_lt; [|lia].
      intros k Hk. pose proof (wf_entries _ Hwf _ Hk). lia.
    + intros e He. by rewrite lookup_insert_ne by lia.
Qed.

Lemma registerTo_ok r c s :
  wf s → wf (storeOf s (registerTo r c s)) ∧
         extends s (storeOf s (registerTo r c s)).
Proof.
  intros Hwf. unfold registerTo, bind, tokenType.
  destruct (keys s !! token r) as [[T key|]|] eqn:Hk;
    try (split; [done | apply extends_refl]).
  unfold getContainer.
  destruct (containers s !! c) as [C|] eqn:HC;
    [|split; [done | apply extends_refl]].
  unfold allocEntry; simpl.
  split; [|eapply (extends_insert _ _ (next s)); simpl; try done; lia].
  pose proof (wf_keys _ Hwf _ (mk_is_Some _ _ Hk)).
  eapply (wf_registered s _ c C (token r) (next s)); simpl; try done; try lia.
  - intros k Hs. pose proof (wf_keys _ Hwf _ Hs). lia.
  - by rewrite Hk.
Qed.

Lemma Register_ok c rs s :
  wf s → wf (storeOf s (Register c rs s)) ∧
         extends s (storeOf s (Register c rs s)).
Proof.
  revert s. induction rs as [|r rs IH]; intros s Hwf; simpl.
  { split; [done | apply extends_refl]. }
  unfold bind. destruct (registerTo_ok r c s Hwf) as [Hwf' Hext].
  destruct (registerTo r c s) as [[] s' | p s' |]; simpl in *; [|done|done].
  destruct (IH s' Hwf') as [Hwf'' Hext'].
  assert (storeOf s (Register c rs s') = storeOf s' (Register c rs s')
          ∨ Register c rs s' = OutOfFuel) as [->|Hof].
  { destruct (Register c rs s'); simpl; auto. }
  - split; [done | by eapply extends_trans].
  - rewrite Hof. simpl. split; [done|]. apply extends_refl.
Qed.

Lemma framed_ok {A} s (o : outcome A) :
  wf s → framed s o → wf (storeOf s o) ∧ extends s (storeOf s o).
Proof.
  intros Hwf Hf. destruct o as [a s' | p s' |]; simpl in *;
    eauto using wf_frame, frame_extends, extends_refl.
Qed.

Lemma exec_ok o s : wf s → wf (exec o s) ∧ extends s (exec o s).
Proof.
  intros Hwf. destruct o; simpl.
  - by apply New_ok.
  - by apply NewScoped_ok.
  - by apply NewToken_ok.
  - by apply Provide_ok.
  - by apply provideFactoryWithLifecycle_ok.
  - by apply provideFactoryWithLifecycle_ok.
  - by apply Register_ok.
  - apply framed_ok; [done | apply framed_Get].
  - apply framed_ok; [done | apply framed_Find].
  - apply framed_ok; [done | apply framed_Resolve].
  - apply framed_ok; [done | apply framed_Inject].
  - by apply Clear_ok.
Qed.

Lemma wf_emptyStore : wf emptyStore.
Proof.
  split; try done.
  - intros e [? He]. simpl in He. by rewrite lookup_empty in He.
  - intros e [? He]. simpl in He. by rewrite lookup_empty in He.
Qed.

Lemma execs_ok ops s : wf s → wf (execs ops s) ∧ extends s (execs ops s).
Proof.
  revert s. induction ops as [|o ops IH]; intros s Hwf; simpl.
  { split; [done | apply extends_refl]. }
  destruct (exec_ok o s Hwf) as [Hwf' Hext].
  destruct (IH _ Hwf') as [Hwf'' Hext'].
  split; [done | by eapply extends_trans].
Qed.

Lemma execs_app ops1 ops2 s : execs (ops1 ++ ops2) s = execs ops2 (execs ops1 s).
Proof. apply foldl_app. Qed.

(** C5, amended: in every store a program of calls reaches from the empty
    store, every entry of a handle map that has a declared type is listed
    in the type index of its container under that type, every list of the
    index is in registration order, an entry registered without a token
    has a declared type, one registered under a token has the token's
    element type as its declared type unless that type is an interface
    type, in which case it has none, and no later call changes the declared
    type an entry has. *)
Theorem index_invariant (ops : list op) :
  let s := execs ops emptyStore in
  indexed s ∧ inRegistrationOrder s ∧ declaredByKey s ∧
  ∀ more l E, entries s !! l = Some E →
    ∃ E', entries (execs (ops ++ more) emptyStore) !! l = Some E' ∧
          depType E' = depType E.
Proof.
  intros s. destruct (execs_ok ops emptyStore wf_emptyStore) as [Hwf _].
  repeat split; try apply Hwf.
  intros more l E Hl. rewrite execs_app.
  destruct (execs_ok more s Hwf) as [_ [_ Hext]]. by apply Hext.
Qed.

(** *** The parent chain *)

Lemma getEntry_fuel s c tok f1 f2 :
  wf s → c < f1 → c < f2 → getEntry f1 c tok s = getEntry f2 c tok s.
Proof.
  intros Hwf. revert c f2. induction f1 as [|f1 IH]; intros c f2 H1 H2; [lia|].
  destruct f2 as [|f2]; [lia|]. simpl. unfold bind, getContainer.
  destruct (containers s !! c) as [C|] eqn:HC; [|done].
  destruct (registry C !! tok); [done|].
  destruct (parent C) as [p|] eqn:Hp; [|done].
  pose proof (wf_parent_lt _ _ _ _ Hwf HC Hp) as Hlt.
  apply IH; lia.
Qed.

Lemma findSingleEntry_unfold fuel c T s C :
  containers s !! c = Some C →
  findSingleEntry (S fuel) c T s =
  match scan (entries s) T (rangeOrder (registry C)) None None with
  | inl p => Panic p s
  | inr (Some e, _) => (let! v := resolve e in ret (Some v)) s
  | inr (None, sim) =>
    match searchUp fuel (parent C) T s with
    | Ret (Some v) s' => Ret (Some v) s'
    | Ret None s' =>
      match sim with
      | Some e =>
          (run! warn (WarnSimilar T) in resolveAndConvert T e true) s'
      | None => Ret None s'
      end
    | Panic p s' => Panic p s'
    | OutOfFuel => OutOfFuel
    end
  end.
Proof.
  intros HC. simpl. unfold bind at 1, getContainer. rewrite HC.
  unfold bind at 1. destruct (scan _ _ _ _ _) as [p|[[e|] sim]]; simpl;
    [done|done|].
  unfold bind at 1, searchUp.
  destruct (parent C) as [p|]; simpl.
  - destruct (findSingleEntry fuel p T s) as [[v|] s'|p' s'|]; try done.
    destruct sim; done.
  - unfold ret. destruct sim; done.
Qed.

Lemma findSingleEntry_fuel s c T f1 f2 :
  wf s → c < f1 → c < f2 →
  findSingleEntry f1 c T s = findSingleEntry f2 c T s.
Proof.
  intros Hwf. revert c f2. induction f1 as [|f1 IH]; intros c f2 H1 H2; [lia|].
  destruct f2 as [|f2]; [lia|].
  destruct (containers s !! c) as [C|] eqn:HC.
  - rewrite !(findSingleEntry_unfold _ _ _ _ C) by done.
    assert (searchUp f1 (parent C) T s = searchUp f2 (parent C) T s) as ->;
      [|done].
    destruct (parent C) as [p|] eqn:Hp; [|done]. simpl.
    pose proof (wf_parent_lt _ _ _ _ Hwf HC Hp) as Hlt.
    apply IH; lia.
  - simpl. unfold bind, getContainer. by rewrite HC.
Qed.

(** *** The scan *)

Lemma scan_spec ents T items ex sim :
  (∀ he, he ∈ items → is_Some (ents !! he.2 ≫= depType)) →
  scan ents T items ex sim =
  match option_list ex ++ List.filter (isExactEntry ents T) items.*2 with
  | [] => inr (None, head (option_list sim
                           ++ List.filter (isSimilarEntry ents T) items.*2))
  | [e] => inr (Some e, head (option_list sim
                              ++ List.filter (isSimilarEntry ents T) items.*2))
  | _ => inl (PanicMultipleInRegistry T)
  end.
Proof.
  revert ex sim. induction items as [|[h e] items IH]; intros ex sim Hty.
  { simpl. rewrite !app_nil_r. by destruct ex, sim. }
  assert (Hty' : ∀ he, he ∈ items → is_Some (ents !! he.2 ≫= depType)).
  { intros he Hin. apply Hty. by right. }
  destruct (Hty (h, e)) as [vt Hvt]; [by left|]. simpl in Hvt.
  assert (He : isExactEntry ents T e = isExactMatch T vt)
    by (unfold isExactEntry; by rewrite Hvt).
  assert (Hs : isSimilarEntry ents T e
               = negb (isExactMatch T vt) && isSimilarType T vt)
    by (unfold isSimilarEntry; by rewrite Hvt).
  cbn [scan fmap list_fmap List.filter snd]. rewrite Hvt, He, Hs.
  destruct (isExactMatch T vt) eqn:Hex; simpl.
  - destruct ex as [e0|]; simpl.
    + by destruct (List.filter _ _).
    + rewrite IH by done. done.
  - destruct (isSimilarType T vt) eqn:Hsim; simpl.
    + destruct sim as [x|]; simpl.
      * rewrite IH by done. done.
      * rewrite IH by done. done.
    + rewrite andb_false_r. rewrite IH by done. done.
Qed.

Lemma scan_matches s C T :
  typedRegistry s C →
  scan (entries s) T (rangeOrder (registry C)) None None =
  match exactMatches s C T with
  | [] => inr (None, head (similarMatches s C T))
  | [e] => inr (Some e, head (similarMatches s C T))
  | _ => inl (PanicMultipleInRegistry T)
  end.
Proof.
  intros Hty. rewrite scan_spec; [done|].
  intros [h e] Hin. apply (Hty h). simpl.
  rewrite rangeOrder_perm in Hin. by apply elem_of_map_to_list in Hin.
Qed.

(** *** Resolve *)

Lemma Resolve_index_one s c C T e :
  containers s !! c = Some C → indexOf C T = [e] →
  Resolve c T s = (let! v := resolve e in ret (Some v)) s.
Proof.
  intros HC Hi. unfold Resolve, bind at 1, getContainer. rewrite HC.
  unfold indexOf in Hi. destruct (typeRegistry C !! T) as [l|]; simpl in Hi;
    [|done]. subst l. rewrite decide_False by (simpl; lia). done.
Qed.

Lemma Resolve_index_nil s c C T :
  containers s !! c = Some C → indexOf C T = [] →
  Resolve c T s = findSingleEntry (S c) c T s.
Proof.
  intros HC Hi. unfold Resolve, bind at 1, getContainer. rewrite HC.
  unfold indexOf in Hi. destruct (typeRegistry C !! T) as [l|]; simpl in Hi;
    [|done]. by subst l.
Qed.

Lemma Resolve_index_many s c C T :
  containers s !! c = Some C → 1 < length (indexOf C T) →
  Resolve c T s = Panic (PanicMultipleCandidates T (length (indexOf C T))) s.
Proof.
  intros HC Hi. unfold Resolve, bind at 1, getContainer. rewrite HC.
  unfold indexOf in *. destruct (typeRegistry C !! T) as [[|e0 l]|];
    simpl in *; try lia. rewrite decide_True by lia. done.
Qed.

Lemma resolve_returns l s : resolve l s ≠ OutOfFuel.
Proof.
  unfold resolve, callFactory. destruct (entries s !! l) as [e|]; [|done].
  destruct (factory e) as [f|]; [|done].
  destruct (lifecycle e); [destruct (once e); [done|]|]; by destruct (f _).
Qed.

Lemma convert_returns T rv s : convert T rv s ≠ OutOfFuel.
Proof.
  unfold convert. destruct (TypeOf _); [|done].
  repeat case_decide; try done.
  - by destruct (CanAddr rv).
  - destruct (rv_val rv) as [|? [q|]| | |]; try done.
    by destruct (objects s !! q).
Qed.

Lemma resolveAndConvert_returns T e b s : resolveAndConvert T e b s ≠ OutOfFuel.
Proof.
  unfold resolveAndConvert, bind. pose proof (resolve_returns e s).
  destruct (resolve e s); try done.
  destruct (negb b); [done | apply convert_returns].
Qed.

Lemma findSingleEntry_returns s c T fuel :
  wf s → c < fuel → findSingleEntry fuel c T s ≠ OutOfFuel.
Proof.
  intros Hwf. revert c. induction fuel as [|fuel IH]; intros c Hc; [lia|].
  destruct (containers s !! c) as [C|] eqn:HC.
  - rewrite (findSingleEntry_unfold _ _ _ _ C) by done.
    destruct (scan _ _ _ _ _) as [q|[[e|] sim]]; [done| |].
    + unfold bind. pose proof (resolve_returns e s). by destruct (resolve e s).
    + assert (searchUp fuel (parent C) T s ≠ OutOfFuel) as Hup.
      { destruct (parent C) as [p|] eqn:Hp; [|done]. simpl. apply IH.
        pose proof (wf_parent_lt _ _ _ _ Hwf HC Hp) as Hlt. lia. }
      destruct (searchUp fuel (parent C) T s) as [[v|] s'|q s'|]; try done.
      destruct sim as [e|]; [|done]. unfold bind, warn.
      apply resolveAndConvert_returns.
  - simpl. unfold bind, getContainer. by rewrite HC.
Qed.

(** The search of one container in terms of its matches. *)
Lemma findSingleEntry_matches s c C T fuel :
  containers s !! c = Some C → typedRegistry s C →
  findSingleEntry (S fuel) c T s =
  match exactMatches s C T with
  | [] =>
    match searchUp fuel (parent C) T s with
    | Ret (Some v) s' => Ret (Some v) s'
    | Ret None s' =>
      match similarMatches s C T with
      | e :: _ => (run! warn (WarnSimilar T) in resolveAndConvert T e true) s'
      | [] => Ret None s'
      end
    | Panic q s' => Panic q s'
    | OutOfFuel => OutOfFuel
    end
  | [e] => (let! v := resolve e in ret (Some v)) s
  | _ => Panic (PanicMultipleInRegistry T) s
  end.
Proof.
  intros HC Hty. rewrite (findSingleEntry_unfold _ _ _ _ C) by done.
  rewrite scan_matches by done.
  destruct (exactMatches s C T) as [|e [|]]; [|done|done].
  destruct (searchUp fuel (parent C) T s) as [[v|] s'|q s'|]; try done.
  by destruct (similarMatches s C T).
Qed.

(** C1: Resolve on a scoped container whose entries all carry a declared
    type. A single entry in the local index of the requested type is the
    one resolved. With nothing in that index, a single local exact match is
    the one resolved; with no local exact match the same search is run on
    the parent chain, and what the parent chain finds (an exact or a
    similar match of its own) is returned whatever the local similar
    matches are; only when the parent chain misses is the first local
    similar match resolved and coerced, after a warning; with no local
    similar match either, Resolve reports not-found. *)
Theorem resolve_priority s c C p T :
  wf s → containers s !! c = Some C → parent C = Some p →
  typedRegistry s C →
  (∀ e, indexOf C T = [e] →
     Resolve c T s = (let! v := resolve e in ret (Some v)) s) ∧
  (indexOf C T = [] →
     (∀ e, exactMatches s C T = [e] →
        Resolve c T s = (let! v := resolve e in ret (Some v)) s) ∧
     (exactMatches s C T = [] →
        match findSingleEntry (S p) p T s with
        | Ret (Some v) s' => Resolve c T s = Ret (Some v) s'
        | Ret None s' =>
          match similarMatches s C T with
          | e :: _ =>
              Resolve c T s =
              (run! warn (WarnSimilar T) in resolveAndConvert T e true) s'
          | [] => Resolve c T s = Ret None s'
          end
        | Panic q s' => Resolve c T s = Panic q s'
        | OutOfFuel => False
        end)).
Proof.
  intros Hwf HC Hp Hty. split; [intros e; by apply Resolve_index_one|].
  intros Hi. rewrite (Resolve_index_nil _ _ C) by done.
  rewrite (findSingleEntry_matches _ _ C) by done.
  split; [by intros e ->|]. intros ->. rewrite Hp. unfold searchUp.
  pose proof (wf_parent_lt _ _ _ _ Hwf HC Hp) as Hlt.
  rewrite (findSingleEntry_fuel s p T c (S p)) by (done || lia).
  pose proof (findSingleEntry_returns s p T (S p) Hwf) as Hret.
  destruct (findSingleEntry (S p) p T s) as [[v|] s'|q s'|]; try done.
  - by destruct (similarMatches s C T).
  - apply Hret; [lia | done].
Qed.

Lemma searchUp_parentSearch s c C T :
  wf s → containers s !! c = Some C →
  searchUp c (parent C) T s = parentSearch s C T.
Proof.
  intros Hwf HC. unfold searchUp, parentSearch.
  destruct (parent C) as [p|] eqn:Hp; [|done].
  pose proof (wf_parent_lt _ _ _ _ Hwf HC Hp) as Hlt.
  apply findSingleEntry_fuel; [done | lia | lia].
Qed.

(** Resolve when nothing local matches exactly: the parent chain first,
    then the first local similar match, coerced. *)
Lemma Resolve_no_exact s c C T :
  wf s → containers s !! c = Some C → typedRegistry s C →
  indexOf C T = [] → exactMatches s C T = [] →
  Resolve c T s =
  match parentSearch s C T with
  | Ret (Some v) s' => Ret (Some v) s'
  | Ret None s' =>
    match similarMatches s C T with
    | e :: _ => (run! warn (WarnSimilar T) in resolveAndConvert T e true) s'
    | [] => Ret None s'
    end
  | Panic q s' => Panic q s'
  | OutOfFuel => OutOfFuel
  end.
Proof.
  intros Hwf HC Hty Hi Hex. rewrite (Resolve_index_nil _ _ C) by done.
  rewrite (findSingleEntry_matches _ _ C) by done. rewrite Hex.
  by rewrite (searchUp_parentSearch _ _ C).
Qed.

Lemma PtrTo_neq T : PtrTo T ≠ T.
Proof. intros Heq. apply (f_equal rtype_depth) in Heq. simpl in Heq. lia. Qed.

(** Coercion of a nil reference to bare-value shape. *)
Lemma convert_nil T s :
  KindOf T ≠ Ptr → convert T (ValueOf (VPtr T None)) s = Ret None s.
Proof.
  intros HT. unfold convert; simpl.
  rewrite decide_False by apply PtrTo_neq.
  rewrite decide_False by (intros [_ ?]; done).
  rewrite decide_True by done.
  rewrite decide_False by (intros ?; done). done.
Qed.

(** C7: when Resolve falls back to a local similar match for a target type
    that is not a pointer type and the entry resolves to the nil pointer of
    type [*T], the coercion yields no value and Resolve returns not-found:
    no panic, no value. *)
Theorem nil_reference_is_miss s c C T e rest s1 s2 :
  wf s → containers s !! c = Some C → typedRegistry s C →
  indexOf C T = [] → exactMatches s C T = [] →
  similarMatches s C T = e :: rest →
  parentSearch s C T = Ret None s1 →
  KindOf T ≠ Ptr →
  resolve e (warned (WarnSimilar T) s1) = Ret (VPtr T None) s2 →
  resolveAndConvert T e true (warned (WarnSimilar T) s1) = Ret None s2 ∧
  Resolve c T s = Ret None s2.
Proof.
  intros Hwf HC Hty Hi Hex Hsim Hup HT Hres.
  assert (Hconv : resolveAndConvert T e true (warned (WarnSimilar T) s1)
                  = Ret None s2).
  { unfold resolveAndConvert, bind. rewrite Hres. simpl. by apply convert_nil. }
  split; [done|].
  rewrite (Resolve_no_exact _ _ C) by done. rewrite Hup, Hsim.
  unfold bind at 1, warn. exact Hconv.
Qed.

(** Coercion of a bare value to reference shape: its address when it has
    one, a fresh slot holding a copy otherwise. *)
Lemma convert_to_pointer D rv s :
  TypeOf (rv_val rv) = Some D → KindOf D ≠ Ptr →
  convert (PtrTo D) rv s =
  match rv_addr rv with
  | Some a => Ret (Some (VPtr D (Some a))) s
  | None =>
      Ret (Some (VPtr D (Some (next s))))
          (set_next (S (next s))
             (set_objects (<[next s := rv_val rv]> (objects s)) s))
  end.
Proof.
  intros HT HD. unfold convert. rewrite HT.
  rewrite decide_False by (intros Heq; by apply (PtrTo_neq D)).
  rewrite decide_True by done. simpl.
  rewrite decide_False by (intros Hne; by apply Hne).
  unfold CanAddr. by destruct (rv_addr rv) as [a|].
Qed.

Lemma resolve_value s e E :
  entries s !! e = Some E → factory E = None → resolve e s = Ret (value E) s.
Proof. intros He Hf. unfold resolve. by rewrite He, Hf. Qed.

Lemma AssignableTo_refl T : AssignableTo T T = true.
Proof. unfold AssignableTo. by rewrite bool_decide_eq_true_2. Qed.

Lemma forEach_app {A} (f : A → M unit) l1 l2 s :
  forEach f (l1 ++ l2) s = (run! forEach f l1 in forEach f l2) s.
Proof.
  revert s. induction l1 as [|x l1 IH]; intros s; simpl.
  - done.
  - unfold bind at 1 3. unfold bind at 1.
    destruct (f x s) as [[] s'| |]; [|done|done]. by rewrite IH.
Qed.

Lemma forEach_unexported inject c S l flds s :
  Forall (λ f, Exported f = false) flds →
  forEach (injectField inject c S (Some l)) flds s = Ret tt s.
Proof.
  induction 1 as [|f flds Hf _ IH]; simpl; [done|].
  unfold bind, injectField. rewrite Hf. simpl. exact IH.
Qed.

(** C6: Inject into a pointer to a struct whose one exported field has type
    [*D], on a container that has neither an index entry nor an exact match
    for [*D], whose parent chain misses, and whose first similar match is a
    value entry holding a bare [D]: Inject returns, after a warning, with
    the field pointing to a freshly allocated slot that holds a copy of the
    value. The coercion itself takes the address of an addressable Value
    and copies any other into a fresh slot. *)
Theorem inject_pointer_field s s1 c C D ST l fs pre fld post e rest E fuel :
  wf s → containers s !! c = Some C → typedRegistry s C →
  indexOf C (PtrTo D) = [] → exactMatches s C (PtrTo D) = [] →
  parentSearch s C (PtrTo D) = Ret None s1 →
  similarMatches s C (PtrTo D) = e :: rest →
  entries s1 !! e = Some E → factory E = None →
  TypeOf (value E) = Some D → KindOf D ≠ Ptr →
  KindOf ST = Struct → fieldsOf ST = pre ++ fld :: post →
  Forall (λ f, Exported f = false) pre →
  Forall (λ f, Exported f = false) post →
  FieldType fld = PtrTo D → Exported fld = true →
  objects s1 !! l = Some (VStruct ST fs) → l < next s1 →
  Inject (S fuel) c (VPtr ST (Some l)) s =
    Ret tt
      (set_objects
         (<[l := VStruct ST (assignField (FieldName fld)
                              (VPtr D (Some (next s1))) fs)]>
            (<[next s1 := value E]> (objects s1)))
         (set_next (S (next s1)) (warned (WarnSimilar (PtrTo D)) s1)))
  ∧ ∀ rv s0, TypeOf (rv_val rv) = Some D →
      convert (PtrTo D) rv s0 =
      match rv_addr rv with
      | Some a => Ret (Some (VPtr D (Some a))) s0
      | None =>
          Ret (Some (VPtr D (Some (next s0))))
              (set_next (S (next s0))
                 (set_objects (<[next s0 := rv_val rv]> (objects s0)) s0))
      end.
Proof.
  intros Hwf HC Hty Hi Hex Hup Hsim He Hf HT HD HS Hflds Hpre Hpost Hft Hexp
    Hl Hlt.
  split; [|intros; by apply convert_to_pointer].
  assert (HR : Resolve c (PtrTo D) s =
    Ret (Some (VPtr D (Some (next s1))))
        (set_next (S (next s1))
           (set_objects (<[next s1 := value E]> (objects s1))
              (warned (WarnSimilar (PtrTo D)) s1)))).
  { rewrite (Resolve_no_exact _ _ C) by done. rewrite Hup, Hsim.
    unfold bind at 1, warn. fold (warned (WarnSimilar (PtrTo D)) s1).
    unfold resolveAndConvert, bind.
    rewrite (resolve_value _ _ E) by done. simpl.
    rewrite convert_to_pointer by done. done. }
  change (Inject (S fuel) c (VPtr ST (Some l)) s) with
    ((if decide (KindOf ST ≠ Struct) then throw PanicInjectTarget
      else forEach (injectField (Inject fuel c) c ST (Some l)) (fieldsOf ST)) s).
  rewrite decide_False by (intros Hne; by apply Hne).
  rewrite Hflds, forEach_app. unfold bind at 1.
  rewrite forEach_unexported by done. cbn [forEach]. unfold bind at 1.
  unfold injectField at 1. rewrite Hexp. cbn [negb]. unfold bind at 1.
  rewrite Hft, HR. unfold setField. cbn [TypeOf].
  rewrite AssignableTo_refl. cbn [objects set_next set_objects].
  rewrite lookup_insert_ne by lia. rewrite Hl.
  rewrite forEach_unexported by done. done.
Qed.

(** *** Searches do not look at unrelated containers *)

Lemma resolve_set_containers cs l s :
  resolve l (set_containers cs s) = mapStore (set_containers cs) (resolve l s).
Proof.
  unfold resolve, callFactory; simpl. destruct (entries s !! l) as [e|]; [|done].
  destruct (factory e) as [f|]; [|done].
  destruct (lifecycle e); [destruct (once e); [done|]|]; by destruct (f _).
Qed.

Lemma convert_set_containers cs T rv s :
  convert T rv (set_containers cs s) = mapStore (set_containers cs) (convert T rv s).
Proof.
  unfold convert. destruct (TypeOf _); [|done].
  repeat case_decide; try done.
  - by destruct (CanAddr rv).
  - destruct (rv_val rv) as [|? [q|]| | |]; try done. simpl.
    by destruct (objects s !! q).
Qed.

Lemma resolveAndConvert_set_containers cs T e b s :
  resolveAndConvert T e b (set_containers cs s) =
  mapStore (set_containers cs) (resolveAndConvert T e b s).
Proof.
  unfold resolveAndConvert, bind. rewrite resolve_set_containers.
  destruct (resolve e s) as [v s'|q s'|]; simpl; [|done|done].
  destruct (negb b); [done | apply convert_set_containers].
Qed.

Lemma findSingleEntry_set_containers cs s p T fuel :
  wf s → (∀ c', c' ≤ p → cs !! c' = containers s !! c') →
  findSingleEntry fuel p T (set_containers cs s) =
  mapStore (set_containers cs) (findSingleEntry fuel p T s).
Proof.
  intros Hwf. revert p. induction fuel as [|fuel IH]; intros p Hcs; [done|].
  destruct (containers s !! p) as [C|] eqn:HC.
  - assert (HC' : containers (set_containers cs s) !! p = Some C)
      by (simpl; rewrite Hcs by lia; done).
    rewrite (findSingleEntry_unfold _ _ _ _ C HC'),
            (findSingleEntry_unfold _ _ _ _ C HC).
    cbn [entries set_containers].
    destruct (scan _ _ _ _ _) as [q|[[e|] sim]]; [done| |].
    + unfold bind. rewrite resolve_set_containers.
      by destruct (resolve e s).
    + assert (searchUp fuel (parent C) T (set_containers cs s) =
              mapStore (set_containers cs) (searchUp fuel (parent C) T s)) as ->.
      { destruct (parent C) as [p'|] eqn:Hp; [|done]. simpl. apply IH.
        pose proof (wf_parent_lt _ _ _ _ Hwf HC Hp) as Hlt. intros c' Hc'. apply Hcs. lia. }
      destruct (searchUp fuel (parent C) T s) as [[v|] s'|q s'|]; try done.
      simpl. destruct sim as [e|]; [|done].
      unfold bind, warn.
      apply (resolveAndConvert_set_containers cs T e true
               (set_warnings (WarnSimilar T :: warnings s') s')).
  - simpl. unfold bind, getContainer. simpl. rewrite Hcs by lia.
    by rewrite HC.
Qed.

Lemma rangeOrder_empty : rangeOrder ∅ = [].
Proof.
  apply Permutation_nil_r. rewrite rangeOrder_perm.
  by rewrite map_to_list_empty.
Qed.

(** C9: Clear on a scoped container returns and replaces only that
    container's two maps by empty ones: the parent's container is
    unchanged. Afterwards, through the cleared container, Get with any
    handle of the parent resolves the parent's entry, Resolve of any type
    is the parent's own search as it was before the call, and a type that
    exactly one entry of the parent matches resolves to that entry. *)
Theorem clear_keeps_parent s c C p P :
  wf s → containers s !! c = Some C → parent C = Some p →
  containers s !! p = Some P →
  let C' := {| registry := ∅; typeRegistry := ∅; parent := Some p |} in
  let s' := set_containers (<[c := C']> (containers s)) s in
  Clear c s = Ret tt s' ∧
  containers s' !! p = Some P ∧
  (∀ h e, registry P !! h = Some e → Get c (Some h) s' = resolve e s') ∧
  (∀ T, Resolve c T s' =
        mapStore (set_containers (containers s'))
                 (findSingleEntry (S p) p T s)) ∧
  (∀ T e, typedRegistry s P → exactMatches s P T = [e] →
     Resolve c T s' = (let! v := resolve e in ret (Some v)) s').
Proof.
  intros Hwf HC Hp HP C' s'.
  pose proof (wf_parent_lt _ _ _ _ Hwf HC Hp) as Hlt.
  assert (HClear : Clear c s = Ret tt s').
  { unfold Clear, bind, getContainer. rewrite HC. subst s' C'. by rewrite Hp. }
  assert (Hwf' : wf s').
  { pose proof (Clear_ok c s Hwf) as [Hw _]. by rewrite HClear in Hw. }
  assert (HC' : containers s' !! c = Some C') by apply lookup_insert_eq.
  assert (HP' : containers s' !! p = Some P).
  { subst s'. simpl. rewrite lookup_insert_ne by lia. done. }
  assert (Hsearch : ∀ T, Resolve c T s' = findSingleEntry (S p) p T s').
  { intros T. rewrite (Resolve_index_nil _ _ C') by done.
    rewrite (findSingleEntry_matches _ _ C') by (done || by intros h e).
    unfold exactMatches, similarMatches. cbn [registry C'].
    rewrite rangeOrder_empty. cbn [fmap list_fmap List.filter].
    rewrite (searchUp_parentSearch _ _ C') by done.
    unfold parentSearch. cbn [parent C'].
    by destruct (findSingleEntry (S p) p T s') as [[v|] s1|q s1|]. }
  repeat split; try done.
  - intros h e Hh. unfold Get, bind.
    destruct c as [|c0]; [lia|].
    change (getEntry (S (S c0)) (S c0) h s') with
      ((let! C0 := getContainer (S c0) in
        match registry C0 !! h with
        | Some e => ret (Some e)
        | None => match parent C0 with
                  | Some p => getEntry (S c0) p h
                  | None => ret None
                  end
        end) s').
    unfold bind, getContainer. rewrite HC'. cbn [registry parent C'].
    rewrite lookup_empty. simpl. unfold bind, getContainer.
    rewrite HP', Hh. done.
  - intros T. rewrite Hsearch. apply findSingleEntry_set_containers; [done|].
    intros c' Hc'. subst s'. cbn [containers set_containers].
    rewrite lookup_insert_ne by lia. done.
  - intros T e Hty Hex. rewrite Hsearch.
    rewrite (findSingleEntry_matches _ _ P) by done.
    change (exactMatches s' P T) with (exactMatches s P T). by rewrite Hex.
Qed.

(** *** Lookup by handle *)

Lemma NewToken_eq T name s :
  NewToken T name s =
  match tokenKeyFor T name with
  | Some key => allocKey (KToken T key) s
  | None => Panic PanicTokenNilInterface s
  end.
Proof.
  unfold NewToken, tokenKeyFor, bind.
  destruct name as [|n0 ?]; [|case_decide; [done|]];
    (destruct (typeOfZero T) as [typ|]; simpl; [|done]); by case_decide.
Qed.

Lemma getEntry_local fuel c C tok e s :
  containers s !! c = Some C → registry C !! tok = Some e →
  getEntry (S fuel) c tok s = Ret (Some e) s.
Proof.
  intros HC Htok. simpl. unfold bind, getContainer. by rewrite HC, Htok.
Qed.

Lemma getEntry_absent fuel c tok s :
  wf s → is_Some (containers s !! c) → c < fuel →
  (∀ c' C', containers s !! c' = Some C' → registry C' !! tok = None) →
  getEntry fuel c tok s = Ret None s.
Proof.
  intros Hwf HC Hc Habs. revert c HC Hc.
  induction fuel as [|fuel IH]; intros c [C HC] Hc; [lia|].
  simpl. unfold bind, getContainer. rewrite HC, (Habs _ _ HC).
  destruct (parent C) as [p|] eqn:Hp; [|done].
  apply IH; [by eapply wf_parent_alloc|].
  pose proof (wf_parent_lt _ _ _ _ Hwf HC Hp). lia.
Qed.

Lemma getEntry_found fuel c tok e s s' :
  getEntry fuel c tok s = Ret (Some e) s' →
  ∃ c' C', containers s !! c' = Some C' ∧ registry C' !! tok = Some e.
Proof.
  revert c. induction fuel as [|fuel IH]; intros c; simpl; [done|].
  unfold bind, getContainer. destruct (containers s !! c) as [C|] eqn:HC;
    [|done].
  destruct (registry C !! tok) as [e'|] eqn:Htok.
  - intros [= -> _]. eauto.
  - destruct (parent C); [apply IH | done].
Qed.

(** C10: two NewToken calls with the same type and name yield two
    different handles with the same key string. After the first is bound
    to [v] in a container, Get with the first returns [v], Get with the
    second panics with not-found, Find with the second reports absence, and
    no handle but the first retrieves the new entry. *)
Theorem token_identity T name v c s t1 s1 t2 s2 :
  wf s → is_Some (containers s !! c) →
  NewToken T name s = Ret t1 s1 → NewToken T name s1 = Ret t2 s2 →
  ∃ s3 e key,
    Register c [Bind t1 v] s2 = Ret tt s3 ∧
    t1 ≠ t2 ∧
    keys s3 !! t1 = Some (KToken T key) ∧
    keys s3 !! t2 = Some (KToken T key) ∧
    getEntry (S c) c t1 s3 = Ret (Some e) s3 ∧
    Get c (Some t1) s3 = Ret v s3 ∧
    Get c (Some t2) s3 = Panic (PanicNotFound t2) s3 ∧
    Find t2 c s3 = Ret None s3 ∧
    ∀ h, getEntry (S c) c h s3 = Ret (Some e) s3 → h = t1.
Proof.
  intros Hwf [C HC] H1 H2.
  assert (Hwf1 : wf s1).
  { pose proof (NewToken_ok T name s Hwf) as [Hw _]. by rewrite H1 in Hw. }
  assert (Hwf2 : wf s2).
  { pose proof (NewToken_ok T name s1 Hwf1) as [Hw _]. by rewrite H2 in Hw. }
  rewrite NewToken_eq in H1, H2.
  destruct (tokenKeyFor T name) as [key|]; [|done].
  unfold allocKey in H1. injection H1 as <- <-.
  unfold allocKey in H2. simpl in H2. injection H2 as <- <-.
  set (n := next s) in *.
  set (s2 := set_next (S (S n))
               (set_keys (<[S n := KToken T key]>
                            (<[n := KToken T key]> (keys s))) s)).
  change (wf s2) in Hwf2.
  assert (Hk1 : keys s2 !! n = Some (KToken T key)).
  { simpl. rewrite lookup_insert_ne by lia. by rewrite lookup_insert_eq. }
  assert (Hk2 : keys s2 !! S n = Some (KToken T key)).
  { simpl. by rewrite lookup_insert_eq. }
  set (E := {| value := v; factory := None; depType := typeOfZero T;
               lifecycle := Singleton; once := false |}).
  set (C3 := {| registry := <[n := S (S n)]> (registry C);
                typeRegistry :=
                  match typeOfZero T with
                  | Some typ =>
                      <[typ := default [] (typeRegistry C !! typ)
                               ++ [S (S n)]]> (typeRegistry C)
                  | None => typeRegistry C
                  end;
                parent := parent C |}).
  set (s3 := set_containers (<[c := C3]> (containers s))
               (set_next (S (S (S n)))
                  (set_entries (<[S (S n) := E]> (entries s)) s2))).
  assert (HR : Register c [Bind n v] s2 = Ret tt s3).
  { simpl. unfold bind at 1. unfold registerTo, bind, tokenType.
    cbn [token Bind]. rewrite Hk1. unfold getContainer.
    cbn [containers s2 set_next set_keys]. rewrite HC. done. }
  assert (Hwf3 : wf s3).
  { pose proof (Register_ok c [Bind n v] s2 Hwf2) as [Hw _].
    by rewrite HR in Hw. }
  assert (HC3 : containers s3 !! c = Some C3) by apply lookup_insert_eq.
  assert (Hreg : ∀ c' C' h e', containers s3 !! c' = Some C' →
            registry C' !! h = Some e' →
            (h = n ∧ e' = S (S n)) ∨ (h < n ∧ e' < n)).
  { intros c' C' h e'. cbn [containers s3 set_containers].
    destruct (decide (c = c')) as [<-|Hne].
    - rewrite lookup_insert_eq. intros [= <-]. cbn [registry C3].
      destruct (decide (n = h)) as [<-|Hneh].
      + rewrite lookup_insert_eq. intros [= <-]. by left.
      + rewrite lookup_insert_ne by done. intros Hh. right.
        by apply (wf_registry _ Hwf _ _ _ _ HC Hh).
    - rewrite lookup_insert_ne by done. intros HC' Hh. right.
      by apply (wf_registry _ Hwf _ _ _ _ HC' Hh). }
  assert (Hnone : getEntry (S c) c (S n) s3 = Ret None s3).
  { apply getEntry_absent; [done | by eexists | lia |].
    intros c' C' HC'. destruct (registry C' !! S n) as [e'|] eqn:Hh; [|done].
    destruct (Hreg _ _ _ _ HC' Hh) as [[? _]|[? _]]; lia. }
  assert (Hloc : getEntry (S c) c n s3 = Ret (Some (S (S n))) s3).
  { apply (getEntry_local _ _ C3); [done|]. apply lookup_insert_eq. }
  exists s3, (S (S n)), key.
  split; [done|]. split; [lia|]. split; [done|]. split; [done|].
  split; [done|]. split; [|split; [|split]].
  - unfold Get, bind. rewrite Hloc. apply (resolve_value _ _ E); [|done].
    apply lookup_insert_eq.
  - unfold Get, bind. by rewrite Hnone.
  - unfold Find, bind. by rewrite Hnone.
  - intros h Hh. apply getEntry_found in Hh as (c' & C' & HC' & Hh).
    destruct (Hreg _ _ _ _ HC' Hh) as [[? _]|[_ ?]]; [done | lia].
Qed.

Lemma two_elements_length (l : list nat) x y :
  x ∈ l → y ∈ l → x ≠ y → 1 < length l.
Proof.
  intros Hx Hy Hne. destruct l as [|a [|b l]]; simpl; [|exfalso|lia].
  - by apply elem_of_nil in Hx.
  - apply list_elem_of_singleton in Hx, Hy. congruence.
Qed.

(** C2: when two different entries of one container's handle map have the
    same declared type [T], [Resolve T] on that container panics with the
    multiple-candidates error (an ambiguous registration) and leaves the
    store as it was, while Get with each of the two handles, which are
    different, resolves that handle's entry: its stored value for a value
    entry. *)
Theorem ambiguous_resolve_distinct_get s c C T h1 h2 e1 e2 E1 E2 :
  wf s → containers s !! c = Some C →
  registry C !! h1 = Some e1 → registry C !! h2 = Some e2 → e1 ≠ e2 →
  entries s !! e1 = Some E1 → entries s !! e2 = Some E2 →
  depType E1 = Some T → depType E2 = Some T →
  h1 ≠ h2 ∧
  (∃ n, 1 < n ∧ Resolve c T s = Panic (PanicMultipleCandidates T n) s ∧
        classify (PanicMultipleCandidates T n) = AmbiguousRegistration) ∧
  Get c (Some h1) s = resolve e1 s ∧
  Get c (Some h2) s = resolve e2 s ∧
  (factory E1 = None → Get c (Some h1) s = Ret (value E1) s) ∧
  (factory E2 = None → Get c (Some h2) s = Ret (value E2) s).
Proof.
  intros Hwf HC Hh1 Hh2 Hne He1 He2 Hd1 Hd2.
  assert (Hin1 : e1 ∈ indexOf C T).
  { apply (wf_indexed _ Hwf c C h1); [done | done |].
    unfold entryType. by rewrite He1. }
  assert (Hin2 : e2 ∈ indexOf C T).
  { apply (wf_indexed _ Hwf c C h2); [done | done |].
    unfold entryType. by rewrite He2. }
  assert (HG1 : Get c (Some h1) s = resolve e1 s).
  { unfold Get, bind. by rewrite (getEntry_local _ _ C h1 e1). }
  assert (HG2 : Get c (Some h2) s = resolve e2 s).
  { unfold Get, bind. by rewrite (getEntry_local _ _ C h2 e2). }
  assert (Hlen : 1 < length (indexOf C T))
    by (by apply (two_elements_length _ e1 e2)).
  split; [congruence|]. split.
  { exists (length (indexOf C T)). split; [done|].
    split; [|done]. by apply Resolve_index_many. }
  repeat split; try done.
  - intros Hf. rewrite HG1. by apply resolve_value.
  - intros Hf. rewrite HG2. by apply resolve_value.
Qed.

(** C8: Provide of a value without a type, which is the nil interface,
    panics with the cannot-register-nil error, an invalid registration, and
    leaves the store untouched. Provide of any other value on an allocated
    container returns; it allocates a key object whose key is made from the
    printed runtime type and a Singleton value entry holding the value with
    that type as declared type, puts the entry under the new handle and
    appends it to the index of that type, and leaves the other indexes and
    the parent as they were. In a well-formed store handle and entry are
    new. *)
Theorem Provide_spec c s :
  (∀ v, TypeOf v = None →
     v = VNil ∧ Provide c v s = Panic PanicProvideNil s ∧
     classify PanicProvideNil = InvalidRegistration) ∧
  (∀ v typ C, TypeOf v = Some typ → containers s !! c = Some C →
     let h := next s in
     let e := S (next s) in
     ∃ s' C', Provide c v s = Ret tt s' ∧
       keys s' !! h = Some (KProvided ("__provided__" +:+ TypeString typ)) ∧
       entries s' !! e = Some {| value := v; factory := None;
                                 depType := Some typ; lifecycle := Singleton;
                                 once := false |} ∧
       containers s' !! c = Some C' ∧
       registry C' = <[h := e]> (registry C) ∧
       indexOf C' typ = indexOf C typ ++ [e] ∧
       (∀ T, T ≠ typ → indexOf C' T = indexOf C T) ∧
       parent C' = parent C ∧
       (wf s → registry C !! h = None ∧ entries s !! e = None
               ∧ keys s !! h = None)).
Proof.
  split.
  - intros v Hv. by destruct v.
  - intros v typ C Hv HC h e. unfold Provide. rewrite Hv.
    unfold bind, allocKey, allocEntry, getContainer. simpl. rewrite HC. simpl.
    eexists _, _. split; [done|]. simpl.
    split; [by rewrite lookup_insert_eq|].
    split; [by rewrite lookup_insert_eq|].
    split; [by rewrite lookup_insert_eq|]. simpl.
    split; [done|]. split; [|split; [|split; [done|]]].
    + unfold indexOf at 1. simpl. by rewrite lookup_insert_eq.
    + intros T HT. unfold indexOf at 1. simpl.
      by rewrite lookup_insert_ne.
    + intros Hwf. repeat split.
      * destruct (registry C !! h) as [e'|] eqn:Hh; [|done].
        destruct (wf_registry _ Hwf _ _ _ _ HC Hh). subst h. lia.
      * destruct (entries s !! e) as [E|] eqn:He; [|done].
        pose proof (wf_entries _ Hwf _ (mk_is_Some _ _ He)). subst e. lia.
      * destruct (keys s !! h) as [k|] eqn:Hk; [|done].
        pose proof (wf_keys _ Hwf _ (mk_is_Some _ _ Hk)). subst h. lia.
Qed.

(** *** Lifecycles *)

Lemma resolveTimes_done n l s E f :
  entries s !! l = Some E → factory E = Some f → lifecycle E = Singleton →
  once E = true →
  resolveTimes n l s = (replicate n (Some (value E)), s).
Proof.
  intros He Hf Hl Ho. induction n as [|n IH]; simpl; [done|].
  unfold resolve. rewrite He, Hf, Hl, Ho. by rewrite IH.
Qed.

Lemma resolve_singleton_first s l E f :
  entries s !! l = Some E → factory E = Some f → lifecycle E = Singleton →
  once E = false →
  resolve l s =
  match f (count_occ Nat.eq_dec (invocations s) l) with
  | Some v =>
      Ret v (setEntry l {| value := v; factory := Some f;
                           depType := depType E; lifecycle := Singleton;
                           once := true |}
               (set_invocations (l :: invocations s) s))
  | None =>
      Panic PanicFactory
        (setEntry l {| value := value E; factory := Some f;
                       depType := depType E; lifecycle := Singleton;
                       once := true |}
           (set_invocations (l :: invocations s) s))
  end.
Proof.
  intros He Hf Hl Ho. unfold resolve, callFactory. rewrite He, Hf, Hl, Ho.
  by destruct (f _).
Qed.

(** C3: [n ≥ 1] calls of resolve on a Singleton factory entry that was
    not resolved before call the factory exactly once: the log of factory
    calls grows by this one entry. When that call returns [v], the entry
    stores [v] and is done, and all [n] calls return [v]; when it panics,
    the first call panics and the later ones return the value the entry
    already held, still without another call. *)
Theorem singleton_invoked_once s l E f n :
  entries s !! l = Some E → factory E = Some f → lifecycle E = Singleton →
  once E = false → 1 ≤ n →
  let k := count_occ Nat.eq_dec (invocations s) l in
  let rs := (resolveTimes n l s).1 in
  let s' := (resolveTimes n l s).2 in
  invocations s' = l :: invocations s ∧
  match f k with
  | Some v =>
      rs = replicate n (Some v) ∧
      ∃ E', entries s' !! l = Some E' ∧ value E' = v ∧ once E' = true
  | None => rs = None :: replicate (n - 1) (Some (value E))
  end.
Proof.
  intros He Hf Hl Ho Hn k rs s'. subst rs s'.
  destruct n as [|n]; [lia|]. cbn [resolveTimes]. rewrite Nat.sub_succ, Nat.sub_0_r.
  rewrite (resolve_singleton_first s l E f) by done. fold k.
  destruct (f k) as [v|].
  - erewrite resolveTimes_done;
      [|apply lookup_insert_eq|done|done|done].
    simpl. split; [done|]. split; [done|]. eexists.
    split; [apply lookup_insert_eq | done].
  - erewrite resolveTimes_done;
      [|apply lookup_insert_eq|done|done|done].
    done.
Qed.

Lemma replicate_snoc_cons {A} n (x : A) l :
  replicate n x ++ x :: l = x :: replicate n x ++ l.
Proof. induction n as [|n IH]; simpl; [done | by rewrite IH]. Qed.

(** C4: [n] calls of resolve on a Prototype factory entry call the factory
    [n] times: the log of factory calls grows by [n] entries for it, the
    i-th call returns the outcome of the factory's own i-th next call, and
    nothing is stored in the entry. *)
Theorem prototype_invoked_every_time s l E f n :
  entries s !! l = Some E → factory E = Some f → lifecycle E = Prototype →
  let k := count_occ Nat.eq_dec (invocations s) l in
  let rs := (resolveTimes n l s).1 in
  let s' := (resolveTimes n l s).2 in
  invocations s' = replicate n l ++ invocations s ∧
  rs = map f (seq k n) ∧
  entries s' = entries s.
Proof.
  intros He Hf Hl. simpl. revert s He.
  induction n as [|n IH]; intros s He; simpl; [done|].
  unfold resolve, callFactory. rewrite He, Hf, Hl.
  set (s1 := set_invocations (l :: invocations s) s).
  assert (Hk : count_occ Nat.eq_dec (invocations s1) l
               = S (count_occ Nat.eq_dec (invocations s) l)).
  { by apply count_occ_cons_eq. }
  destruct (IH s1 He) as (Hi & Hr & Hent). rewrite Hk in Hr.
  destruct (f _) as [v|]; destruct (resolveTimes n l s1) as [rs s2];
    simpl in *; rewrite Hi, Hr, replicate_snoc_cons; done.
Qed.

End theorems.

(** ** Further properties *)

#[local] Set Warnings "-clear-no-such-hyp".

Section more_theorems.
Context {env : Env}.

Lemma isSimilarType_iff T V :
  isSimilarType T V = true ↔
  (T = PtrTo V ∧ KindOf V ≠ Ptr) ∨ (V = PtrTo T ∧ KindOf T ≠ Ptr).
Proof.
  unfold isSimilarType. split.
  - repeat case_decide; try done; intros HE%bool_decide_eq_true.
    + left. destruct T; simplify_eq/=. naive_solver.
    + right. destruct V; simplify_eq/=. naive_solver.
  - intros [[-> HV] | [-> HT]].
    + rewrite decide_False by apply PtrTo_neq.
      rewrite decide_True by done. by apply bool_decide_eq_true.
    + rewrite decide_False by (intros E; symmetry in E; by apply PtrTo_neq in E).
      rewrite decide_False by naive_solver.
      rewrite decide_True by done. by apply bool_decide_eq_true.
Qed.

(** X1 (isSimilarType): two types are similar exactly when one is the
    pointer type of the other and that other is not itself a pointer type;
    the relation is symmetric, and no type is similar to itself. *)
Theorem isSimilarType_spec T V :
  (isSimilarType T V = true ↔
     (T = PtrTo V ∧ KindOf V ≠ Ptr) ∨ (V = PtrTo T ∧ KindOf T ≠ Ptr))
  ∧ isSimilarType T V = isSimilarType V T
  ∧ isSimilarType T T = false.
Proof.
  split; [apply isSimilarType_iff|]. split.
  - apply eq_true_iff_eq. rewrite !isSimilarType_iff. tauto.
  - unfold isSimilarType. by rewrite decide_True.
Qed.

Lemma Provide_eq s c C v typ :
  containers s !! c = Some C → TypeOf v = Some typ →
  Provide c v s =
  Ret tt
    (set_containers
       (<[c := withEntry C (next s) (S (next s)) (Some typ)]> (containers s))
       (set_next (S (S (next s)))
          (set_entries
             (<[S (next s) := {| value := v; factory := None;
                                 depType := Some typ; lifecycle := Singleton;
                                 once := false |}]> (entries s))
             (set_keys
                (<[next s := KProvided ("__provided__" +:+ TypeString typ)]>
                   (keys s)) s)))).
Proof.
  intros HC Hv. unfold Provide. rewrite Hv.
  unfold bind, allocKey, allocEntry, getContainer, putContainer. simpl.
  rewrite HC. reflexivity.
Qed.

Lemma Provide_Resolve_index s c C v typ :
  containers s !! c = Some C → TypeOf v = Some typ → indexOf C typ = [] →
  ∃ s', Provide c v s = Ret tt s' ∧ Resolve c typ s' = Ret (Some v) s'.
Proof.
  intros HC Hv Hnil. eexists. split; [by apply Provide_eq|].
  set (s' := set_containers _ _).
  assert (HC' : containers s' !! c
                = Some (withEntry C (next s) (S (next s)) (Some typ)))
    by (simpl; by rewrite lookup_insert_eq).
  assert (Hidx : indexOf (withEntry C (next s) (S (next s)) (Some typ)) typ
                 = [S (next s)]).
  { rewrite indexOf_withEntry, decide_True by done. by rewrite Hnil. }
  rewrite (Resolve_index_one _ _ _ _ _ HC' Hidx). unfold bind.
  rewrite (resolve_value s' (S (next s))
             {| value := v; factory := None; depType := Some typ;
                lifecycle := Singleton; once := false |}); [done| |done].
  simpl. by rewrite lookup_insert_eq.
Qed.

(** X2 (Provide, then Resolve): after Provide(v) on a container whose type
    index had no entry for the type of v, Resolve of that type returns v
    and leaves the store as it is; when the index already had n >= 1
    entries, Resolve panics with "multiple candidates" and the count
    n + 1. *)
Theorem Provide_then_Resolve s c C v typ :
  containers s !! c = Some C → TypeOf v = Some typ →
  ∃ s', Provide c v s = Ret tt s' ∧
    (indexOf C typ = [] → Resolve c typ s' = Ret (Some v) s') ∧
    (indexOf C typ ≠ [] →
       Resolve c typ s' =
       Panic (PanicMultipleCandidates typ (S (length (indexOf C typ)))) s').
Proof.
  intros HC Hv. eexists. split; [by apply Provide_eq|].
  set (s' := set_containers _ _).
  assert (HC' : containers s' !! c
                = Some (withEntry C (next s) (S (next s)) (Some typ)))
    by (simpl; by rewrite lookup_insert_eq).
  assert (Hidx : indexOf (withEntry C (next s) (S (next s)) (Some typ)) typ
                 = indexOf C typ ++ [S (next s)])
    by (rewrite indexOf_withEntry; by rewrite decide_True).
  split.
  - intros Hnil. rewrite Hnil in Hidx.
    rewrite (Resolve_index_one _ _ _ _ _ HC' Hidx).
    unfold bind.
    rewrite (resolve_value s' (S (next s))
               {| value := v; factory := None; depType := Some typ;
                  lifecycle := Singleton; once := false |});
      [done| |done].
    simpl. by rewrite lookup_insert_eq.
  - intros Hne. erewrite Resolve_index_many; [|exact HC'|].
    + rewrite Hidx, length_app. simpl. by rewrite Nat.add_1_r.
    + rewrite Hidx, length_app. simpl.
      destruct (indexOf C typ); [done|simpl; lia].
Qed.

Lemma registerTo_eq s c C r T key :
  containers s !! c = Some C → keys s !! token r = Some (KToken T key) →
  let E := {| value := match regFactory r with
                       | Some _ => VNil | None => regValue r end;
              factory := regFactory r; depType := typeOfZero T;
              lifecycle := regLifecycle r; once := false |} in
  registerTo r c s =
  Ret tt
    (set_containers
       (<[c := withEntry C (token r) (next s) (typeOfZero T)]> (containers s))
       (set_next (S (next s))
          (set_entries (<[next s := E]> (entries s)) s))).
Proof.
  intros HC Hk E. unfold registerTo, bind, tokenType, getContainer,
    allocEntry, putContainer. rewrite Hk. simpl. rewrite HC.
  unfold withEntry, indexOf. by destruct (typeOfZero T).
Qed.

(** X3 (Register on a token that is bound already): binding one token of
    a non-interface type T twice puts two entries in the index of T. The
    handle reaches the second only: Get returns the second value, in a
    well-formed store no handle reaches the first entry any more, and
    Resolve(T) panics with "multiple candidates". *)
Theorem rebinding_a_token s c C t T key v1 v2 :
  containers s !! c = Some C → keys s !! t = Some (KToken T key) →
  KindOf T ≠ Interface →
  ∃ s' C' e1 e2,
    Register c [Bind t v1; Bind t v2] s = Ret tt s' ∧
    containers s' !! c = Some C' ∧
    registry C' !! t = Some e2 ∧
    indexOf C' T = indexOf C T ++ [e1; e2] ∧
    e1 ≠ e2 ∧
    (wf s → ∀ h, registry C' !! h ≠ Some e1) ∧
    Get c (Some t) s' = Ret v2 s' ∧
    Resolve c T s' =
      Panic (PanicMultipleCandidates T (2 + length (indexOf C T))) s'.
Proof.
  intros HC Hk HT.
  assert (Hz : typeOfZero T = Some T) by (unfold typeOfZero; by rewrite decide_False).
  pose proof (registerTo_eq s c C (Bind t v1) T key HC Hk) as H1.
  simpl in H1. rewrite Hz in H1.
  set (s1 := set_containers _ _) in H1.
  set (C1 := withEntry C t (next s) (Some T)) in *.
  assert (HC1 : containers s1 !! c = Some C1) by (simpl; by rewrite lookup_insert_eq).
  pose proof (registerTo_eq s1 c C1 (Bind t v2) T key HC1 Hk) as H2.
  simpl in H2. rewrite Hz in H2.
  set (s2 := set_containers _ _) in H2.
  set (C2 := withEntry C1 t (S (next s)) (Some T)) in *.
  assert (HC2 : containers s2 !! c = Some C2) by (simpl; by rewrite lookup_insert_eq).
  assert (Hidx : indexOf C2 T = indexOf C T ++ [next s; S (next s)]).
  { unfold C2, C1. rewrite !indexOf_withEntry, !decide_True by done.
    by rewrite <- app_assoc. }
  exists s2, C2, (next s), (S (next s)).
  split.
  { cbn [Register]. unfold bind at 1. rewrite H1.
    unfold bind at 1. rewrite H2. reflexivity. }
  split; [done|]. split; [simpl; by rewrite lookup_insert_eq|].
  split; [done|]. split; [lia|]. split.
  { intros Hwf h Hh. simpl in Hh.
    destruct (decide (h = t)) as [->|Hne].
    - rewrite lookup_insert_eq in Hh. simplify_eq. lia.
    - rewrite !lookup_insert_ne in Hh by done.
      destruct (wf_registry _ Hwf _ _ _ _ HC Hh). lia. }
  split.
  - unfold Get, bind.
    rewrite (getEntry_local c c C2 t (S (next s)) s2 HC2)
      by (simpl; by rewrite lookup_insert_eq).
    rewrite (resolve_value s2 (S (next s))
               {| value := v2; factory := None; depType := Some T;
                  lifecycle := Singleton; once := false |}); [done| |done].
    simpl. by rewrite lookup_insert_eq.
  - rewrite (Resolve_index_many _ _ _ _ HC2); rewrite Hidx, length_app; simpl.
    + by rewrite Nat.add_comm.
    + lia.
Qed.

(** X4 (Register): registering a list of registrations is registering
    its first part and then the rest; a panic in the first part leaves the
    rest unregistered. *)
Theorem Register_app c rs1 rs2 s :
  Register c (rs1 ++ rs2) s = (run! Register c rs1 in Register c rs2) s.
Proof.
  revert s. induction rs1 as [|r rs1 IH]; intros s; [done|].
  cbn [app Register]. unfold bind in *.
  destruct (registerTo r c s) as [[] s1|p s1|]; [|done|done].
  apply IH.
Qed.

Lemma getEntry_parent s c C tok :
  wf s → containers s !! c = Some C → registry C !! tok = None →
  getEntry (S c) c tok s =
  match parent C with
  | Some p => getEntry (S p) p tok s
  | None => Ret None s
  end.
Proof.
  intros Hwf HC Hr.
  change (getEntry (S c) c tok s) with
    ((let! C := getContainer c in
      match registry C !! tok with
      | Some e => ret (Some e)
      | None => match parent C with
                | Some p => getEntry c p tok
                | None => ret None
                end
      end) s).
  unfold bind at 1, getContainer.
  rewrite HC, Hr. destruct (parent C) as [p|] eqn:Hp; [|done].
  apply getEntry_fuel; [done| |lia]. by eapply wf_parent_lt.
Qed.

(** X5 (Get, Find, getEntry): in a well-formed store, a handle that the
    container's own map does not have is looked up in the parent: Get and
    Find return what they return on the parent; at a root Get panics with
    "dependency not found" and Find returns false, the store unchanged. *)
Theorem Get_falls_back_to_parent s c C tok :
  wf s → containers s !! c = Some C → registry C !! tok = None →
  Get c (Some tok) s =
    match parent C with
    | Some p => Get p (Some tok) s
    | None => Panic (PanicNotFound tok) s
    end
  ∧ Find tok c s =
    match parent C with
    | Some p => Find tok p s
    | None => Ret None s
    end.
Proof.
  intros Hwf HC Hr. unfold Get, Find, bind.
  rewrite (getEntry_parent s c C tok Hwf HC Hr).
  by destruct (parent C).
Qed.

(** X6 (NewScoped, Parent): on an existing parent in a well-formed store,
    NewScoped returns a container at a fresh address whose Parent is the
    one given, leaves every other container as it was, and Get and Find
    through the new scope are those of the parent. *)
Theorem NewScoped_inherits s p :
  wf s → is_Some (containers s !! p) →
  ∃ c s', NewScoped (Some p) s = Ret c s' ∧
    containers s !! c = None ∧
    Parent c s' = Ret (Some p) s' ∧
    (∀ q, q ≠ c → containers s' !! q = containers s !! q) ∧
    (∀ tok, Get c (Some tok) s' = Get p (Some tok) s') ∧
    (∀ tok, Find tok c s' = Find tok p s').
Proof.
  intros Hwf [P HP].
  pose proof (NewScoped_ok (Some p) s Hwf) as [Hwf' _].
  unfold NewScoped, bind, getContainer, allocContainer in *.
  rewrite HP in *. simpl in Hwf'.
  set (C := {| registry := ∅; typeRegistry := ∅; parent := Some p |}) in *.
  set (s' := set_next _ _) in *.
  assert (HC : containers s' !! next s = Some C)
    by (simpl; by rewrite lookup_insert_eq).
  assert (Hfresh : containers s !! next s = None).
  { destruct (containers s !! next s) as [C0|] eqn:E; [|done].
    destruct (wf_containers _ Hwf _ _ E). lia. }
  exists (next s), s'. split; [done|]. split; [done|]. split.
  { unfold Parent, bind, getContainer. by rewrite HC. }
  split; [intros q Hq; simpl; by rewrite lookup_insert_ne|].
  split; intros tok; unfold Get, Find, bind;
    by rewrite (getEntry_parent s' (next s) C tok Hwf' HC (lookup_empty _)).
Qed.

(** X7 (Clear on a root): after Clear the entries and keys are still in
    the store and the other containers are untouched, but through the
    cleared root every Resolve returns not-found, every ResolveAll returns
    the empty list, every Get panics with "dependency not found" and
    every Find returns false. *)
Theorem Clear_root_forgets s c C :
  containers s !! c = Some C → parent C = None →
  ∃ s', Clear c s = Ret tt s' ∧
    entries s' = entries s ∧ keys s' = keys s ∧
    (∀ q, q ≠ c → containers s' !! q = containers s !! q) ∧
    (∀ T, Resolve c T s' = Ret None s') ∧
    (∀ T, ResolveAll c T s' = Ret [] s') ∧
    (∀ tok, Get c (Some tok) s' = Panic (PanicNotFound tok) s') ∧
    (∀ tok, Find tok c s' = Ret None s').
Proof.
  intros HC Hp. unfold Clear, bind, getContainer, putContainer. rewrite HC, Hp.
  set (C' := {| registry := ∅; typeRegistry := ∅; parent := None |}).
  set (s' := set_containers _ _).
  assert (HC' : containers s' !! c = Some C')
    by (simpl; by rewrite lookup_insert_eq).
  exists s'. split; [done|]. split; [done|]. split; [done|].
  split; [intros q Hq; simpl; by rewrite lookup_insert_ne|].
  assert (Hg : ∀ tok, getEntry (S c) c tok s' = Ret None s').
  { intros tok. cbn [getEntry]. unfold bind, getContainer. by rewrite HC'. }
  split.
  { intros T. rewrite (Resolve_index_nil _ _ _ _ HC') by done.
    rewrite (findSingleEntry_unfold _ _ _ _ _ HC'). simpl.
    by rewrite rangeOrder_empty. }
  split.
  { intros T. unfold ResolveAll. unfold bind at 1, getContainer. rewrite HC'.
    cbn [typeRegistry C']. rewrite lookup_empty.
    unfold bind at 1. unfold ret at 1. cbn [fst snd collectEntriesDirectly].
    unfold bind, getContainer. rewrite HC'. cbn [registry parent C'].
    rewrite rangeOrder_empty. reflexivity. }
  split; intros tok; unfold Get, Find, bind; by rewrite Hg.
Qed.


(** X9 (Inject): when the first exported field cannot be resolved and its
    type is not a struct type, Inject panics with "could not resolve
    field", naming the field, its type and the struct; the store is the
    one the failed Resolve left. *)
Theorem Inject_unresolved_field s s1 c ST l pre fld post fuel :
  KindOf ST = Struct → fieldsOf ST = pre ++ fld :: post →
  Forall (λ f, Exported f = false) pre → Exported fld = true →
  KindOf (FieldType fld) ≠ Struct →
  Resolve c (FieldType fld) s = Ret None s1 →
  Inject (S fuel) c (VPtr ST (Some l)) s =
  Panic (PanicInjectField (FieldName fld) (FieldType fld) (Name ST)) s1.
Proof.
  intros HST Hfl Hpre Hex Hk Hres.
  cbn [Inject]. rewrite decide_False by (intros H; by apply H).
  rewrite Hfl, forEach_app. unfold bind at 1.
  rewrite (forEach_unexported _ _ _ _ _ _ Hpre).
  cbn [forEach]. unfold bind at 1. unfold injectField at 1.
  rewrite Hex. cbn [negb]. unfold bind at 1. rewrite Hres.
  by rewrite decide_False.
Qed.

(** X10 (Inject, nested struct): an exported field of a struct type that
    cannot be resolved is built in place: a zero struct is allocated,
    injected (it has no exported field here) and assigned to the field. *)
Theorem Inject_builds_struct_field s s1 c ST l fs pre fld post fuel :
  KindOf ST = Struct → fieldsOf ST = pre ++ fld :: post →
  Forall (λ f, Exported f = false) pre →
  Forall (λ f, Exported f = false) post →
  Exported fld = true → KindOf (FieldType fld) = Struct →
  Forall (λ f, Exported f = false) (fieldsOf (FieldType fld)) →
  Resolve c (FieldType fld) s = Ret None s1 →
  objects s1 !! l = Some (VStruct ST fs) → l < next s1 →
  Inject (S (S fuel)) c (VPtr ST (Some l)) s =
  Ret tt
    (set_objects
       (<[l := VStruct ST (assignField (FieldName fld)
                             (VStruct (FieldType fld) []) fs)]>
          (<[next s1 := VStruct (FieldType fld) []]> (objects s1)))
       (set_next (S (next s1)) s1)).
Proof.
  intros HST Hfl Hpre Hpost Hex Hk Hin Hres Hl Hlt.
  change (Inject (S (S fuel)) c (VPtr ST (Some l)) s) with
    ((if decide (KindOf ST ≠ Struct) then throw PanicInjectTarget
      else forEach (injectField (Inject (S fuel) c) c ST (Some l))
                   (fieldsOf ST)) s).
  rewrite decide_False by (intros H; by apply H).
  rewrite Hfl, forEach_app. unfold bind at 1.
  rewrite (forEach_unexported _ _ _ _ _ _ Hpre).
  cbn [forEach]. unfold bind at 1. unfold injectField at 1.
  rewrite Hex. cbn [negb]. unfold bind at 1. rewrite Hres.
  rewrite decide_True by done.
  unfold bind at 1, allocObject.
  unfold bind at 1.
  change (Inject (S fuel) c (VPtr (FieldType fld) (Some (next s1))))
    with (if decide (KindOf (FieldType fld) ≠ Struct)
          then throw PanicInjectTarget
          else forEach (injectField (Inject fuel c) c (FieldType fld)
                          (Some (next s1))) (fieldsOf (FieldType fld))).
  rewrite decide_False by (intros H; by apply H).
  rewrite (forEach_unexported _ _ _ _ _ _ Hin).
  unfold bind at 1, loadObject. cbn [objects set_next set_objects].
  rewrite lookup_insert_eq.
  unfold setField. cbn [TypeOf]. rewrite AssignableTo_refl.
  cbn [objects set_next set_objects].
  rewrite lookup_insert_ne by lia. rewrite Hl.
  by rewrite (forEach_unexported _ _ _ _ _ _ Hpost).
Qed.

Lemma tokenKeyFor_pointer T :
  KindOf T ≠ Interface → KindOf T ≠ Ptr →
  tokenKeyFor (PtrTo T) [] = tokenKeyFor T [].
Proof.
  intros Hi Hp. unfold tokenKeyFor, typeOfZero. simpl.
  rewrite (decide_False (P := KindOf T = Interface)) by done. simpl.
  by rewrite (decide_False (P := KindOf T = Ptr)) by done.
Qed.

(** X11 (NewToken, Token.String): a non-empty name is the token's string
    whatever the type; without a name, or with the empty name, an interface
    type panics and nothing is allocated; and NewToken[T]() and
    NewToken[*T]() are different tokens with the same string. *)
Theorem token_strings T name s :
  (∀ rest, name ≠ "" →
     ∃ t s', NewToken T (name :: rest) s = Ret t s' ∧
             TokenString t s' = Ret name s') ∧
  (KindOf T = Interface →
     NewToken T [] s = Panic PanicTokenNilInterface s ∧
     NewToken T [""] s = Panic PanicTokenNilInterface s) ∧
  (KindOf T ≠ Interface → KindOf T ≠ Ptr →
     ∃ t1 s1 t2 s2 key,
       NewToken T [] s = Ret t1 s1 ∧ NewToken (PtrTo T) [] s1 = Ret t2 s2 ∧
       t1 ≠ t2 ∧
       TokenString t1 s2 = Ret key s2 ∧ TokenString t2 s2 = Ret key s2).
Proof.
  split; [|split].
  - intros rest Hn. rewrite NewToken_eq. unfold tokenKeyFor.
    rewrite decide_True by done. unfold allocKey. do 2 eexists.
    split; [done|]. unfold TokenString. simpl. by rewrite lookup_insert_eq.
  - intros Hi. rewrite !NewToken_eq. unfold tokenKeyFor, typeOfZero.
    rewrite decide_True by done. done.
  - intros Hi Hp. rewrite NewToken_eq.
    destruct (tokenKeyFor T []) as [key|] eqn:Hkey.
    2: { unfold tokenKeyFor, typeOfZero in Hkey.
         by rewrite decide_False in Hkey by done. }
    unfold allocKey at 1. do 4 eexists. exists key.
    split; [done|]. rewrite NewToken_eq, tokenKeyFor_pointer, Hkey by done.
    unfold allocKey. split; [done|]. simpl. split; [lia|].
    unfold TokenString. simpl.
    rewrite lookup_insert_ne by lia. by rewrite !lookup_insert_eq.
Qed.

Lemma framed_collectIndexed es seen res s :
  framed s (collectIndexed es seen res s).
Proof.
  revert seen res s. induction es as [|e es IH]; intros seen res s.
  - apply framed_ret.
  - cbn [collectIndexed]. case_decide; [apply IH|].
    apply framed_bind; [apply framed_resolve|]. intros; apply IH.
Qed.

Lemma framed_declaredType e s : framed s (declaredType e s).
Proof. unfold declaredType. destruct (_ ≫= _); apply frame_refl. Qed.

Lemma declaredType_store e s t s' : declaredType e s = Ret t s' → s' = s.
Proof. unfold declaredType. destruct (_ ≫= _); naive_solver. Qed.

Lemma framed_collectScan T items seen res sim ex s :
  framed s (collectScan T items seen res sim ex s).
Proof.
  revert seen res sim ex s.
  induction items as [|[h e] items IH]; intros seen res sim ex s.
  - apply framed_ret.
  - cbn [collectScan]. case_decide; [apply IH|].
    apply framed_bind; [apply framed_declaredType|]. intros vt s1 _.
    destruct (isExactMatch T vt).
    + apply framed_bind; [apply framed_resolve|]. intros; apply IH.
    + destruct (isSimilarType T vt); apply IH.
Qed.

Lemma framed_convertSimilar T sim res s :
  framed s (convertSimilar T sim res s).
Proof.
  revert res s. induction sim as [|e sim IH]; intros res s.
  - apply framed_ret.
  - cbn [convertSimilar].
    apply framed_bind; [apply framed_resolveAndConvert|]. intros; apply IH.
Qed.

Lemma framed_collectEntriesDirectly fuel c T seen res s :
  framed s (collectEntriesDirectly fuel c T seen res s).
Proof.
  revert c seen res s. induction fuel as [|fuel IH]; intros c seen res s;
    [done|].
  cbn [collectEntriesDirectly].
  apply framed_bind; [apply framed_getContainer|]. intros C s1 _.
  apply framed_bind; [apply framed_collectScan|]. intros scanned s2 _.
  apply framed_bind.
  { destruct (parent C); [apply IH | apply framed_ret]. }
  intros up s3 _.
  destruct (negb _ && _); [|apply framed_ret].
  apply framed_bind; [apply framed_warn|]. intros _ s4 _.
  apply framed_bind; [apply framed_convertSimilar|]. intros; apply framed_ret.
Qed.

Lemma framed_ResolveAll c T s : framed s (ResolveAll c T s).
Proof.
  unfold ResolveAll.
  apply framed_bind; [apply framed_getContainer|]. intros C s1 _.
  apply framed_bind.
  { destruct (_ !! _); [apply framed_collectIndexed | apply framed_ret]. }
  intros indexed s2 _.
  apply framed_bind; [apply framed_collectEntriesDirectly|].
  intros; apply framed_ret.
Qed.

Lemma bind_returns {A B} (m : M A) (k : A → M B) s :
  m s ≠ OutOfFuel → (∀ a s', m s = Ret a s' → k a s' ≠ OutOfFuel) →
  bind m k s ≠ OutOfFuel.
Proof. unfold bind. destruct (m s); naive_solver. Qed.

Lemma collectIndexed_returns es seen res s :
  collectIndexed es seen res s ≠ OutOfFuel.
Proof.
  revert seen res s. induction es as [|e es IH]; intros seen res s; [done|].
  cbn [collectIndexed]. case_decide; [apply IH|].
  apply bind_returns; [apply resolve_returns|]. intros; apply IH.
Qed.

Lemma collectScan_returns T items seen res sim ex s :
  collectScan T items seen res sim ex s ≠ OutOfFuel.
Proof.
  revert seen res sim ex s.
  induction items as [|[h e] items IH]; intros seen res sim ex s; [done|].
  cbn [collectScan]. case_decide; [apply IH|].
  apply bind_returns.
  { unfold declaredType. by destruct (_ ≫= _). }
  intros vt s1 _. destruct (isExactMatch T vt).
  - apply bind_returns; [apply resolve_returns|]. intros; apply IH.
  - destruct (isSimilarType T vt); apply IH.
Qed.

Lemma convertSimilar_returns T sim res s :
  convertSimilar T sim res s ≠ OutOfFuel.
Proof.
  revert res s. induction sim as [|e sim IH]; intros res s; [done|].
  cbn [convertSimilar].
  apply bind_returns; [apply resolveAndConvert_returns|]. intros; apply IH.
Qed.

Lemma framed_Ret {A} (m : M A) s a s' : framed s (m s) → m s = Ret a s' → frame s s'.
Proof. intros H E. by rewrite E in H. Qed.

Lemma collectEntriesDirectly_returns fuel c T seen res s :
  wf s → c < fuel → collectEntriesDirectly fuel c T seen res s ≠ OutOfFuel.
Proof.
  revert c seen res s. induction fuel as [|fuel IH]; intros c seen res s Hwf Hc;
    [lia|].
  cbn [collectEntriesDirectly].
  apply bind_returns.
  { unfold getContainer. by destruct (_ !! _). }
  intros C s1 HC. unfold getContainer in HC.
  destruct (containers s !! c) as [C0|] eqn:HC0; [|done].
  injection HC as E1 E2. subst C0 s1.
  apply bind_returns; [apply collectScan_returns|]. intros scanned s2 Hscan.
  pose proof (framed_Ret _ _ _ _ (framed_collectScan _ _ _ _ _ _ _) Hscan)
    as Hfr.
  apply bind_returns.
  { destruct (parent C) as [p|] eqn:Hp; [|done].
    apply IH; [by eapply wf_frame|].
    pose proof (wf_parent_lt s c C p Hwf HC0 Hp). lia. }
  intros up s3 _.
  destruct (negb _ && _); [|done].
  apply bind_returns; [done|]. intros _ s4 _.
  apply bind_returns; [apply convertSimilar_returns|]. done.
Qed.

(** X12 (ResolveAll, collectEntriesDirectly): in a well-formed store
    ResolveAll returns or panics, the recursion through the parents being
    bounded by the container's address; it changes only what a resolution
    may change and leaves a well-formed store in which the entries keep
    their declared types. *)
Theorem ResolveAll_returns c T s :
  wf s →
  ResolveAll c T s ≠ OutOfFuel ∧
  framed s (ResolveAll c T s) ∧
  wf (storeOf s (ResolveAll c T s)) ∧
  extends s (storeOf s (ResolveAll c T s)).
Proof.
  intros Hwf. split; [|split; [apply framed_ResolveAll|]].
  - unfold ResolveAll. apply bind_returns.
    { unfold getContainer. by destruct (_ !! _). }
    intros C s1 HC.
    assert (s1 = s) as ->.
    { unfold getContainer in HC. destruct (_ !! _); naive_solver. }
    apply bind_returns.
    { destruct (_ !! _); [apply collectIndexed_returns | done]. }
    intros indexed s2 Hidx.
    assert (Hfr : frame s s2).
    { destruct (typeRegistry C !! T).
      - exact (framed_Ret _ _ _ _ (framed_collectIndexed _ _ _ _) Hidx).
      - injection Hidx as _ <-. apply frame_refl. }
    apply bind_returns; [|done].
    apply collectEntriesDirectly_returns; [by eapply wf_frame | lia].
  - apply framed_ok; [done | apply framed_ResolveAll].
Qed.

Lemma calls_bind {A B} (m : M A) (k : A → M B) s
    (P : A → list nat → Prop) (Q : list nat → Prop)
    (P' : B → list nat → Prop) (Q' : list nat → Prop) :
  calls s (m s) P Q →
  (∀ a s1 L1, m s = Ret a s1 → P a L1 →
     calls s1 (k a s1) (λ b L2, P' b (L2 ++ L1)) (λ L2, Q' (L2 ++ L1))) →
  (∀ L, Q L → Q' L) →
  calls s (bind m k s) P' Q'.
Proof.
  unfold bind. intros Hm Hk HQ. destruct (m s) as [a s1|p s1|]; simpl in *.
  - destruct Hm as (L1 & E1 & HP). specialize (Hk a s1 L1 eq_refl HP).
    destruct (k a s1) as [b s2|p s2|]; simpl in *; [| |done].
    + destruct Hk as (L2 & E2 & HP'). exists (L2 ++ L1).
      by rewrite E2, E1, app_assoc.
    + destruct Hk as (L2 & E2 & HQ'). exists (L2 ++ L1).
      by rewrite E2, E1, app_assoc.
  - destruct Hm as (L & E & H). exists L. auto.
  - done.
Qed.

Lemma calls_mono {A} s (o : outcome A) (P P' : A → list nat → Prop)
    (Q Q' : list nat → Prop) :
  calls s o P Q → (∀ a L, P a L → P' a L) → (∀ L, Q L → Q' L) →
  calls s o P' Q'.
Proof. destruct o; simpl; naive_solver. Qed.

Lemma calls_none {A} s (o : outcome A) :
  (∀ a s', o = Ret a s' → invocations s' = invocations s) →
  (∀ p s', o = Panic p s' → invocations s' = invocations s) →
  calls s o (λ _ L, L = []) (λ L, L = []).
Proof.
  intros H1 H2. destruct o as [a s'|p s'|]; simpl; [| |done]; exists [];
    split; eauto.
Qed.

Lemma calls_getContainer c s :
  calls s (getContainer c s) (λ _ L, L = []) (λ L, L = []).
Proof.
  apply calls_none; unfold getContainer; destruct (_ !! _); naive_solver.
Qed.

Lemma calls_declaredType e s :
  calls s (declaredType e s) (λ _ L, L = []) (λ L, L = []).
Proof.
  apply calls_none; unfold declaredType; destruct (_ ≫= _); naive_solver.
Qed.

Lemma calls_resolve l s :
  calls s (resolve l s) (λ _, atMostOne l) (atMostOne l).
Proof.
  unfold resolve, atMostOne. destruct (entries s !! l) as [E|]; simpl;
    [|exists []; auto].
  destruct (factory E) as [f|]; simpl; [|exists []; auto].
  destruct (lifecycle E), (once E); simpl; try (exists []; by auto);
    unfold callFactory; destruct (f _); simpl; exists [l]; auto.
Qed.

Lemma calls_convert T rv s :
  calls s (convert T rv s) (λ _ L, L = []) (λ L, L = []).
Proof.
  apply calls_none; unfold convert; intros ? s';
    destruct (TypeOf _); unfold throw, ret, bind, warn, allocObject;
    repeat (case_decide || case_match); naive_solver.
Qed.

Lemma calls_resolveAndConvert T e b s :
  calls s (resolveAndConvert T e b s) (λ _, atMostOne e) (atMostOne e).
Proof.
  unfold resolveAndConvert.
  eapply calls_bind; [apply calls_resolve| |done].
  intros v s1 L1 _ HL1. destruct (negb b).
  - exists []. by rewrite app_nil_l.
  - eapply calls_mono; [apply calls_convert|..]; simpl; intros; subst; exact HL1.
Qed.

Lemma freshCalls_nil seen : freshCalls seen [].
Proof. split; [constructor | intros l Hl; by apply elem_of_nil in Hl]. Qed.

Lemma freshCalls_one seen l L : l ∉ seen → atMostOne l L → freshCalls seen L.
Proof.
  intros Hl [-> | ->]; [apply freshCalls_nil|]. split.
  - apply NoDup_singleton.
  - intros x Hx. apply list_elem_of_singleton in Hx. by subst.
Qed.

Lemma freshCalls_app (seen seen1 : gset nat) L1 L2 :
  freshCalls seen L1 → freshCalls seen1 L2 → seen ⊆ seen1 →
  (∀ l, l ∈ L1 → l ∈ seen1) → freshCalls seen (L2 ++ L1).
Proof.
  intros [N1 F1] [N2 F2] Hsub Hin. split.
  - apply NoDup_app. split; [done|]. split; [|done].
    intros x Hx2 Hx1. apply (F2 x Hx2). by apply Hin.
  - intros l [Hl | Hl]%elem_of_app; [|by apply F1].
    intros Hs. apply (F2 l Hl). by apply Hsub.
Qed.

Lemma collectIndexed_calls es seen res s :
  calls s (collectIndexed es seen res s)
    (λ r L, freshCalls seen L ∧ (∀ l, l ∈ L → l ∈ r.1) ∧ seen ⊆ r.1)
    (freshCalls seen).
Proof.
  revert seen res s. induction es as [|e es IH]; intros seen res s.
  - exists []. split; [done|]. split; [apply freshCalls_nil|].
    split; [|done]. intros l Hl. by apply elem_of_nil in Hl.
  - cbn [collectIndexed]. case_decide as He; [apply IH|].
    eapply calls_bind; [apply calls_resolve| |].
    + intros v s1 L1 _ HL1.
      pose proof (freshCalls_one seen e L1 He HL1) as HF1.
      assert (Hin1 : ∀ l, l ∈ L1 → l ∈ ({[e]} ∪ seen : gset nat)).
      { intros l Hl. destruct HL1 as [-> | ->].
        - by apply elem_of_nil in Hl.
        - apply list_elem_of_singleton in Hl. set_solver. }
      eapply calls_mono; [apply IH|..].
      * intros [seen' res'] L2 (HF2 & Hin2 & Hsub). simpl in *.
        split.
        { apply (freshCalls_app seen ({[e]} ∪ seen)); [done | done | | done].
          set_solver. }
        split; [|set_solver].
        intros l [Hl | Hl]%elem_of_app; [by apply Hin2|].
        apply Hsub. by apply Hin1.
      * intros L2 HF2.
        apply (freshCalls_app seen ({[e]} ∪ seen)); [done | done | | done].
        set_solver.
    + intros L HL. by eapply freshCalls_one.
Qed.

Lemma collectScan_calls T items seen res sim ex s :
  calls s (collectScan T items seen res sim ex s)
    (λ r L, freshCalls seen L ∧ (∀ l, l ∈ L → l ∈ r.1.1.1) ∧
            seen ⊆ r.1.1.1 ∧ setAside seen r.1.1.1 L sim r.1.2)
    (freshCalls seen).
Proof.
  revert seen res sim ex s.
  induction items as [|[h e] items IH]; intros seen res sim ex s.
  - exists []. split; [done|]. split; [apply freshCalls_nil|].
    split; [intros l Hl; by apply elem_of_nil in Hl|]. split; [done|].
    exists []. rewrite app_nil_r. split; [done|]. split; [constructor|].
    intros l Hl. by apply elem_of_nil in Hl.
  - cbn [collectScan]. case_decide as He; [apply IH|].
    eapply calls_bind; [apply calls_declaredType| |].
    2: { intros L ->. apply freshCalls_nil. }
    intros vt s1 L0 _ ->.
    assert (Hmono : ∀ o : outcome (gset nat * list val * list nat * bool),
      calls s1 o
        (λ r L, freshCalls seen L ∧ (∀ l, l ∈ L → l ∈ r.1.1.1) ∧
                seen ⊆ r.1.1.1 ∧ setAside seen r.1.1.1 L sim r.1.2)
        (freshCalls seen) →
      calls s1 o
        (λ r L, freshCalls seen (L ++ []) ∧
                (∀ l, l ∈ L ++ [] → l ∈ r.1.1.1) ∧
                seen ⊆ r.1.1.1 ∧ setAside seen r.1.1.1 (L ++ []) sim r.1.2)
        (λ L, freshCalls seen (L ++ []))).
    { intros o Ho. eapply calls_mono; [exact Ho|..]; intros;
        by rewrite app_nil_r. }
    apply Hmono. clear Hmono.
    destruct (isExactMatch T vt).
    + eapply calls_bind; [apply calls_resolve| |].
      2: { intros L HL. by eapply freshCalls_one. }
      intros v s2 L1 _ HL1.
      pose proof (freshCalls_one seen e L1 He HL1) as HF1.
      assert (Hin1 : ∀ l, l ∈ L1 → l = e).
      { intros l Hl. destruct HL1 as [-> | ->].
        - by apply elem_of_nil in Hl.
        - by apply list_elem_of_singleton in Hl. }
      eapply calls_mono; [apply IH|..].
      * intros [[[seen' res'] sim'] ex'] L2 (HF2 & Hin2 & Hsub & Haside).
        simpl in *.
        split.
        { apply (freshCalls_app seen ({[e]} ∪ seen)); [done..|set_solver|].
          intros l Hl. rewrite (Hin1 l Hl). set_solver. }
        split.
        { intros l [Hl | Hl]%elem_of_app; [by apply Hin2|].
          rewrite (Hin1 l Hl). set_solver. }
        split; [set_solver|].
        destruct Haside as (new & -> & Hnd & Hnew). exists new.
        split; [done|]. split; [done|]. intros l Hl.
        destruct (Hnew l Hl) as (H1 & H2 & H3).
        split; [set_solver|]. split; [done|].
        intros [Hl2 | Hl1]%elem_of_app; [done|].
        rewrite (Hin1 l Hl1) in H1. set_solver.
      * intros L2 HF2.
        apply (freshCalls_app seen ({[e]} ∪ seen)); [done..|set_solver|].
        intros l Hl. rewrite (Hin1 l Hl). set_solver.
    + destruct (isSimilarType T vt).
      * eapply calls_mono; [apply IH|..].
        -- intros [[[seen' res'] sim'] ex'] L2 (HF2 & Hin2 & Hsub & Haside).
           simpl in *.
           split; [destruct HF2 as [N2 F2]; split; [done|set_solver]|].
           split; [done|]. split; [set_solver|].
           destruct Haside as (new & -> & Hnd & Hnew). exists (e :: new).
           split; [by rewrite <- app_assoc|]. split.
           { constructor; [|done]. intros Hel.
             destruct (Hnew e Hel) as (H1 & _). set_solver. }
           intros l [-> | Hl]%elem_of_cons.
           { split; [done|]. split; [set_solver|].
             intros Hl2. destruct HF2 as [_ F2]. apply (F2 e Hl2). set_solver. }
           destruct (Hnew l Hl) as (H1 & H2 & H3). split; [set_solver|done].
        -- intros L2 [N2 F2]. split; [done|]. set_solver.
      * apply IH.
Qed.

Lemma convertSimilar_calls T sim res s :
  calls s (convertSimilar T sim res s)
    (λ _ L, (NoDup sim → NoDup L) ∧ ∀ l, l ∈ L → l ∈ sim)
    (λ L, (NoDup sim → NoDup L) ∧ ∀ l, l ∈ L → l ∈ sim).
Proof.
  revert res s. induction sim as [|e sim IH]; intros res s.
  - exists []. split; [done|]. split; [intros; constructor|done].
  - cbn [convertSimilar].
    assert (Hone : ∀ L, atMostOne e L →
              (NoDup (e :: sim) → NoDup L) ∧ ∀ l, l ∈ L → l ∈ e :: sim).
    { intros L [-> | ->]; split; intros.
      - constructor.
      - by apply elem_of_nil in H.
      - apply NoDup_singleton.
      - apply list_elem_of_singleton in H. subst. by left. }
    assert (Hstep : ∀ L1 L2, atMostOne e L1 →
              ((NoDup sim → NoDup L2) ∧ ∀ l, l ∈ L2 → l ∈ sim) →
              (NoDup (e :: sim) → NoDup (L2 ++ L1)) ∧
              ∀ l, l ∈ L2 ++ L1 → l ∈ e :: sim).
    { intros L1 L2 H1 [N2 I2]. split.
      - intros [He Hs]%NoDup_cons. apply NoDup_app. split; [by apply N2|].
        split; [|by apply (Hone L1 H1); constructor].
        intros x Hx2 Hx1. destruct H1 as [-> | ->].
        + by apply elem_of_nil in Hx1.
        + apply list_elem_of_singleton in Hx1. subst. by apply He, I2.
      - intros l [Hl | Hl]%elem_of_app; [right; by apply I2|].
        by apply (Hone L1 H1). }
    eapply calls_bind; [apply calls_resolveAndConvert| |exact Hone].
    intros r s1 L1 _ HL1.
    eapply calls_mono; [apply IH|..]; intros; by apply Hstep.
Qed.

Lemma collectEntriesDirectly_calls fuel c T seen res s :
  calls s (collectEntriesDirectly fuel c T seen res s)
    (λ r L, freshCalls seen L ∧ (∀ l, l ∈ L → l ∈ r.1) ∧ seen ⊆ r.1)
    (freshCalls seen).
Proof.
  revert c seen res s. induction fuel as [|fuel IH]; intros c seen res s;
    [done|].
  cbn [collectEntriesDirectly].
  eapply calls_bind; [apply calls_getContainer| |].
  2: { intros L ->. apply freshCalls_nil. }
  intros C s1 L0 _ ->.
  eapply calls_bind; [apply collectScan_calls| |].
  2: { intros L HL. by rewrite app_nil_r. }
  intros [[[seen1 res1] sim] ex] s2 L1 _ (HF1 & Hin1 & Hsub1 & Haside).
  cbn [fst snd] in *.
  destruct Haside as (new & Hsim & Hnd & Hnew). rewrite app_nil_l in Hsim.
  subst new.
  eapply calls_bind.
  { instantiate (1 := freshCalls seen1).
    instantiate (1 := λ r L, freshCalls seen1 L ∧ (∀ l, l ∈ L → l ∈ r.1) ∧
                             seen1 ⊆ r.1).
    destruct (parent C) as [p|]; [apply IH|].
    exists []. split; [done|]. split; [apply freshCalls_nil|].
    split; [|done]. intros l Hl. by apply elem_of_nil in Hl. }
  2: { intros L2 HF2. rewrite app_nil_r.
       by apply (freshCalls_app seen seen1). }
  intros [seen2 res2] s3 L2 _ (HF2 & Hin2 & Hsub2). cbn [fst snd] in *.
  assert (HF12 : freshCalls seen (L2 ++ L1))
    by by apply (freshCalls_app seen seen1).
  assert (Hin12 : ∀ l, l ∈ L2 ++ L1 → l ∈ seen2).
  { intros l [Hl | Hl]%elem_of_app; [by apply Hin2|].
    apply Hsub2. by apply Hin1. }
  destruct (negb ex && _).
  2: { exists []. split; [done|]. rewrite !app_nil_l, app_nil_r.
       split; [done|]. split; [done|]. by etrans. }
  eapply calls_bind.
  { apply calls_none; unfold warn; naive_solver. }
  2: { intros L ->. by rewrite app_nil_l, app_nil_r. }
  intros _ s4 L3 _ ->.
  assert (HF3 : ∀ L3, ((NoDup sim → NoDup L3) ∧ ∀ l, l ∈ L3 → l ∈ sim) →
            freshCalls seen (L3 ++ L2 ++ L1) ∧
            ∀ l, l ∈ L3 ++ L2 ++ L1 → l ∈ seen2).
  { intros L3 [N3 I3]. split; [split|].
    - apply NoDup_app. split; [by apply N3|]. split; [|by apply HF12].
      intros x Hx3 [Hx | Hx]%elem_of_app.
      + destruct HF2 as [_ F2]. apply (F2 x Hx).
        by apply (Hnew x), I3.
      + by apply (Hnew x (I3 x Hx3)).
    - intros l [Hl | Hl]%elem_of_app; [|by apply HF12].
      by apply (Hnew l), I3.
    - intros l [Hl | Hl]%elem_of_app; [|by apply Hin12].
      apply Hsub2. by apply (Hnew l), I3. }
  eapply calls_bind; [apply convertSimilar_calls| |].
  2: { intros L HL. rewrite !app_nil_r, <- app_assoc. by apply HF3. }
  intros res3 s5 L4 _ HL4. exists []. split; [done|].
  rewrite !app_nil_l, !app_nil_r, <- app_assoc. cbn [fst].
  destruct (HF3 L4 HL4) as [H1 H2]. split; [done|]. split; [done|].
  by etrans.
Qed.

(** X13 (ResolveAll): one call of ResolveAll calls the factory of any
    entry at most once, whether it returns or panics: the calls it adds to
    the log are without repetition. *)
Theorem ResolveAll_calls_each_factory_once c T s :
  ∃ L, invocations (storeOf s (ResolveAll c T s)) = L ++ invocations s ∧
       NoDup L.
Proof.
  assert (H : calls s (ResolveAll c T s) (λ _ L, NoDup L) (λ L, NoDup L)).
  { unfold ResolveAll.
    eapply calls_bind; [apply calls_getContainer| |].
    2: { intros L ->. constructor. }
    intros C s1 L0 _ ->.
    eapply calls_bind.
    { instantiate (1 := freshCalls ∅).
      instantiate (1 := λ r L, freshCalls ∅ L ∧ (∀ l, l ∈ L → l ∈ r.1) ∧
                               ∅ ⊆ r.1).
      destruct (typeRegistry C !! T); [apply collectIndexed_calls|].
      exists []. split; [done|]. split; [apply freshCalls_nil|].
      split; [|done]. intros l Hl. by apply elem_of_nil in Hl. }
    2: { intros L [HL _]. by rewrite app_nil_r. }
    intros [seen1 res1] s2 L1 _ (HF1 & Hin1 & _). cbn [fst snd] in *.
    eapply calls_bind; [apply collectEntriesDirectly_calls| |].
    2: { intros L2 HF2. rewrite app_nil_r.
         apply (freshCalls_app ∅ seen1); [done..|set_solver|done]. }
    intros r s3 L2 _ (HF2 & _). exists []. split; [done|].
    rewrite app_nil_l, app_nil_r.
    apply (freshCalls_app ∅ seen1); [done..|set_solver|done]. }
  destruct (ResolveAll c T s) as [r s'|p s'|]; simpl in *.
  - destruct H as (L & E & N). eauto.
  - destruct H as (L & E & N). eauto.
  - exists []. split; [done | constructor].
Qed.

Lemma registrationOrder_NoDup (l : list nat) : StronglySorted lt l → NoDup l.
Proof.
  induction 1 as [|x l Hs IH Hx]; constructor; [|done].
  intros Hin. rewrite Forall_forall in Hx. specialize (Hx x Hin). lia.
Qed.

Lemma collectIndexed_values es seen res s :
  NoDup es → (∀ e, e ∈ es → e ∉ seen) → Forall (valueEntry s) es →
  collectIndexed es seen res s =
  Ret (list_to_set es ∪ seen, res ++ map (λ e, value (entryAt s e)) es) s.
Proof.
  revert seen res. induction es as [|e es IH]; intros seen res Hnd Hseen Hval.
  - cbn. by rewrite union_empty_l_L, app_nil_r.
  - apply NoDup_cons in Hnd as [He Hnd].
    apply Forall_cons in Hval as [(E & HE & Hf) Hval].
    cbn [collectIndexed]. rewrite decide_False by (apply Hseen; by left).
    unfold bind. rewrite (resolve_value s e E HE Hf).
    rewrite IH; [|done| |done].
    + cbn [list_to_set map]. unfold entryAt at 2. rewrite HE. cbn [default].
      rewrite <- app_assoc. cbn [app]. f_equal. f_equal. set_solver.
    + intros x Hx. pose proof (Hseen x (list_elem_of_further _ _ _ Hx)).
      set_solver.
Qed.

Lemma collectScan_skips T items seen res sim ex s :
  (∀ he, he ∈ items → he.2 ∈ seen ∨
     ∃ vt, entryType s he.2 = Some vt ∧ isExactMatch T vt = false ∧
           isSimilarType T vt = false) →
  collectScan T items seen res sim ex s = Ret (seen, res, sim, ex) s.
Proof.
  induction items as [|[h e] items IH]; intros Hskip; [done|].
  cbn [collectScan].
  assert (Hrest : collectScan T items seen res sim ex s
                  = Ret (seen, res, sim, ex) s).
  { apply IH. intros he Hhe. apply Hskip. by right. }
  destruct (Hskip (h, e) (list_elem_of_here _ _)) as [Hs | (vt & Hvt & Hex & Hsi)].
  - by rewrite decide_True.
  - case_decide; [done|]. unfold bind, declaredType.
    unfold entryType in Hvt. cbn [snd] in Hvt. rewrite Hvt, Hex, Hsi. done.
Qed.

Lemma rangeOrder_lookup (m : gmap nat nat) h e :
  (h, e) ∈ rangeOrder m → m !! h = Some e.
Proof. rewrite rangeOrder_perm. apply elem_of_map_to_list. Qed.

(** X14 (ResolveAll on a root whose entries are declared as T or as a type
    unrelated to T): when the entries indexed under T are value entries,
    ResolveAll(T) returns their values in registration order and leaves
    the store unchanged; with two or more of them Resolve(T) panics where
    ResolveAll lists. *)
Theorem ResolveAll_exact_entries s c C T :
  wf s → containers s !! c = Some C → parent C = None →
  (∀ h e, registry C !! h = Some e →
     ∃ vt, entryType s e = Some vt ∧
           (vt = T ∨ isExactMatch T vt = false ∧ isSimilarType T vt = false)) →
  Forall (valueEntry s) (indexOf C T) →
  ResolveAll c T s = Ret (map (λ e, value (entryAt s e)) (indexOf C T)) s ∧
  (1 < length (indexOf C T) →
     Resolve c T s =
     Panic (PanicMultipleCandidates T (length (indexOf C T))) s).
Proof.
  intros Hwf HC Hp Hreg Hval. split; [|by apply Resolve_index_many].
  assert (Hnd : NoDup (indexOf C T)).
  { apply registrationOrder_NoDup. by apply (wf_sorted _ Hwf c C T). }
  unfold ResolveAll. unfold bind at 1, getContainer. rewrite HC.
  assert (Hidx :
    match typeRegistry C !! T with
    | Some typeEntries => collectIndexed typeEntries ∅ []
    | None => ret (∅, [])
    end s =
    Ret (list_to_set (indexOf C T) : gset nat,
         map (λ e, value (entryAt s e)) (indexOf C T)) s).
  { unfold indexOf in *. destruct (typeRegistry C !! T) as [es|]; simpl in *.
    - rewrite collectIndexed_values; [|done|set_solver|done].
      by rewrite union_empty_r_L.
    - done. }
  unfold bind at 1. rewrite Hidx. cbn [fst snd].
  cbn [collectEntriesDirectly]. unfold bind at 1. unfold bind at 1.
  unfold getContainer. rewrite HC.
  unfold bind at 1. rewrite collectScan_skips.
  - unfold bind at 1. cbn [fst snd]. rewrite Hp. reflexivity.
  - intros [h e] Hhe%rangeOrder_lookup. cbn [snd].
    destruct (Hreg h e Hhe) as (vt & Hvt & [-> | Hno]).
    + left. apply elem_of_list_to_set.
      by apply (wf_indexed _ Hwf c C h e T).
    + right. eauto.
Qed.

Lemma collectScan_appends T items seen res sim ex s r s' :
  collectScan T items seen res sim ex s = Ret r s' →
  ∃ more, r.1.1.2 = res ++ more.
Proof.
  revert seen res sim ex s.
  induction items as [|[h e] items IH]; intros seen res sim ex s Hr.
  - injection Hr as <- _. exists []. by rewrite app_nil_r.
  - cbn [collectScan] in Hr. case_decide; [by eapply IH|].
    unfold bind in Hr. destruct (declaredType e s) as [vt s1| |]; [|done..].
    destruct (isExactMatch T vt).
    + destruct (resolve e s1) as [v s2| |]; [|done..].
      apply IH in Hr as [more ->]. exists (v :: more).
      by rewrite <- app_assoc.
    + destruct (isSimilarType T vt); by eapply IH.
Qed.

Lemma convertSimilar_appends T sim res s r s' :
  convertSimilar T sim res s = Ret r s' → ∃ more, r = res ++ more.
Proof.
  revert res s. induction sim as [|e sim IH]; intros res s Hr.
  - injection Hr as <- _. exists []. by rewrite app_nil_r.
  - cbn [convertSimilar] in Hr. unfold bind in Hr.
    destruct (resolveAndConvert T e true s) as [[v|] s1| |]; [| |done..].
    + apply IH in Hr as [more ->]. exists (v :: more). by rewrite <- app_assoc.
    + by eapply IH.
Qed.

Lemma collectEntriesDirectly_appends fuel c T seen res s r s' :
  collectEntriesDirectly fuel c T seen res s = Ret r s' →
  ∃ more, r.2 = res ++ more.
Proof.
  revert c seen res s r s'.
  induction fuel as [|fuel IH]; intros c seen res s r s' Hr; [done|].
  cbn [collectEntriesDirectly] in Hr. unfold bind at 1 in Hr.
  destruct (getContainer c s) as [C s1| |]; [|done..].
  unfold bind at 1 in Hr.
  destruct (collectScan _ _ _ _ _ _ s1) as [scanned s2| |] eqn:Hscan;
    [|done..].
  apply collectScan_appends in Hscan as [more1 Hm1].
  match type of Hr with
  | bind ?m _ s2 = _ => remember m as mup eqn:Emup
  end.
  unfold bind at 1 in Hr.
  destruct (mup s2) as [up s3| |] eqn:Hup; [|done..].
  assert (∃ more2, up.2 = scanned.1.1.2 ++ more2) as [more2 Hm2].
  { subst mup. destruct (parent C); [by eapply IH|].
    injection Hup as <- _. exists []. by rewrite app_nil_r. }
  clear Emup Hup.
  destruct (negb _ && _).
  - unfold bind at 1 in Hr. unfold warn at 1 in Hr. unfold bind at 1 in Hr.
    destruct (convertSimilar _ _ _ _) as [res3 s4| |] eqn:Hconv; [|done..].
    apply convertSimilar_appends in Hconv as [more3 ->].
    injection Hr as <- _. cbn [snd]. rewrite Hm2, Hm1.
    exists (more1 ++ more2 ++ more3). by rewrite !app_assoc.
  - injection Hr as <- _. rewrite Hm2, Hm1. exists (more1 ++ more2).
    by rewrite !app_assoc.
Qed.

(** X15 (ResolveAll): when ResolveAll returns, its results begin with the
    values of the entries indexed under the type in the container itself,
    in registration order (value entries, in a well-formed store). *)
Theorem ResolveAll_index_first s c C T rs s' :
  wf s → containers s !! c = Some C →
  Forall (valueEntry s) (indexOf C T) →
  ResolveAll c T s = Ret rs s' →
  ∃ more, rs = map (λ e, value (entryAt s e)) (indexOf C T) ++ more.
Proof.
  intros Hwf HC Hval Hr.
  assert (Hnd : NoDup (indexOf C T)).
  { apply registrationOrder_NoDup. by apply (wf_sorted _ Hwf c C T). }
  unfold ResolveAll in Hr. unfold bind at 1, getContainer in Hr.
  rewrite HC in Hr.
  assert (Hidx :
    match typeRegistry C !! T with
    | Some typeEntries => collectIndexed typeEntries ∅ []
    | None => ret (∅, [])
    end s =
    Ret (list_to_set (indexOf C T) : gset nat,
         map (λ e, value (entryAt s e)) (indexOf C T)) s).
  { unfold indexOf in *. destruct (typeRegistry C !! T) as [es|]; simpl in *.
    - rewrite collectIndexed_values; [|done|set_solver|done].
      by rewrite union_empty_r_L.
    - done. }
  unfold bind at 1 in Hr. rewrite Hidx in Hr. cbn [fst snd] in Hr.
  unfold bind in Hr.
  destruct (collectEntriesDirectly _ _ _ _ _ _) as [all s3| |] eqn:Hall;
    [|done..].
  apply collectEntriesDirectly_appends in Hall as [more Hm].
  injection Hr as <- _. eauto.
Qed.

Lemma rangeOrder_singleton h e : rangeOrder {[h := e]} = [(h, e)].
Proof.
  apply Permutation_singleton_r. rewrite rangeOrder_perm.
  by rewrite map_to_list_singleton.
Qed.

(** X16 (the generic Resolve[T] and ResolveAll[T]): for an interface type
    T and a value whose type implements T, provided to an empty root, the
    container's Resolve(T) finds the value and ResolveAll[T] lists it, but
    Resolve[T] returns not-found without looking: reflect.TypeOf of the
    zero T is nil. *)
Theorem generic_Resolve_misses_interfaces s c v vt T :
  containers s !! c
    = Some {| registry := ∅; typeRegistry := ∅; parent := None |} →
  TypeOf v = Some vt → KindOf vt ≠ Interface →
  KindOf T = Interface → implements vt T = true →
  ∃ s', Provide c v s = Ret tt s' ∧
    Resolve c T s' = Ret (Some v) s' ∧
    ResolveT c T [] s' = Ret None s' ∧
    ResolveAllT c T [] s' = Ret [v] s'.
Proof.
  intros HC Hv Hvt HT Himp.
  assert (Hne : vt ≠ T) by (intros ->; done).
  eexists. split; [by eapply Provide_eq|].
  set (E := {| value := v; factory := None; depType := Some vt;
               lifecycle := Singleton; once := false |}).
  set (C' := withEntry _ _ _ _).
  set (s' := set_containers _ _).
  assert (HC' : containers s' !! c = Some C')
    by (simpl; by rewrite lookup_insert_eq).
  assert (HE : entries s' !! S (next s) = Some E)
    by (simpl; by rewrite lookup_insert_eq).
  assert (Hres : resolve (S (next s)) s' = Ret v s')
    by (by rewrite (resolve_value s' _ E HE)).
  assert (Hreg : rangeOrder (registry C') = [(next s, S (next s))]).
  { unfold C', withEntry. cbn [registry]. rewrite insert_empty.
    apply rangeOrder_singleton. }
  assert (Hidx : typeRegistry C' !! T = None).
  { unfold C', withEntry, indexOf. cbn [typeRegistry].
    rewrite lookup_insert_ne by done. apply lookup_empty. }
  assert (Hex : isExactMatch T vt = true).
  { unfold isExactMatch. by rewrite decide_True. }
  split; [|split].
  - rewrite (Resolve_index_nil _ _ _ _ HC') by (unfold indexOf; by rewrite Hidx).
    rewrite (findSingleEntry_unfold _ _ _ _ _ HC'), Hreg.
    cbn [scan]. rewrite HE. cbn [mbind option_bind depType E]. rewrite Hex.
    unfold bind. by rewrite Hres.
  - unfold ResolveT, typeOfZero. by rewrite decide_True.
  - unfold ResolveAllT, pickContainer, ResolveAll.
    unfold bind at 1. unfold bind at 1. unfold getContainer. rewrite HC', Hidx.
    unfold bind at 1. unfold ret at 1. cbn [fst snd collectEntriesDirectly].
    unfold bind at 1. unfold bind at 1. unfold getContainer. rewrite HC', Hreg.
    unfold bind at 1. cbn [collectScan].
    rewrite decide_False by set_solver.
    unfold bind at 1. unfold declaredType at 1. rewrite HE.
    cbn [mbind option_bind depType E]. rewrite Hex.
    unfold bind at 1. rewrite Hres. unfold ret at 1. cbn [fst snd].
    unfold bind at 1. cbn [parent C' withEntry]. unfold ret at 1.
    cbn [negb andb app]. unfold ret at 1. unfold ret at 1. cbn [snd].
    cbn [assertAll]. unfold bind, typeAssert. rewrite Hv.
    unfold AssignableTo. rewrite Himp, (bool_decide_eq_true_2 _ HT).
    by rewrite orb_true_r.
Qed.

Lemma isPrimitive_not_pointer t : isPrimitive (KindOf t) = true → KindOf t ≠ Ptr.
Proof. intros H E. rewrite E in H. vm_compute in H. done. Qed.

(** X17 (resolveParameter, isPrimitive): a registered value of a
    primitive kind is found by Resolve, but a parameter of its type, or of
    the pointer type to it, is refused with "cannot auto-resolve primitive
    type" before any lookup, the store unchanged. *)
Theorem primitives_are_not_auto_wired s c C v t fuel numIn :
  containers s !! c = Some C → TypeOf v = Some t → indexOf C t = [] →
  isPrimitive (KindOf t) = true →
  ∃ s', Provide c v s = Ret tt s' ∧
    Resolve c t s' = Ret (Some v) s' ∧
    resolveParameter fuel c t numIn s' = Ret (inl (ErrPrimitive t)) s' ∧
    resolveParameter fuel c (PtrTo t) numIn s'
      = Ret (inl (ErrPrimitive (PtrTo t))) s'.
Proof.
  intros HC Hv Hidx Hprim.
  destruct (Provide_Resolve_index s c C v t HC Hv Hidx) as (s' & HP & Hres).
  exists s'. split; [done|]. split; [done|].
  unfold resolveParameter. cbv zeta. split.
  - rewrite (bool_decide_eq_false_2 _ (isPrimitive_not_pointer t Hprim)).
    cbv iota. by rewrite Hprim.
  - change (KindOf (PtrTo t)) with Ptr.
    rewrite bool_decide_eq_true_2 by done.
    change (default (PtrTo t) (Elem (PtrTo t))) with t.
    cbv iota. by rewrite Hprim.
Qed.

(** X18 (resolveParameter): when the lone parameter of a function has the
    struct type S or *S, nothing is registered for it and S has no exported
    field, a zero S is allocated and returned as an addressable Value that
    holds the struct, for *S too; with any other number of parameters the
    result is the error "no registration found". *)
Theorem resolveParameter_lone_struct s s1 c ST paramType fuel :
  KindOf ST = Struct → paramType = ST ∨ paramType = PtrTo ST →
  Forall (λ f, Exported f = false) (fieldsOf ST) →
  Resolve c paramType s = Ret None s1 →
  resolveParameter (S fuel) c paramType 1 s =
    Ret (inr {| rv_val := VStruct ST []; rv_addr := Some (next s1) |})
        (set_next (S (next s1))
           (set_objects (<[next s1 := VStruct ST []]> (objects s1)) s1)) ∧
  ∀ numIn, numIn ≠ 1 →
    resolveParameter (S fuel) c paramType numIn s =
      Ret (inl (ErrNoRegistration paramType)) s1.
Proof.
  intros HST Hpt Hfl Hres.
  assert (Hsearch :
    (if bool_decide (KindOf paramType = Ptr)
     then default paramType (Elem paramType) else paramType) = ST).
  { destruct Hpt as [-> | ->].
    - rewrite bool_decide_eq_false_2; [done|]. by rewrite HST.
    - by rewrite bool_decide_eq_true_2. }
  unfold resolveParameter. cbv zeta. rewrite Hsearch, HST.
  change (isPrimitive Struct) with false. cbv iota.
  split.
  - unfold bind at 1. rewrite Hres. rewrite decide_True by done.
    unfold bind at 1, allocObject. unfold bind at 1.
    cbn [Inject]. rewrite decide_False by (intros H; by apply H).
    rewrite (forEach_unexported _ _ _ _ _ _ Hfl).
    unfold bind, loadObject. cbn [objects set_next set_objects].
    by rewrite lookup_insert_eq.
  - intros numIn Hn. unfold bind at 1. rewrite Hres.
    rewrite decide_False; [done|]. naive_solver.
Qed.

Lemma ctxLookup_others (others ctx : valueCtx) :
  Forall (λ kv, kv.1 ≠ ContainerCtxKey) others →
  ctxLookup (others ++ ctx) ContainerCtxKey = ctxLookup ctx ContainerCtxKey.
Proof.
  induction 1 as [|[k v] others Hk _ IH]; cbn [app ctxLookup]; [done|].
  cbn [fst] in Hk. by rewrite decide_False.
Qed.

(** X19 (WithContainer, FromContext): FromContext returns the container
    of the innermost WithContainer whatever values of other keys were added
    after it, and the default container when the context has none. *)
Theorem FromContext_innermost d ctx (others : valueCtx) c :
  Forall (λ kv, kv.1 ≠ ContainerCtxKey) others →
  FromContext d (others ++ WithContainer ctx c) = c ∧
  FromContext d others = Some d.
Proof.
  intros Hothers. unfold FromContext. split.
  - rewrite (ctxLookup_others _ _ Hothers).
    unfold WithContainer, WithValue. cbn [ctxLookup].
    by rewrite decide_True.
  - rewrite <- (app_nil_r others), (ctxLookup_others _ _ Hothers). done.
Qed.

(** X20 (ResolveCtx): ResolveCtx[T] is Resolve[T] on the container of the
    context, and on the default container when the context has none. A nil
    container passed to Resolve[T] means the default one, whereas a nil
    container stored in the context makes ResolveCtx[T] dereference nil
    for a non-interface T. *)
Theorem ResolveCtx_uses_context_container d T ctx (others : valueCtx) c s :
  Forall (λ kv, kv.1 ≠ ContainerCtxKey) others →
  ResolveCtx d T (others ++ WithContainer ctx (Some c)) s
    = ResolveT d T [Some c] s ∧
  ResolveCtx d T others s = ResolveT d T [] s ∧
  ResolveT d T [None] s = ResolveT d T [] s ∧
  (KindOf T ≠ Interface →
     ResolveCtx d T (others ++ WithContainer ctx None) s
       = Panic PanicRuntime s).
Proof.
  intros Hothers.
  assert (Hin : ∀ c', FromContext d (others ++ WithContainer ctx c') = c').
  { intros c'. unfold FromContext. rewrite (ctxLookup_others _ _ Hothers).
    unfold WithContainer, WithValue. cbn [ctxLookup]. by rewrite decide_True. }
  assert (Hout : FromContext d others = Some d).
  { unfold FromContext.
    by rewrite <- (app_nil_r others), (ctxLookup_others _ _ Hothers). }
  unfold ResolveCtx, ResolveT. rewrite !Hin, Hout.
  cbn [pickContainer].
  split; [done|]. split; [done|]. split; [done|].
  intros Hi. unfold typeOfZero. by rewrite decide_False.
Qed.

(** X21 (Provide, then Inject): after Provide(v), Inject on a struct whose
    only exported field has the type of v assigns v to that field and
    changes nothing else. *)
Theorem Provide_then_Inject s c C v ST l fs pre fld post fuel :
  containers s !! c = Some C → TypeOf v = Some (FieldType fld) →
  indexOf C (FieldType fld) = [] →
  KindOf ST = Struct → fieldsOf ST = pre ++ fld :: post →
  Forall (λ f, Exported f = false) pre →
  Forall (λ f, Exported f = false) post →
  Exported fld = true →
  objects s !! l = Some (VStruct ST fs) →
  ∃ s', Provide c v s = Ret tt s' ∧
    Inject (S fuel) c (VPtr ST (Some l)) s' =
    Ret tt (set_objects
              (<[l := VStruct ST (assignField (FieldName fld) v fs)]>
                 (objects s')) s').
Proof.
  intros HC Hv Hidx HST Hfl Hpre Hpost Hex Hl.
  destruct (Provide_Resolve_index s c C v _ HC Hv Hidx) as (s' & HP & Hres).
  assert (Hobj : objects s' = objects s).
  { rewrite (Provide_eq s c C v _ HC Hv) in HP. by injection HP as <-. }
  exists s'. split; [done|].
  cbn [Inject]. rewrite decide_False by (intros H; by apply H).
  rewrite Hfl, forEach_app. unfold bind at 1.
  rewrite (forEach_unexported _ _ _ _ _ _ Hpre).
  cbn [forEach]. unfold bind at 1. unfold injectField at 1.
  rewrite Hex. cbn [negb]. unfold bind at 1. rewrite Hres.
  unfold setField. rewrite Hv, AssignableTo_refl, Hobj, Hl.
  by rewrite (forEach_unexported _ _ _ _ _ _ Hpost).
Qed.

Lemma bind_Ret {A B} (m : M A) (k : A → M B) s b s' :
  bind m k s = Ret b s' → ∃ a s1, m s = Ret a s1 ∧ k a s1 = Ret b s'.
Proof. unfold bind. destruct (m s) as [a s1| |]; [eauto|done..]. Qed.

Lemma keeps_refl s : keeps s s.
Proof. by intros e E. Qed.

Lemma keeps_trans s1 s2 s3 : keeps s1 s2 → keeps s2 s3 → keeps s1 s3.
Proof. intros H1 H2 e E HE Hf. eauto. Qed.

Lemma keeps_entries s s' : entries s' = entries s → keeps s s'.
Proof. intros Hs e E. by rewrite Hs. Qed.

Lemma resolve_keeps l s v s' : resolve l s = Ret v s' → keeps s s'.
Proof.
  unfold resolve. destruct (entries s !! l) as [E|] eqn:HE; [|done].
  destruct (factory E) as [f|] eqn:Hf.
  2: { intros [= _ <-]. apply keeps_refl. }
  destruct (lifecycle E).
  - destruct (once E); [intros [= _ <-]; apply keeps_refl|].
    unfold callFactory. destruct (f _); [|done]. intros [= _ <-].
    intros e0 E0 HE0 Hf0. cbn.
    rewrite lookup_insert_ne; [done|]. intros ->. congruence.
  - unfold callFactory. destruct (f _); [|done]. intros [= _ <-].
    by apply keeps_entries.
Qed.

Lemma convert_keeps T rv s r s' : convert T rv s = Ret r s' → keeps s s'.
Proof.
  intros H. apply keeps_entries. revert H. unfold convert.
  destruct (TypeOf _); unfold throw, ret, bind, warn, allocObject;
    repeat (case_decide || case_match); naive_solver.
Qed.

Lemma resolveAndConvert_keeps T e b s r s' :
  resolveAndConvert T e b s = Ret r s' → keeps s s'.
Proof.
  unfold resolveAndConvert. intros (v & s1 & H1 & H2)%bind_Ret.
  apply resolve_keeps in H1. destruct (negb b).
  - injection H2 as _ <-. done.
  - apply convert_keeps in H2. by eapply keeps_trans.
Qed.

Lemma resolve_exactValue s0 s T e v :
  keeps s0 s → exactValue s0 T e v → resolve e s = Ret v s.
Proof.
  intros Hk (E & vt & HE & Hf & <- & _). by apply resolve_value; [apply Hk|].
Qed.

Lemma collected_add s0 T (seen : gset nat) res e v :
  collected s0 T seen res → (∀ w, exactValue s0 T e w → w = v) →
  collected s0 T ({[e]} ∪ seen) (res ++ [v]).
Proof.
  intros Hc He e' w [->%elem_of_singleton | Hin]%elem_of_union Hw.
  - rewrite (He w Hw). set_solver.
  - apply elem_of_app. left. by eapply Hc.
Qed.

Lemma collected_app s0 T seen res more :
  collected s0 T seen res → collected s0 T seen (res ++ more).
Proof. intros Hc e v Hin Hv. apply elem_of_app. left. by eapply Hc. Qed.

Lemma exactValue_resolved s0 s T e v w s' :
  keeps s0 s → resolve e s = Ret v s' → exactValue s0 T e w → w = v.
Proof.
  intros Hk Hr Hw. rewrite (resolve_exactValue s0 s T e w Hk Hw) in Hr.
  by injection Hr.
Qed.

Lemma collectIndexed_collected s0 T es seen res s r s' :
  collectIndexed es seen res s = Ret r s' →
  keeps s0 s → collected s0 T seen res →
  keeps s0 s' ∧ collected s0 T r.1 r.2.
Proof.
  revert seen res s.
  induction es as [|e es IH]; intros seen res s Hr Hk Hc.
  - by injection Hr as <- <-.
  - cbn [collectIndexed] in Hr. case_decide; [by eapply IH|].
    apply bind_Ret in Hr as (v & s1 & H1 & H2).
    eapply IH; [exact H2| |].
    + eapply keeps_trans; [exact Hk|]. by eapply resolve_keeps.
    + apply collected_add; [done|]. intros w. by eapply exactValue_resolved.
Qed.

Lemma collectScan_collected s0 T items seen res sim ex s r s' :
  collectScan T items seen res sim ex s = Ret r s' →
  keeps s0 s → collected s0 T seen res →
  keeps s0 s' ∧ collected s0 T r.1.1.1 r.1.1.2 ∧ seen ⊆ r.1.1.1 ∧
  ∀ he v, he ∈ items → exactValue s0 T he.2 v → he.2 ∈ r.1.1.1.
Proof.
  revert seen res sim ex s.
  induction items as [|[h e] items IH]; intros seen res sim ex s Hr Hk Hc.
  - injection Hr as <- <-. split; [done|]. split; [done|]. split; [done|].
    intros he v Hin. by apply elem_of_nil in Hin.
  - cbn [collectScan] in Hr.
    assert (Hcons : ∀ seen1 res1 sim1 ex1 s1,
      collectScan T items seen1 res1 sim1 ex1 s1 = Ret r s' →
      keeps s0 s1 → collected s0 T seen1 res1 → seen ⊆ seen1 →
      (∀ v, exactValue s0 T e v → e ∈ seen1) →
      keeps s0 s' ∧ collected s0 T r.1.1.1 r.1.1.2 ∧ seen ⊆ r.1.1.1 ∧
      ∀ he v, he ∈ (h, e) :: items → exactValue s0 T he.2 v →
              he.2 ∈ r.1.1.1).
    { intros seen1 res1 sim1 ex1 s1 Hr1 Hk1 Hc1 Hsub He.
      destruct (IH _ _ _ _ _ Hr1 Hk1 Hc1) as (Hk' & Hc' & Hsub' & Hall).
      split; [done|]. split; [done|]. split; [by etrans|].
      intros he v [-> | Hin]%elem_of_cons Hv; [|by eapply Hall].
      apply Hsub'. by eapply He. }
    case_decide as Hseen; [by eapply Hcons|].
    apply bind_Ret in Hr as (vt & s1 & H1 & H2).
    pose proof (declaredType_store _ _ _ _ H1) as ->.
    unfold declaredType in H1.
    destruct (entries s !! e ≫= depType) as [vt'|] eqn:Hvt; [|done].
    injection H1 as ->.
    destruct (isExactMatch T vt) eqn:Hex.
    + apply bind_Ret in H2 as (v & s2 & H2 & H3).
      eapply Hcons; [exact H3| | |set_solver|set_solver].
      * eapply keeps_trans; [exact Hk|]. by eapply resolve_keeps.
      * apply collected_add; [done|]. intros w.
        by eapply exactValue_resolved.
    + assert (Hno : ∀ v, ¬ exactValue s0 T e v).
      { intros v (E & vt2 & HE & Hf & _ & Hd & Hex2).
        rewrite (Hk e E HE Hf) in Hvt. cbn in Hvt. congruence. }
      destruct (isSimilarType T vt).
      * eapply Hcons; [exact H2|done| |set_solver|set_solver].
        intros e' w [->%elem_of_singleton | Hin]%elem_of_union Hw.
        -- by destruct (Hno w).
        -- by eapply Hc.
      * eapply Hcons; [exact H2|done|done|done|].
        intros v Hv. by destruct (Hno v).
Qed.

Lemma convertSimilar_keeps T sim res s r s' :
  convertSimilar T sim res s = Ret r s' → keeps s s'.
Proof.
  revert res s. induction sim as [|e sim IH]; intros res s Hr.
  - injection Hr as _ <-. apply keeps_refl.
  - cbn [convertSimilar] in Hr. apply bind_Ret in Hr as (v & s1 & H1 & H2).
    eapply keeps_trans; [by eapply resolveAndConvert_keeps | by eapply IH].
Qed.

Lemma inScope_frame s s' c c' :
  containers s' = containers s → inScope s c c' → inScope s' c c'.
Proof.
  intros Hs. induction 1 as [|c C p c' HC Hp _ IH]; [constructor|].
  econstructor; [|done..]. by rewrite Hs.
Qed.

Lemma collectEntriesDirectly_collected s0 fuel c T seen res s r s' :
  collectEntriesDirectly fuel c T seen res s = Ret r s' →
  keeps s0 s → collected s0 T seen res →
  keeps s0 s' ∧ collected s0 T r.1 r.2 ∧ seen ⊆ r.1 ∧
  ∀ c' C' h e v, inScope s c c' → containers s !! c' = Some C' →
    registry C' !! h = Some e → exactValue s0 T e v → e ∈ r.1.
Proof.
  revert c seen res s r s'.
  induction fuel as [|fuel IH]; intros c seen res s r s' Hr Hk Hc; [done|].
  cbn [collectEntriesDirectly] in Hr.
  apply bind_Ret in Hr as (C & s1 & HC & Hr).
  unfold getContainer in HC.
  destruct (containers s !! c) as [C0|] eqn:HC0; [|done].
  injection HC as E1 E2. subst C0 s1.
  apply bind_Ret in Hr as ([[[seen1 res1] sim] ex] & s2 & Hscan & Hr).
  pose proof (framed_Ret _ _ _ _ (framed_collectScan _ _ _ _ _ _ _) Hscan)
    as (_ & Hcont2 & _).
  destruct (collectScan_collected s0 _ _ _ _ _ _ _ _ _ Hscan Hk Hc)
    as (Hk2 & Hc2 & Hsub2 & Hall2).
  cbn [fst snd] in *.
  apply bind_Ret in Hr as ([seen3 res3] & s3 & Hup & Hr). cbn [fst snd] in *.
  assert (Hup' : keeps s0 s3 ∧ collected s0 T seen3 res3 ∧ seen1 ⊆ seen3 ∧
    ∀ p c' C' h e v, parent C = Some p → inScope s p c' →
      containers s !! c' = Some C' → registry C' !! h = Some e →
      exactValue s0 T e v → e ∈ seen3).
  { destruct (parent C) as [p|] eqn:Hp.
    - destruct (IH _ _ _ _ _ _ Hup Hk2 Hc2) as (Hk3 & Hc3 & Hsub3 & Hall3).
      split; [done|]. split; [done|]. split; [done|].
      intros p' c' C' h e v [= <-] Hin HC' Hh Hv.
      eapply (Hall3 c' C' h e v); [|by rewrite Hcont2|done..].
      by apply (inScope_frame s).
    - injection Hup as <- <- <-. by repeat split. }
  destruct Hup' as (Hk3 & Hc3 & Hsub3 & Hall3).
  assert (Hscope : ∀ c' C' h e v, inScope s c c' →
            containers s !! c' = Some C' → registry C' !! h = Some e →
            exactValue s0 T e v → e ∈ seen3).
  { intros c' C' h e v Hin HC' Hh Hv. inversion Hin; subst.
    - rewrite HC0 in HC'. injection HC' as <-. apply Hsub3.
      apply (Hall2 (h, e) v); [|done].
      rewrite rangeOrder_perm. by apply elem_of_map_to_list.
    - match goal with
      | H1 : containers s !! c = Some ?C1, H2 : parent ?C1 = Some ?p |- _ =>
          rewrite HC0 in H1; injection H1 as <-;
          by eapply (Hall3 p c' C' h e v)
      end. }
  destruct (negb ex && _).
  - apply bind_Ret in Hr as ([] & s4 & Hw & Hr).
    unfold warn in Hw. injection Hw as <-.
    apply bind_Ret in Hr as (res5 & s5 & Hconv & Hr).
    injection Hr as <- <-. cbn [fst snd].
    destruct (convertSimilar_appends _ _ _ _ _ _ Hconv) as [more ->].
    apply convertSimilar_keeps in Hconv.
    split; [|split; [by apply collected_app|by split; [etrans|]]].
    eapply keeps_trans; [|exact Hconv]. eapply keeps_trans; [exact Hk3|].
    by apply keeps_entries.
  - injection Hr as <- <-. cbn [fst snd].
    split; [done|]. split; [done|]. by split; [etrans|].
Qed.

(** X22 (ResolveAll is complete): when ResolveAll(T) returns, its results
    contain the value of every value entry whose declared type matches T
    exactly and that is registered in the container or in one of its
    ancestors. *)
Theorem ResolveAll_complete s c T rs s' c' C' h e v :
  ResolveAll c T s = Ret rs s' →
  inScope s c c' → containers s !! c' = Some C' → registry C' !! h = Some e →
  exactValue s T e v →
  v ∈ rs.
Proof.
  intros Hr Hin HC' Hh Hv. unfold ResolveAll in Hr.
  apply bind_Ret in Hr as (C & s1 & HC & Hr).
  assert (s1 = s) as ->.
  { unfold getContainer in HC. destruct (_ !! _); naive_solver. }
  apply bind_Ret in Hr as ([seen1 res1] & s2 & Hidx & Hr).
  assert (H1 : frame s s2 ∧ keeps s s2 ∧ collected s T seen1 res1).
  { destruct (typeRegistry C !! T) as [es|].
    - split; [exact (framed_Ret _ _ _ _ (framed_collectIndexed _ _ _ _) Hidx)|].
      eapply (collectIndexed_collected s T) in Hidx;
        [exact Hidx | apply keeps_refl | intros ? ? ?; set_solver].
    - injection Hidx as <- <- <-. split; [apply frame_refl|].
      split; [apply keeps_refl | intros ? ? ?; set_solver]. }
  destruct H1 as ((_ & Hcont & _) & Hk & Hc).
  apply bind_Ret in Hr as ([seen3 res3] & s3 & Hall & Hr).
  injection Hr as <- <-. cbn [fst snd] in *.
  destruct (collectEntriesDirectly_collected s _ _ _ _ _ _ _ _ Hall Hk Hc)
    as (_ & Hc3 & _ & Hscope).
  apply (Hc3 e v); [|done].
  eapply (Hscope c' C' h e v); [|by rewrite Hcont|done..].
  by apply (inScope_frame s).
Qed.

(** X23 (Get, Find, Resolve, ResolveAll, Inject): a resolution never
    registers or removes anything: whether it returns or panics, the
    containers (handle maps, type indexes, parents), the keys and the
    declared type of every entry are as before, and the allocation counter
    has not gone back. *)
Theorem resolution_never_registers s c T tok fuel target :
  framed s (Get c tok s) ∧ framed s (Resolve c T s) ∧
  framed s (ResolveAll c T s) ∧ framed s (Inject fuel c target s) ∧
  (∀ t, framed s (Find t c s)).
Proof.
  split; [apply framed_Get|]. split; [apply framed_Resolve|].
  split; [apply framed_ResolveAll|]. split; [apply framed_Inject|].
  intros t. apply framed_Find.
Qed.

Lemma provideFactory_eq s c C fnType returnType body lc :
  containers s !! c = Some C → KindOf fnType = Func →
  let f := λ n : nat, if decide (0 = 0) then body n ≫= head else None in
  provideFactoryWithLifecycle c (VFunc fnType 0 [returnType] body) lc s =
  Ret tt
    (set_containers
       (<[c := withEntry C (next s) (S (next s)) (Some returnType)]>
          (containers s))
       (set_next (S (S (next s)))
          (set_entries
             (<[S (next s) := {| value := VNil; factory := Some f;
                                 depType := Some returnType; lifecycle := lc;
                                 once := false |}]> (entries s))
             (set_keys
                (<[next s :=
                     KProvided ("__provided__" +:+ TypeString returnType)]>
                   (keys s)) s)))).
Proof.
  intros HC Hk f. unfold provideFactoryWithLifecycle.
  rewrite decide_False by (intros H; by apply H).
  unfold bind, allocKey, allocEntry, getContainer, putContainer.
  cbn [containers set_next set_keys set_entries next]. by rewrite HC.
Qed.

(** X24 (ProvideFactory and ProvidePrototype, then Resolve): after
    ProvideFactory two Resolves return the first result of the factory's
    one call; after ProvidePrototype they return the first results of two
    successive calls. *)
Theorem factories_through_Resolve s c C fnType returnType body v1 v2 r1 r2 :
  containers s !! c = Some C → indexOf C returnType = [] →
  KindOf fnType = Func →
  let e := S (next s) in
  let k := count_occ Nat.eq_dec (invocations s) e in
  body k = Some (v1 :: r1) → body (S k) = Some (v2 :: r2) →
  (∃ s1 s2,
     ProvideFactory c (VFunc fnType 0 [returnType] body) s = Ret tt s1 ∧
     Resolve c returnType s1 = Ret (Some v1) s2 ∧
     Resolve c returnType s2 = Ret (Some v1) s2 ∧
     invocations s2 = e :: invocations s) ∧
  (∃ s1 s2 s3,
     ProvidePrototype c (VFunc fnType 0 [returnType] body) s = Ret tt s1 ∧
     Resolve c returnType s1 = Ret (Some v1) s2 ∧
     Resolve c returnType s2 = Ret (Some v2) s3 ∧
     invocations s3 = e :: e :: invocations s).
Proof.
  intros HC Hidx Hk e k Hb1 Hb2.
  assert (Hix : indexOf (withEntry C (next s) e (Some returnType))
                  returnType = [e]).
  { rewrite indexOf_withEntry, decide_True by done. by rewrite Hidx. }
  split.
  - unfold ProvideFactory.
    rewrite (provideFactory_eq s c C fnType returnType body Singleton HC Hk).
    set (f := λ n : nat, if decide (0 = 0) then body n ≫= head else None).
    set (E := {| value := VNil; factory := Some f;
                 depType := Some returnType; lifecycle := Singleton;
                 once := false |}).
    set (C1 := withEntry _ _ _ _). set (s1 := set_containers _ _).
    assert (HC1 : containers s1 !! c = Some C1)
      by (simpl; by rewrite lookup_insert_eq).
    assert (HE : entries s1 !! e = Some E)
      by (simpl; by rewrite lookup_insert_eq).
    pose proof (resolve_singleton_first s1 e E f HE eq_refl eq_refl eq_refl)
      as Hres.
    change (invocations s1) with (invocations s) in Hres. fold k in Hres.
    assert (Hf : f k = Some v1) by (unfold f; simpl; by rewrite Hb1).
    rewrite Hf in Hres. cbn [depType E] in Hres.
    set (s2 := setEntry _ _ _) in Hres.
    exists s1, s2. split; [done|].
    split; [|split; [|done]].
    + rewrite (Resolve_index_one _ _ _ _ _ HC1 Hix).
      unfold bind. by rewrite Hres.
    + rewrite (Resolve_index_one s2 c C1 returnType e HC1 Hix).
      unfold bind, resolve.
      assert (HE2 : entries s2 !! e
                    = Some {| value := v1; factory := Some f;
                              depType := Some returnType;
                              lifecycle := Singleton; once := true |})
        by (simpl; by rewrite lookup_insert_eq).
      by rewrite HE2.
  - unfold ProvidePrototype.
    rewrite (provideFactory_eq s c C fnType returnType body Prototype HC Hk).
    set (f := λ n : nat, if decide (0 = 0) then body n ≫= head else None).
    set (E := {| value := VNil; factory := Some f;
                 depType := Some returnType; lifecycle := Prototype;
                 once := false |}).
    set (C1 := withEntry _ _ _ _). set (s1 := set_containers _ _).
    assert (HC1 : containers s1 !! c = Some C1)
      by (simpl; by rewrite lookup_insert_eq).
    assert (HE : entries s1 !! e = Some E)
      by (simpl; by rewrite lookup_insert_eq).
    assert (Hf1 : f k = Some v1) by (unfold f; simpl; by rewrite Hb1).
    assert (Hf2 : f (S k) = Some v2) by (unfold f; simpl; by rewrite Hb2).
    set (s2 := set_invocations (e :: invocations s1) s1).
    set (s3 := set_invocations (e :: invocations s2) s2).
    assert (Hr1 : resolve e s1 = Ret v1 s2).
    { unfold resolve. rewrite HE. cbn [factory lifecycle E].
      unfold callFactory. change (invocations s1) with (invocations s).
      fold k. by rewrite Hf1. }
    assert (Hr2 : resolve e s2 = Ret v2 s3).
    { unfold resolve.
      assert (HE2 : entries s2 !! e = Some E) by exact HE.
      rewrite HE2. cbn [factory lifecycle E].
      unfold callFactory.
      change (invocations s2) with (e :: invocations s).
      rewrite (count_occ_cons_eq Nat.eq_dec (invocations s) eq_refl).
      fold k. by rewrite Hf2. }
    exists s1, s2, s3. split; [done|].
    split; [|split; [|done]].
    + rewrite (Resolve_index_one _ _ _ _ _ HC1 Hix).
      unfold bind. by rewrite Hr1.
    + rewrite (Resolve_index_one s2 c C1 returnType e HC1 Hix).
      unfold bind. by rewrite Hr2.
Qed.

(** X25 (Register, Bind, then Find): after Register(Bind(t, v)), Find(t)
    returns v as found when the dynamic type of v can be asserted to the
    token's type, and panics in the type assertion when v is the nil
    interface. *)
Theorem Register_then_Find s c C t T key v :
  containers s !! c = Some C → keys s !! t = Some (KToken T key) →
  ∃ s', Register c [Bind t v] s = Ret tt s' ∧
    (∀ vt, TypeOf v = Some vt → AssignableTo vt T = true →
       Find t c s' = Ret (Some v) s') ∧
    (TypeOf v = None → Find t c s' = Panic PanicRuntime s').
Proof.
  intros HC Hk.
  pose proof (registerTo_eq s c C (Bind t v) T key HC Hk) as HR.
  cbn [Bind token regValue regFactory regLifecycle] in HR.
  set (E := {| value := v; factory := None; depType := typeOfZero T;
               lifecycle := Singleton; once := false |}) in HR.
  set (C' := withEntry C t (next s) (typeOfZero T)) in HR.
  set (s' := set_containers _ _) in HR.
  assert (HC' : containers s' !! c = Some C')
    by (simpl; by rewrite lookup_insert_eq).
  assert (Hreg : registry C' !! t = Some (next s))
    by (simpl; by rewrite lookup_insert_eq).
  assert (HE : entries s' !! next s = Some E)
    by (simpl; by rewrite lookup_insert_eq).
  assert (Hfind : Find t c s' =
                  (let! v := typeAssert T v in ret (Some v)) s').
  { unfold Find. unfold bind at 1.
    rewrite (getEntry_local c c C' t (next s) s' HC' Hreg).
    unfold bind at 1. rewrite (resolve_value s' (next s) E HE eq_refl).
    unfold bind at 1, tokenType.
    change (keys s') with (keys s). by rewrite Hk. }
  exists s'. split.
  { cbn [Register]. unfold bind. by rewrite HR. }
  rewrite Hfind. unfold bind, typeAssert. split.
  - intros vt -> ->. done.
  - intros ->. done.
Qed.

End more_theorems.

(** ** The theorems at the scenarios of the tests *)

Lemma some_default {A} (o : option A) (d : A) :
  bool_decide (is_Some o) = true → o = Some (default d o).
Proof. intros Hb. apply bool_decide_eq_true_1 in Hb. by destruct Hb as [a ->]. Qed.

Lemma is_Some_true {A} (o : option A) :
  bool_decide (is_Some o) = true → is_Some o.
Proof. apply bool_decide_eq_true_1. Qed.

Lemma typedRegistryb_sound s C : typedRegistryb s C = true → typedRegistry s C.
Proof. intros Hb. apply bool_decide_eq_true_1 in Hb. exact Hb. Qed.

Lemma ret_storeOf {A} (o : outcome A) (a : A) (s0 : store) :
  resultOf o = Some a → o = Ret a (storeOf s0 o).
Proof. destruct o; simpl; congruence. Qed.

Lemma wf_execs_empty {env : Env} ops : wf (execs ops emptyStore).
Proof. apply execs_ok, wf_emptyStore. Qed.

(** C1 in a scope whose parent and itself both hold a bare Database: the
    parent's similar match is the one returned. *)
Lemma resolve_priority_witness :
  let s := priorityStore in
  let C := containerAt s 3 in
  let T := PtrTo tDatabase in
  wf s ∧ containers s !! 3 = Some C ∧ parent C = Some 0 ∧
  typedRegistry s C ∧ indexOf C T = [] ∧
  exactMatches (env := testEnv) s C T = [] ∧
  similarMatches (env := testEnv) s C T = [5] ∧
  resultOf (Resolve (env := testEnv) 3 T s)
    = Some (Some (VPtr tDatabase (Some 6))) ∧
  objects (storeOf s (Resolve (env := testEnv) 3 T s)) !! 6
    = Some (database 1).
Proof.
  intros s C T.
  assert (Hwf : wf s) by apply wf_execs_empty.
  assert (HC : containers s !! 3 = Some C)
    by (apply some_default; vm_compute; reflexivity).
  assert (Hp : parent C = Some 0) by (vm_compute; reflexivity).
  assert (Hty : typedRegistry s C)
    by (apply typedRegistryb_sound; vm_compute; reflexivity).
  assert (Hi : indexOf C T = []) by (vm_compute; reflexivity).
  assert (Hex : exactMatches (env := testEnv) s C T = [])
    by (vm_compute; reflexivity).
  assert (Hsim : similarMatches (env := testEnv) s C T = [5])
    by (vm_compute; reflexivity).
  repeat (split; [assumption|]).
  destruct (resolve_priority (env := testEnv) s 3 C 0 T Hwf HC Hp Hty)
    as [_ Hres].
  destruct (Hres Hi) as [_ Hup]. specialize (Hup Hex).
  assert (Hr : resultOf (findSingleEntry (env := testEnv) 1 0 T s)
               = Some (Some (VPtr tDatabase (Some 6))))
    by (vm_compute; reflexivity).
  assert (Ho : objects (storeOf s (findSingleEntry (env := testEnv) 1 0 T s))
                 !! 6 = Some (database 1))
    by (vm_compute; reflexivity).
  destruct (findSingleEntry (env := testEnv) 1 0 T s) as [[v|] s'|q s'|];
    try discriminate Hr.
  injection Hr as ->. rewrite Hup. split; [reflexivity | exact Ho].
Defined.

(** C2 at TestMultipleRegistrations. *)
Lemma ambiguous_resolve_distinct_get_witness :
  let s := ambiguousStore in
  wf s ∧
  (∃ n, 1 < n ∧
     Resolve (env := testEnv) 0 tService s
     = Panic (PanicMultipleCandidates tService n) s) ∧
  Get 0 (Some 1) s = Ret (service 1) s ∧
  Get 0 (Some 2) s = Ret (service 2) s.
Proof.
  intros s.
  assert (Hwf : wf s) by apply wf_execs_empty.
  assert (HC : containers s !! 0 = Some (containerAt s 0))
    by (apply some_default; vm_compute; reflexivity).
  assert (He1 : entries s !! 3 = Some (entryAt s 3))
    by (apply some_default; vm_compute; reflexivity).
  assert (He2 : entries s !! 4 = Some (entryAt s 4))
    by (apply some_default; vm_compute; reflexivity).
  assert (Hh1 : registry (containerAt s 0) !! 1 = Some 3)
    by (vm_compute; reflexivity).
  assert (Hh2 : registry (containerAt s 0) !! 2 = Some 4)
    by (vm_compute; reflexivity).
  assert (Hd1 : depType (entryAt s 3) = Some tService)
    by (vm_compute; reflexivity).
  assert (Hd2 : depType (entryAt s 4) = Some tService)
    by (vm_compute; reflexivity).
  assert (Hne : 3 ≠ 4) by lia.
  destruct (ambiguous_resolve_distinct_get (env := testEnv)
              s 0 (containerAt s 0) tService 1 2 3 4 (entryAt s 3)
              (entryAt s 4) Hwf HC Hh1 Hh2 Hne He1 He2 Hd1 Hd2)
    as (_ & (n & Hn & HR & _) & _ & _ & HG1 & HG2).
  assert (Hf1 : factory (entryAt s 3) = None) by (vm_compute; reflexivity).
  assert (Hf2 : factory (entryAt s 4) = None) by (vm_compute; reflexivity).
  assert (Hv1 : value (entryAt s 3) = service 1) by (vm_compute; reflexivity).
  assert (Hv2 : value (entryAt s 4) = service 2) by (vm_compute; reflexivity).
  split; [exact Hwf|].
  split; [exists n; split; [exact Hn | exact HR]|].
  split.
  - rewrite <- Hv1. exact (HG1 Hf1).
  - rewrite <- Hv2. exact (HG2 Hf2).
Defined.

(** C3 at TestEntry_Resolve_Singleton: three resolutions, one call. *)
Lemma singleton_invoked_once_witness :
  let s := singletonStore in
  let E := entryAt s 2 in
  let f := default (λ _, None) (factory E) in
  entries s !! 2 = Some E ∧ factory E = Some f ∧
  lifecycle E = Singleton ∧ once E = false ∧
  invocations (resolveTimes 3 2 s).2 = 2 :: invocations s ∧
  (resolveTimes 3 2 s).1 = replicate 3 (Some (service 0)).
Proof.
  intros s E f.
  assert (HE : entries s !! 2 = Some E)
    by (apply some_default; vm_compute; reflexivity).
  assert (Hf : factory E = Some f)
    by (apply some_default; vm_compute; reflexivity).
  assert (Hl : lifecycle E = Singleton) by (vm_compute; reflexivity).
  assert (Ho : once E = false) by (vm_compute; reflexivity).
  repeat (split; [assumption|]).
  destruct (singleton_invoked_once s 2 E f 3 HE Hf Hl Ho) as [Hi Hm]; [lia|].
  split; [exact Hi|].
  assert (Hk : f (count_occ Nat.eq_dec (invocations s) 2) = Some (service 0))
    by (vm_compute; reflexivity).
  rewrite Hk in Hm. exact (proj1 Hm).
Defined.

(** C4 at TestEntry_Resolve_Prototype: three resolutions, three calls. *)
Lemma prototype_invoked_every_time_witness :
  let s := prototypeStore in
  let E := entryAt s 2 in
  let f := default (λ _, None) (factory E) in
  entries s !! 2 = Some E ∧ factory E = Some f ∧ lifecycle E = Prototype ∧
  invocations (resolveTimes 3 2 s).2 = [2; 2; 2] ++ invocations s ∧
  (resolveTimes 3 2 s).1
    = [Some (service 0); Some (service 1); Some (service 2)].
Proof.
  intros s E f.
  assert (HE : entries s !! 2 = Some E)
    by (apply some_default; vm_compute; reflexivity).
  assert (Hf : factory E = Some f)
    by (apply some_default; vm_compute; reflexivity).
  assert (Hl : lifecycle E = Prototype) by (vm_compute; reflexivity).
  repeat (split; [assumption|]).
  destruct (prototype_invoked_every_time s 2 E f 3 HE Hf Hl) as (Hi & Hr & _).
  split; [exact Hi|]. rewrite Hr. vm_compute. reflexivity.
Defined.

(** C6 at TestInject, with a bare Database in the registry. *)
Lemma inject_pointer_field_witness :
  let s := injectStore in
  let C := containerAt s 0 in
  let E := entryAt s 2 in
  let target := VPtr tRepository (Some 3) in
  wf s ∧ containers s !! 0 = Some C ∧
  similarMatches (env := testEnv) s C (PtrTo tDatabase) = [2] ∧
  value E = database 1 ∧
  objects s !! 3 = Some (VStruct tRepository []) ∧
  resultOf (Inject (env := testEnv) 1 0 target s) = Some tt ∧
  objects (storeOf s (Inject (env := testEnv) 1 0 target s)) !! 3
    = Some (VStruct tRepository [("DB", VPtr tDatabase (Some 4))]) ∧
  objects (storeOf s (Inject (env := testEnv) 1 0 target s)) !! 4
    = Some (database 1).
Proof.
  intros s C E target.
  assert (Hwf : wf s).
  { apply (wf_frame (execs (env := testEnv)
                       [OpNew; OpProvide 0 (database 1)] emptyStore));
      [apply wf_execs_empty | apply framed_allocObject]. }
  assert (HC : containers s !! 0 = Some C)
    by (apply some_default; vm_compute; reflexivity).
  assert (Hsim : similarMatches (env := testEnv) s C (PtrTo tDatabase) = [2])
    by (vm_compute; reflexivity).
  assert (Hv : value E = database 1) by (vm_compute; reflexivity).
  assert (Hl : objects s !! 3 = Some (VStruct tRepository []))
    by (vm_compute; reflexivity).
  repeat (split; [assumption|]).
  assert (Hty : typedRegistry s C)
    by (apply typedRegistryb_sound; vm_compute; reflexivity).
  assert (Hi : indexOf C (PtrTo tDatabase) = []) by (vm_compute; reflexivity).
  assert (Hex : exactMatches (env := testEnv) s C (PtrTo tDatabase) = [])
    by (vm_compute; reflexivity).
  assert (Hup : parentSearch (env := testEnv) s C (PtrTo tDatabase)
                = Ret None s).
  { unfold parentSearch.
    assert (Hp : parent C = None) by (vm_compute; reflexivity).
    by rewrite Hp. }
  assert (HE : entries s !! 2 = Some E)
    by (apply some_default; vm_compute; reflexivity).
  assert (Hf : factory E = None) by (vm_compute; reflexivity).
  assert (HT : TypeOf (value E) = Some tDatabase) by (vm_compute; reflexivity).
  assert (HD : KindOf tDatabase ≠ Ptr) by discriminate.
  assert (Hlt : 3 < next s) by (vm_compute; lia).
  destruct (inject_pointer_field (env := testEnv) s s 0 C tDatabase
              tRepository 3 [] []
              {| FieldName := "DB"; FieldType := PtrTo tDatabase;
                 Exported := true |} [] 2 [] E 0 Hwf HC Hty Hi Hex Hup Hsim
              HE Hf HT HD eq_refl eq_refl (Forall_nil_2 _) (Forall_nil_2 _)
              eq_refl eq_refl Hl Hlt) as [HI _].
  unfold target. rewrite HI.
  split; [reflexivity|]. split; vm_compute; reflexivity.
Defined.

(** C7 at a root that holds a nil [*Service] and is asked for a Service. *)
Lemma nil_reference_is_miss_witness :
  let s := nilStore in
  let C := containerAt s 0 in
  wf s ∧ containers s !! 0 = Some C ∧
  similarMatches (env := testEnv) s C tService = [2] ∧
  value (entryAt s 2) = VPtr tService None ∧
  Resolve (env := testEnv) 0 tService s
    = Ret None (warned (WarnSimilar tService) s).
Proof.
  intros s C.
  assert (Hwf : wf s) by apply wf_execs_empty.
  assert (HC : containers s !! 0 = Some C)
    by (apply some_default; vm_compute; reflexivity).
  assert (Hsim : similarMatches (env := testEnv) s C tService = [2])
    by (vm_compute; reflexivity).
  assert (Hv : value (entryAt s 2) = VPtr tService None)
    by (vm_compute; reflexivity).
  repeat (split; [assumption|]).
  refine (proj2 (nil_reference_is_miss (env := testEnv) s 0 C tService 2 []
                   s (warned (WarnSimilar tService) s) Hwf HC _ _ _ Hsim _ _ _)).
  - apply typedRegistryb_sound. vm_compute. reflexivity.
  - vm_compute. reflexivity.
  - vm_compute. reflexivity.
  - unfold parentSearch.
    assert (Hp : parent C = None) by (vm_compute; reflexivity).
    by rewrite Hp.
  - discriminate.
  - rewrite <- Hv. apply resolve_value; [|vm_compute; reflexivity].
    apply (some_default (entries s !! 2) noEntry). vm_compute. reflexivity.
Defined.

(** C9 at TestClear_DoesNotAffectParent. *)
Lemma clear_keeps_parent_witness :
  let s := clearStore in
  let s' := storeOf s (Clear 3 s) in
  wf s ∧ parent (containerAt s 3) = Some 0 ∧
  resultOf (Clear 3 s) = Some tt ∧
  containers s' !! 0 = Some (containerAt s 0) ∧
  Get 3 (Some 1) s' = Ret (service 1) s' ∧
  Resolve (env := testEnv) 3 tService s' = Ret (Some (service 1)) s'.
Proof.
  intros s s'.
  assert (Hwf : wf s) by apply wf_execs_empty.
  assert (HC : containers s !! 3 = Some (containerAt s 3))
    by (apply some_default; vm_compute; reflexivity).
  assert (Hp : parent (containerAt s 3) = Some 0) by (vm_compute; reflexivity).
  assert (HP : containers s !! 0 = Some (containerAt s 0))
    by (apply some_default; vm_compute; reflexivity).
  assert (HE : entries s !! 2 = Some (entryAt s 2))
    by (apply some_default; vm_compute; reflexivity).
  destruct (clear_keeps_parent (env := testEnv) s 3 (containerAt s 3) 0
              (containerAt s 0) Hwf HC Hp HP)
    as (HClear & HP' & Hget & _ & Hres).
  assert (Hs' : s' = set_containers
                       (<[3 := {| registry := ∅; typeRegistry := ∅;
                                  parent := Some 0 |}]> (containers s)) s)
    by (unfold s'; by rewrite HClear).
  rewrite Hs'.
  split; [exact Hwf|]. split; [exact Hp|].
  split; [by rewrite HClear|]. split; [exact HP'|]. split.
  - rewrite (Hget 1 2) by (vm_compute; reflexivity).
    rewrite (resolve_value _ 2 (entryAt s 2)) by (done || vm_compute; reflexivity).
    f_equal.
  - rewrite (Hres tService 2).
    + unfold bind.
      rewrite (resolve_value _ 2 (entryAt s 2))
        by (done || vm_compute; reflexivity).
      unfold ret. do 2 f_equal.
    + apply typedRegistryb_sound. vm_compute. reflexivity.
    + vm_compute. reflexivity.
Defined.

(** C10 on a fresh root: two tokens named alike, one registered. *)
Lemma token_identity_witness :
  let s := execs (env := testEnv) [OpNew] emptyStore in
  let T := PtrTo tService in
  let s1 := storeOf s (NewToken T ["my-service"] s) in
  let s2 := storeOf s1 (NewToken T ["my-service"] s1) in
  let v := VPtr tService None in
  let s3 := storeOf s2 (Register 0 [Bind 1 v] s2) in
  NewToken T ["my-service"] s = Ret 1 s1 ∧
  NewToken T ["my-service"] s1 = Ret 2 s2 ∧
  Get 0 (Some 1) s3 = Ret v s3 ∧
  Get 0 (Some 2) s3 = Panic (PanicNotFound 2) s3 ∧
  Find (env := testEnv) 2 0 s3 = Ret None s3.
Proof.
  intros s T s1 s2 v s3.
  assert (Hwf : wf s) by apply wf_execs_empty.
  assert (H1 : NewToken T ["my-service"] s = Ret 1 s1)
    by (apply ret_storeOf; vm_compute; reflexivity).
  assert (H2 : NewToken T ["my-service"] s1 = Ret 2 s2)
    by (apply ret_storeOf; vm_compute; reflexivity).
  split; [exact H1|]. split; [exact H2|].
  destruct (token_identity (env := testEnv) T ["my-service"] v 0 s 1 s1 2 s2
              Hwf) as (s3' & e & key & HR & _ & _ & _ & _ & Hg1 & Hg2 & Hf & _);
    [apply is_Some_true; vm_compute; reflexivity | exact H1 | exact H2 |].
  assert (Hs3 : s3 = s3') by (unfold s3; by rewrite HR).
  rewrite Hs3. by repeat split.
Defined.

(** C5 as stated fails: the entry registered under a token whose element
    type is an interface has no declared type and is in no index. *)
Lemma interface_token_entry_not_indexed : ¬ indexedAsStated interfaceStore.
Proof.
  intros Hc.
  assert (HC : containers interfaceStore !! 0
               = Some (containerAt interfaceStore 0))
    by (apply some_default; vm_compute; reflexivity).
  assert (Hh : registry (containerAt interfaceStore 0) !! 1 = Some 2)
    by (vm_compute; reflexivity).
  destruct (Hc 0 _ 1 2 HC Hh) as (T & HT & _).
  assert (Hn : entryType interfaceStore 2 = None) by (vm_compute; reflexivity).
  congruence.
Qed.

(** With that entry in the handle map, a by-type search that reaches the
    scan dereferences its nil depType. *)
Example interface_token_entry_breaks_scan :
  panicOf (Resolve (env := testEnv) 0 tDatabase interfaceStore)
  = Some PanicRuntime.
Proof. vm_compute. reflexivity. Qed.

(** ** The further properties at scenarios *)

(** X2 at TestResolve: a Service provided to a fresh root. *)
Lemma Provide_then_Resolve_witness :
  let s := rootStore in
  ∃ s', Provide 0 (service 1) s = Ret tt s' ∧
        Resolve (env := testEnv) 0 tService s' = Ret (Some (service 1)) s'.
Proof.
  intros s.
  destruct (Provide_then_Resolve (env := testEnv) s 0 (containerAt s 0)
              (service 1) tService) as (s' & HP & Hnil & _).
  - apply some_default. vm_compute. reflexivity.
  - reflexivity.
  - exists s'. split; [exact HP|]. apply Hnil. vm_compute. reflexivity.
Defined.

(** X3: one token bound twice. *)
Lemma rebinding_a_token_witness :
  let s := tokenStore in
  ∃ s', Register 0 [Bind 1 (service 1); Bind 1 (service 2)] s = Ret tt s' ∧
        Get 0 (Some 1) s' = Ret (service 2) s' ∧
        Resolve (env := testEnv) 0 tService s'
          = Panic (PanicMultipleCandidates tService 2) s'.
Proof.
  intros s.
  destruct (rebinding_a_token (env := testEnv) s 0 (containerAt s 0) 1
              tService "svc" (service 1) (service 2))
    as (s' & C' & e1 & e2 & HR & _ & _ & _ & _ & _ & HG & HRes).
  - apply some_default. vm_compute. reflexivity.
  - vm_compute. reflexivity.
  - discriminate.
  - exists s'. split; [exact HR|]. split; [exact HG|].
    assert (Hi : indexOf (containerAt s 0) tService = [])
      by (vm_compute; reflexivity).
    rewrite Hi in HRes. exact HRes.
Defined.

(** X5 at TestScopeddshot_FallbackToParent: the scope asks its parent. *)
Lemma Get_falls_back_to_parent_witness :
  let s := priorityStore in
  Get 3 (Some 1) s = Get 0 (Some 1) s ∧
  Find (env := testEnv) 1 3 s = Find (env := testEnv) 1 0 s.
Proof.
  intros s.
  assert (Hp : parent (containerAt s 3) = Some 0) by (vm_compute; reflexivity).
  pose proof (Get_falls_back_to_parent (env := testEnv) s 3 (containerAt s 3) 1)
    as H.
  rewrite Hp in H. apply H.
  - apply wf_execs_empty.
  - apply some_default. vm_compute. reflexivity.
  - vm_compute. reflexivity.
Defined.

(** X6 at TestNewScoped. *)
Lemma NewScoped_inherits_witness :
  let s := clearStore in
  ∃ c s', NewScoped (Some 0) s = Ret c s' ∧
    Parent c s' = Ret (Some 0) s' ∧
    ∀ tok, Get c (Some tok) s' = Get 0 (Some tok) s'.
Proof.
  intros s.
  destruct (NewScoped_inherits (env := testEnv) s 0)
    as (c & s' & HN & _ & HP & _ & HG & _).
  - apply wf_execs_empty.
  - apply is_Some_true. vm_compute. reflexivity.
  - exists c, s'. split; [exact HN|]. split; [exact HP | exact HG].
Defined.

(** X7 at TestClear. *)
Lemma Clear_root_forgets_witness :
  let s := ambiguousStore in
  ∃ s', Clear 0 s = Ret tt s' ∧
    Resolve (env := testEnv) 0 tService s' = Ret None s' ∧
    ResolveAll (env := testEnv) 0 tService s' = Ret [] s' ∧
    Get 0 (Some 1) s' = Panic (PanicNotFound 1) s'.
Proof.
  intros s.
  destruct (Clear_root_forgets (env := testEnv) s 0 (containerAt s 0))
    as (s' & HC & _ & _ & _ & HR & HA & HG & _).
  - apply some_default. vm_compute. reflexivity.
  - vm_compute. reflexivity.
  - exists s'. split; [exact HC|]. split; [apply HR|].
    split; [apply HA | apply HG].
Defined.


(** X9 at TestInject_MissingDependencyPanics. *)
Lemma Inject_unresolved_field_witness :
  let s := rootStore in
  let s1 := storeOf s (Resolve (env := testEnv) 0 (PtrTo tDatabase) s) in
  Inject (env := testEnv) 1 0 (VPtr tRepository (Some 1)) s =
  Panic (PanicInjectField "DB" (PtrTo tDatabase) "Repository") s1.
Proof.
  intros s s1.
  apply (Inject_unresolved_field (env := testEnv) s s1 0 tRepository 1 []
           {| FieldName := "DB"; FieldType := PtrTo tDatabase;
              Exported := true |} [] 0).
  - reflexivity.
  - reflexivity.
  - apply Forall_nil_2.
  - reflexivity.
  - discriminate.
  - apply ret_storeOf. vm_compute. reflexivity.
Defined.

(** X10: a Worker whose Done field is built in place. *)
Lemma Inject_builds_struct_field_witness :
  let s := workerStore in
  let s1 := storeOf s (Resolve (env := workerEnv) 0 tSignal s) in
  resultOf (Inject (env := workerEnv) 2 0 (VPtr tWorker (Some 1)) s)
    = Some tt ∧
  objects (storeOf s (Inject (env := workerEnv) 2 0 (VPtr tWorker (Some 1)) s))
    !! 1 = Some (VStruct tWorker [("Done", VStruct tSignal [])]).
Proof.
  intros s s1.
  rewrite (Inject_builds_struct_field (env := workerEnv) s s1 0 tWorker 1 []
             []
             {| FieldName := "Done"; FieldType := tSignal; Exported := true |}
             [] 0).
  - split; [reflexivity|]. vm_compute. reflexivity.
  - reflexivity.
  - reflexivity.
  - apply Forall_nil_2.
  - apply Forall_nil_2.
  - reflexivity.
  - reflexivity.
  - apply Forall_nil_2.
  - apply ret_storeOf. vm_compute. reflexivity.
  - vm_compute. reflexivity.
  - vm_compute. lia.
Defined.

(** X12 and the scope of TestScopeddshot_LocalOverridesParent. *)
Lemma ResolveAll_returns_witness :
  let s := priorityStore in
  ResolveAll (env := testEnv) 3 (PtrTo tDatabase) s ≠ OutOfFuel ∧
  wf (storeOf s (ResolveAll (env := testEnv) 3 (PtrTo tDatabase) s)).
Proof.
  intros s.
  destruct (ResolveAll_returns (env := testEnv) 3 (PtrTo tDatabase) s)
    as (H1 & _ & H2 & _).
  - apply wf_execs_empty.
  - split; [exact H1 | exact H2].
Defined.

(** X14 at TestMultipleRegistrations: Resolve refuses, ResolveAll lists. *)
Lemma ResolveAll_exact_entries_witness :
  let s := ambiguousStore in
  ResolveAll (env := testEnv) 0 tService s = Ret [service 1; service 2] s ∧
  Resolve (env := testEnv) 0 tService s
    = Panic (PanicMultipleCandidates tService 2) s.
Proof.
  intros s.
  assert (Hi : indexOf (containerAt s 0) tService = [3; 4])
    by (vm_compute; reflexivity).
  assert (Hall : bool_decide
                   (map_Forall (λ _ e, entryType s e = Some tService)
                      (registry (containerAt s 0))) = true)
    by (vm_compute; reflexivity).
  apply bool_decide_eq_true_1 in Hall.
  destruct (ResolveAll_exact_entries (env := testEnv) s 0 (containerAt s 0)
              tService) as [HA HR].
  - apply wf_execs_empty.
  - apply some_default. vm_compute. reflexivity.
  - vm_compute. reflexivity.
  - intros h e Hh. exists tService. split; [exact (Hall h e Hh) | by left].
  - rewrite Hi.
    repeat (apply Forall_cons_2 || apply Forall_nil_2);
      eexists; (split; [apply (some_default _ noEntry); vm_compute; reflexivity
                       | vm_compute; reflexivity]).
  - rewrite Hi in HA, HR. split; [|apply HR; simpl; lia].
    rewrite HA. f_equal.
Defined.

(** X15 in a scope with its own Database and one in the parent. *)
Lemma ResolveAll_index_first_witness :
  let s := priorityStore in
  let o := ResolveAll (env := testEnv) 3 tDatabase s in
  ∃ more, default [] (resultOf o) = database 2 :: more.
Proof.
  intros s o.
  assert (Hi : indexOf (containerAt s 3) tDatabase = [5])
    by (vm_compute; reflexivity).
  destruct (ResolveAll_index_first (env := testEnv) s 3 (containerAt s 3)
              tDatabase (default [] (resultOf o)) (storeOf s o))
    as [more Hm].
  - apply wf_execs_empty.
  - apply some_default. vm_compute. reflexivity.
  - rewrite Hi. apply Forall_cons_2; [|apply Forall_nil_2].
    eexists. split; [apply (some_default _ noEntry); vm_compute; reflexivity
                    | vm_compute; reflexivity].
  - apply ret_storeOf. apply some_default. vm_compute. reflexivity.
  - exists more. rewrite Hm, Hi. reflexivity.
Defined.

(** X16: a Service in a fresh root, asked for as fmt.Stringer. *)
Lemma generic_Resolve_misses_interfaces_witness :
  let s := rootStore in
  ∃ s', Provide 0 (service 1) s = Ret tt s' ∧
    Resolve (env := testEnv) 0 tStringer s' = Ret (Some (service 1)) s' ∧
    ResolveT (env := testEnv) 0 tStringer [] s' = Ret None s' ∧
    ResolveAllT (env := testEnv) 0 tStringer [] s' = Ret [service 1] s'.
Proof.
  intros s.
  apply (generic_Resolve_misses_interfaces (env := testEnv) s 0 (service 1)
           tService tStringer).
  - reflexivity.
  - reflexivity.
  - discriminate.
  - reflexivity.
  - reflexivity.
Defined.

(** X17: a string in the container. *)
Lemma primitives_are_not_auto_wired_witness :
  let s := rootStore in
  let v := VData tString 7 in
  ∃ s', Provide 0 v s = Ret tt s' ∧
    Resolve (env := testEnv) 0 tString s' = Ret (Some v) s' ∧
    resolveParameter (env := testEnv) 1 0 tString 1 s'
      = Ret (inl (ErrPrimitive tString)) s' ∧
    resolveParameter (env := testEnv) 1 0 (PtrTo tString) 1 s'
      = Ret (inl (ErrPrimitive (PtrTo tString))) s'.
Proof.
  intros s v.
  apply (primitives_are_not_auto_wired (env := testEnv) s 0 (containerAt s 0)).
  - apply some_default. vm_compute. reflexivity.
  - reflexivity.
  - vm_compute. reflexivity.
  - vm_compute. reflexivity.
Defined.

(** X18: a lone parameter of type [*struct{}]. *)
Lemma resolveParameter_lone_struct_witness :
  let s := rootStore in
  let s1 := storeOf s (Resolve (env := testEnv) 0 (PtrTo tSignal) s) in
  resultOf (resolveParameter (env := testEnv) 1 0 (PtrTo tSignal) 1 s)
    = Some (inr {| rv_val := VStruct tSignal []; rv_addr := Some (next s1) |}) ∧
  resolveParameter (env := testEnv) 1 0 (PtrTo tSignal) 2 s
    = Ret (inl (ErrNoRegistration (PtrTo tSignal))) s1.
Proof.
  intros s s1.
  destruct (resolveParameter_lone_struct (env := testEnv) s s1 0 tSignal
              (PtrTo tSignal) 0) as [H1 H2].
  - reflexivity.
  - by right.
  - apply Forall_nil_2.
  - apply ret_storeOf. vm_compute. reflexivity.
  - split; [by rewrite H1 | apply H2; lia].
Defined.

(** X19: a container under a layer of another package's key. *)
Lemma FromContext_innermost_witness :
  FromContext 0 (otherLayers ++ WithContainer [] (Some 3)) = Some 3 ∧
  FromContext 0 otherLayers = Some 0.
Proof.
  apply FromContext_innermost.
  apply Forall_cons_2; [discriminate | apply Forall_nil_2].
Defined.

(** X20 at the scope of [priorityStore]. *)
Lemma ResolveCtx_uses_context_container_witness :
  let s := priorityStore in
  ResolveCtx (env := testEnv) 0 tDatabase
    (otherLayers ++ WithContainer [] (Some 3)) s
    = ResolveT (env := testEnv) 0 tDatabase [Some 3] s ∧
  ResolveCtx (env := testEnv) 0 tDatabase
    (otherLayers ++ WithContainer [] None) s = Panic PanicRuntime s.
Proof.
  intros s.
  destruct (ResolveCtx_uses_context_container (env := testEnv) 0 tDatabase []
              otherLayers 3 s) as (H1 & _ & _ & H4).
  - apply Forall_cons_2; [discriminate | apply Forall_nil_2].
  - split; [exact H1 | apply H4; discriminate].
Defined.

(** X21 at TestInject. *)
Lemma Provide_then_Inject_witness :
  let s := targetStore in
  let db := VPtr tDatabase (Some 9) in
  ∃ s', Provide 0 db s = Ret tt s' ∧
    Inject (env := testEnv) 1 0 (VPtr tRepository (Some 1)) s' =
    Ret tt (set_objects
              (<[1 := VStruct tRepository (assignField "DB" db [])]>
                 (objects s')) s').
Proof.
  intros s db.
  apply (Provide_then_Inject (env := testEnv) s 0 (containerAt s 0) db
           tRepository 1 [] []
           {| FieldName := "DB"; FieldType := PtrTo tDatabase;
              Exported := true |} [] 0).
  - apply some_default. vm_compute. reflexivity.
  - reflexivity.
  - vm_compute. reflexivity.
  - reflexivity.
  - reflexivity.
  - apply Forall_nil_2.
  - apply Forall_nil_2.
  - reflexivity.
  - vm_compute. reflexivity.
Defined.

(** X22 at TestResolveAll_WithParent: the parent's Database is listed. *)
Lemma ResolveAll_complete_witness :
  let s := priorityStore in
  let o := ResolveAll (env := testEnv) 3 tDatabase s in
  database 1 ∈ default [] (resultOf o).
Proof.
  intros s o.
  assert (HC3 : containers s !! 3 = Some (containerAt s 3))
    by (apply some_default; vm_compute; reflexivity).
  assert (Hp : parent (containerAt s 3) = Some 0) by (vm_compute; reflexivity).
  apply (ResolveAll_complete (env := testEnv) s 3 tDatabase
           (default [] (resultOf o)) (storeOf s o) 0 (containerAt s 0) 1 2).
  - apply ret_storeOf. apply some_default. vm_compute. reflexivity.
  - apply (inScope_parent s 3 (containerAt s 3) 0 0 HC3 Hp), inScope_self.
  - apply some_default. vm_compute. reflexivity.
  - vm_compute. reflexivity.
  - exists (entryAt s 2), tDatabase.
    split; [apply some_default; vm_compute; reflexivity|].
    repeat split; vm_compute; reflexivity.
Defined.

(** X24 at TestProvideFactory and TestProvidePrototype. *)
Lemma factories_through_Resolve_witness :
  let s := rootStore in
  (∃ s1 s2,
     ProvideFactory 0 serviceFactory s = Ret tt s1 ∧
     Resolve (env := testEnv) 0 tService s1 = Ret (Some (service 0)) s2 ∧
     Resolve (env := testEnv) 0 tService s2 = Ret (Some (service 0)) s2) ∧
  (∃ s1 s2 s3,
     ProvidePrototype 0 serviceFactory s = Ret tt s1 ∧
     Resolve (env := testEnv) 0 tService s1 = Ret (Some (service 0)) s2 ∧
     Resolve (env := testEnv) 0 tService s2 = Ret (Some (service 1)) s3).
Proof.
  intros s.
  destruct (factories_through_Resolve (env := testEnv) s 0 (containerAt s 0)
              tServiceFactory tService (λ n, Some [service (Z.of_nat n)])
              (service 0) (service 1) [] [])
    as [(s1 & s2 & H1 & H2 & H3 & _) (p1 & p2 & p3 & P1 & P2 & P3 & _)].
  - apply some_default. vm_compute. reflexivity.
  - vm_compute. reflexivity.
  - reflexivity.
  - vm_compute. reflexivity.
  - vm_compute. reflexivity.
  - split.
    + exists s1, s2. split; [exact H1|]. split; [exact H2 | exact H3].
    + exists p1, p2, p3. split; [exact P1|]. split; [exact P2 | exact P3].
Defined.

(** X25 at TestRegisterWithToken. *)
Lemma Register_then_Find_witness :
  let s := tokenStore in
  ∃ s', Register 0 [Bind 1 (service 1)] s = Ret tt s' ∧
        Find (env := testEnv) 1 0 s' = Ret (Some (service 1)) s'.
Proof.
  intros s.
  destruct (Register_then_Find (env := testEnv) s 0 (containerAt s 0) 1
              tService "svc" (service 1)) as (s' & HR & HF & _).
  - apply some_default. vm_compute. reflexivity.
  - vm_compute. reflexivity.
  - exists s'. split; [exact HR|].
    apply (HF tService); [reflexivity | apply AssignableTo_refl].
Defined.
